(** * OpenHerd client: replication and synchronisation engine

    A shallow embedding of [src/js/openherd.js] (class [OpenHerdService]),
    of [OpenHerdApp.loadPosts] and its helpers in [src/js/app.js] and of
    [DiscoveryService] (third part of [src/js/app.js]), followed by the
    properties the specification states about them.

    Conventions of the embedding.
    - JavaScript code runs in a state-and-exception monad [M S A]: a
      computation takes the state and gives back a completion (normal or
      thrown) together with the new state.
    - Everything outside the program (connectivity, the HTTP peers,
      [JSON.parse], [Date], [localStorage] quota, the mDNS scan) is an
      oracle.  Oracles that may change over time are indexed by a logical
      clock, which advances at every [await]; requests issued together
      ([Promise.all], [Promise.allSettled]) are answered as of the same
      instant.  Execution is sequential: nothing else runs while an
      operation is suspended.
    - Arrays of posts that are shared and sorted in place live in a heap of
      array objects; a variable holding such an array holds a location.
    - JSON payloads come from peers that are not trusted: the fields the
      code reads dynamically are JavaScript values, with JavaScript's
      truthiness and strict equality.  Where a statement is about data typed
      as the data model or the wire protocol has it, the typing is a
      hypothesis of the theorem. *)

From stdpp Require Import base numbers strings list gmap fin_maps sorting pretty.

Open Scope string_scope.
Open Scope list_scope.
Open Scope nat_scope.

(* ================================================================== *)
(** ** JavaScript values met in JSON payloads *)

(** Scalar JSON values as JavaScript sees them after [JSON.parse]; a field
    that is missing from an object reads as [JUndefined].  Numbers are
    restricted to integers. *)
Inductive jsval : Type :=
  | JUndefined
  | JNull
  | JBool (b : bool)
  | JNum (n : Z)
  | JStr (s : string).

#[global] Instance jsval_eq_dec : EqDecision jsval.
Proof. solve_decision. Defined.

(** [ToBoolean]: what [!v], [v || w] and [r.value] in a filter test. *)
Definition truthy (v : jsval) : bool :=
  match v with
  | JUndefined | JNull => false
  | JBool b => b
  | JNum n => negb (n =? 0)%Z
  | JStr s => negb (String.eqb s "")
  end.

(** [a === b] on scalars. *)
Definition strict_eq (a b : jsval) : bool := bool_decide (a = b).

(** Errors a [catch] clause may receive. *)
Inductive JSError : Type :=
  | TypeError
  | SyntaxError
  | NetworkError
  | TimeoutError
  | HttpError
  | QuotaExceededError
  | ListenerError.

Inductive completion (A : Type) : Type :=
  | Normal (a : A)
  | Throw (e : JSError).
Arguments Normal {A} a.
Arguments Throw {A} e.

(** The value an [async] function hands back: it never throws
    synchronously, the outcome is inside the promise. *)
Inductive promise (A : Type) : Type :=
  | Fulfilled (a : A)
  | Rejected (e : JSError).
Arguments Fulfilled {A} a.
Arguments Rejected {A} e.

(* ================================================================== *)
(** ** The state-and-exception monad *)

Definition M (S A : Type) : Type := S -> completion A * S.

Definition ret {S A} (a : A) : M S A := fun s => (Normal a, s).

Definition throw {S A} (e : JSError) : M S A := fun s => (Throw e, s).

Definition bind {S A B} (m : M S A) (k : A -> M S B) : M S B :=
  fun s =>
    match m s with
    | (Normal a, s') => k a s'
    | (Throw e, s') => (Throw e, s')
    end.

Definition gets {S A} (f : S -> A) : M S A := fun s => (Normal (f s), s).

Definition modify {S} (f : S -> S) : M S unit := fun s => (Normal tt, f s).

(** [try { body } catch (error) { handler }] *)
Definition try_catch {S A} (body : M S A) (handler : JSError -> M S A) : M S A :=
  fun s =>
    match body s with
    | (Normal a, s') => (Normal a, s')
    | (Throw e, s') => handler e s'
    end.

(** [try { body } finally { fin }] *)
Definition try_finally {S A} (body : M S A) (fin : M S unit) : M S A :=
  fun s =>
    let '(r, s') := body s in
    match fin s' with
    | (Normal _, s'') => (r, s'')
    | (Throw e, s'') => (Throw e, s'')
    end.

Notation "'let!' x ':=' m 'in' k" := (bind m (fun x => k))
  (at level 10, x name, m at level 100, k at level 200).
Notation "m ';;' k" := (bind m (fun _ => k))
  (at level 100, k at level 200, right associativity).

(** [array.map(f)] with a callback that may throw: left to right, the first
    exception aborts the traversal. *)
Fixpoint js_map {S A B} (f : A -> M S B) (l : list A) : M S (list B) :=
  match l with
  | [] => ret []
  | x :: l' =>
      let! y := f x in
      let! ys := js_map f l' in
      ret (y :: ys)
  end.

(** [array.filter(f)] with a callback that may throw. *)
Fixpoint js_filter {S A} (f : A -> M S bool) (l : list A) : M S (list A) :=
  match l with
  | [] => ret []
  | x :: l' =>
      let! b := f x in
      let! ys := js_filter f l' in
      ret (if b then x :: ys else ys)
  end.

(** [array.forEach(f)] *)
Fixpoint js_forEach {S A} (f : A -> M S unit) (l : list A) : M S unit :=
  match l with
  | [] => ret tt
  | x :: l' => f x ;; js_forEach f l'
  end.

(** The promise an [async] call leaves behind: an exception raised inside
    rejects the promise, it is not thrown at the caller. *)
Definition settle {S A} (m : M S A) : M S (promise A) :=
  fun s =>
    match m s with
    | (Normal a, s') => (Normal (Fulfilled a), s')
    | (Throw e, s') => (Normal (Rejected e), s')
    end.

(* ================================================================== *)
(** ** Data model *)

(** The unit of transport, as it travels on the wire. *)
Record Envelope : Type := {
  e_id : string;
  e_data : string;
  e_signature : string;
  e_publicKey : string
}.

#[global] Instance Envelope_eq_dec : EqDecision Envelope.
Proof. solve_decision. Defined.

(** The object [JSON.parse(post.data)] yields when it is an object; each
    field is whatever the sender put there. *)
Record PostData : Type := {
  pd_id : jsval;
  pd_text : jsval;
  pd_latitude : jsval;
  pd_longitude : jsval;
  pd_date : jsval;
  pd_parent : jsval
}.

#[global] Instance PostData_eq_dec : EqDecision PostData.
Proof. solve_decision. Defined.

(** Result of [JSON.parse] on an envelope's [data]: [DNull] is the value
    [null], on which every property access throws a [TypeError]; any other
    value behaves as an object (a primitive reads [undefined] in every
    field). *)
Inductive parsed : Type :=
  | DNull
  | DObject (pd : PostData).

#[global] Instance parsed_eq_dec : EqDecision parsed.
Proof. solve_decision. Defined.

(** [{...post, parsedData}] built by [fetchPosts], and
    [{...p.envelope, parsedData, isPending: true}] built by [loadPosts]. *)
Record Post : Type := {
  post_envelope : Envelope;
  parsedData : parsed;
  isPending : bool
}.

#[global] Instance Post_eq_dec : EqDecision Post.
Proof. solve_decision. Defined.

Definition post_id (p : Post) : string := e_id (post_envelope p).

Record PendingEntry : Type := {
  envelope : Envelope;
  timestamp : Z;
  attempts : nat
}.

#[global] Instance PendingEntry_eq_dec : EqDecision PendingEntry.
Proof. solve_decision. Defined.

(** [pending.attempts++] *)
Definition bump (p : PendingEntry) : PendingEntry :=
  {| envelope := envelope p; timestamp := timestamp p; attempts := S (attempts p) |}.

(* ================================================================== *)
(** ** The environment *)

(** What [fetch] followed by [response.json()] can come to. *)
Inductive HttpOutcome (B : Type) : Type :=
  | NetworkFailure
  | TimedOut
  | HttpResponse (response_ok : bool) (json : option B).
Arguments NetworkFailure {B}.
Arguments TimedOut {B}.
Arguments HttpResponse {B} response_ok json.

(** Body of an inbox response: [null] (reading [.ok] throws) or a value
    whose [ok] property reads as given. *)
Inductive InboxReply : Type :=
  | ReplyNull
  | ReplyObject (ok : jsval).

(** Body of an outbox response: an array of envelopes, or a value without
    [map] (calling [posts.map] throws). *)
Inductive OutboxReply : Type :=
  | NotAnArray
  | PostsArray (items : list Envelope).

Record Env : Type := {
  navigator_onLine : nat -> bool;
  fetch_inbox : nat -> string -> Envelope -> HttpOutcome InboxReply;
  fetch_outbox : nat -> string -> HttpOutcome OutboxReply;
  JSON_parse : string -> option parsed;
  Date_parse : string -> option Z;
  Date_now : nat -> Z;
  setItem_throws : nat -> bool
}.

Inductive Request : Type :=
  | ReqGet (url : string)
  | ReqPost (url : string) (body : Envelope).

Inductive Toast : Type :=
  | ToastError (message : string)
  | ToastSuccess (message : string)
  | ToastInfo (message : string).

(* ================================================================== *)
(** ** Program state *)

Record World : Type := {
  clock : nat;
  (* array objects *)
  heap : gmap nat (list Post);
  next_loc : nat;
  (* OpenHerdService *)
  defaultCow : string;
  discoveredCows : list string;
  cachedPosts : nat;
  pendingPosts : list PendingEntry;
  (* localStorage *)
  stored_cached : option (list Post);
  stored_pending : option (list PendingEntry);
  (* OpenHerdApp *)
  app_posts : nat;
  loading : bool;
  hasLocation : bool;
  (* observable effects *)
  requests : list Request;
  rendered : list (list Post);
  toasts : list Toast
}.

Definition set_clock (v : nat) (w : World) : World :=
  {| clock := v; heap := heap w; next_loc := next_loc w;
     defaultCow := defaultCow w; discoveredCows := discoveredCows w;
     cachedPosts := cachedPosts w; pendingPosts := pendingPosts w;
     stored_cached := stored_cached w; stored_pending := stored_pending w;
     app_posts := app_posts w; loading := loading w; hasLocation := hasLocation w;
     requests := requests w; rendered := rendered w; toasts := toasts w |}.

Definition set_heap (v : gmap nat (list Post)) (w : World) : World :=
  {| clock := clock w; heap := v; next_loc := next_loc w;
     defaultCow := defaultCow w; discoveredCows := discoveredCows w;
     cachedPosts := cachedPosts w; pendingPosts := pendingPosts w;
     stored_cached := stored_cached w; stored_pending := stored_pending w;
     app_posts := app_posts w; loading := loading w; hasLocation := hasLocation w;
     requests := requests w; rendered := rendered w; toasts := toasts w |}.

Definition set_next_loc (v : nat) (w : World) : World :=
  {| clock := clock w; heap := heap w; next_loc := v;
     defaultCow := defaultCow w; discoveredCows := discoveredCows w;
     cachedPosts := cachedPosts w; pendingPosts := pendingPosts w;
     stored_cached := stored_cached w; stored_pending := stored_pending w;
     app_posts := app_posts w; loading := loading w; hasLocation := hasLocation w;
     requests := requests w; rendered := rendered w; toasts := toasts w |}.

Definition set_cachedPosts (v : nat) (w : World) : World :=
  {| clock := clock w; heap := heap w; next_loc := next_loc w;
     defaultCow := defaultCow w; discoveredCows := discoveredCows w;
     cachedPosts := v; pendingPosts := pendingPosts w;
     stored_cached := stored_cached w; stored_pending := stored_pending w;
     app_posts := app_posts w; loading := loading w; hasLocation := hasLocation w;
     requests := requests w; rendered := rendered w; toasts := toasts w |}.

Definition set_pendingPosts (v : list PendingEntry) (w : World) : World :=
  {| clock := clock w; heap := heap w; next_loc := next_loc w;
     defaultCow := defaultCow w; discoveredCows := discoveredCows w;
     cachedPosts := cachedPosts w; pendingPosts := v;
     stored_cached := stored_cached w; stored_pending := stored_pending w;
     app_posts := app_posts w; loading := loading w; hasLocation := hasLocation w;
     requests := requests w; rendered := rendered w; toasts := toasts w |}.

Definition set_stored_cached (v : option (list Post)) (w : World) : World :=
  {| clock := clock w; heap := heap w; next_loc := next_loc w;
     defaultCow := defaultCow w; discoveredCows := discoveredCows w;
     cachedPosts := cachedPosts w; pendingPosts := pendingPosts w;
     stored_cached := v; stored_pending := stored_pending w;
     app_posts := app_posts w; loading := loading w; hasLocation := hasLocation w;
     requests := requests w; rendered := rendered w; toasts := toasts w |}.

Definition set_stored_pending (v : option (list PendingEntry)) (w : World) : World :=
  {| clock := clock w; heap := heap w; next_loc := next_loc w;
     defaultCow := defaultCow w; discoveredCows := discoveredCows w;
     cachedPosts := cachedPosts w; pendingPosts := pendingPosts w;
     stored_cached := stored_cached w; stored_pending := v;
     app_posts := app_posts w; loading := loading w; hasLocation := hasLocation w;
     requests := requests w; rendered := rendered w; toasts := toasts w |}.

Definition set_app_posts (v : nat) (w : World) : World :=
  {| clock := clock w; heap := heap w; next_loc := next_loc w;
     defaultCow := defaultCow w; discoveredCows := discoveredCows w;
     cachedPosts := cachedPosts w; pendingPosts := pendingPosts w;
     stored_cached := stored_cached w; stored_pending := stored_pending w;
     app_posts := v; loading := loading w; hasLocation := hasLocation w;
     requests := requests w; rendered := rendered w; toasts := toasts w |}.

Definition set_loading (v : bool) (w : World) : World :=
  {| clock := clock w; heap := heap w; next_loc := next_loc w;
     defaultCow := defaultCow w; discoveredCows := discoveredCows w;
     cachedPosts := cachedPosts w; pendingPosts := pendingPosts w;
     stored_cached := stored_cached w; stored_pending := stored_pending w;
     app_posts := app_posts w; loading := v; hasLocation := hasLocation w;
     requests := requests w; rendered := rendered w; toasts := toasts w |}.

Definition set_requests (v : list Request) (w : World) : World :=
  {| clock := clock w; heap := heap w; next_loc := next_loc w;
     defaultCow := defaultCow w; discoveredCows := discoveredCows w;
     cachedPosts := cachedPosts w; pendingPosts := pendingPosts w;
     stored_cached := stored_cached w; stored_pending := stored_pending w;
     app_posts := app_posts w; loading := loading w; hasLocation := hasLocation w;
     requests := v; rendered := rendered w; toasts := toasts w |}.

Definition set_rendered (v : list (list Post)) (w : World) : World :=
  {| clock := clock w; heap := heap w; next_loc := next_loc w;
     defaultCow := defaultCow w; discoveredCows := discoveredCows w;
     cachedPosts := cachedPosts w; pendingPosts := pendingPosts w;
     stored_cached := stored_cached w; stored_pending := stored_pending w;
     app_posts := app_posts w; loading := loading w; hasLocation := hasLocation w;
     requests := requests w; rendered := v; toasts := toasts w |}.

Definition set_toasts (v : list Toast) (w : World) : World :=
  {| clock := clock w; heap := heap w; next_loc := next_loc w;
     defaultCow := defaultCow w; discoveredCows := discoveredCows w;
     cachedPosts := cachedPosts w; pendingPosts := pendingPosts w;
     stored_cached := stored_cached w; stored_pending := stored_pending w;
     app_posts := app_posts w; loading := loading w; hasLocation := hasLocation w;
     requests := requests w; rendered := rendered w; toasts := v |}.

(** Time passes: the pending asynchronous operation completes. *)
Definition tick : M World unit := modify (fun w => set_clock (S (clock w)) w).

(** Contents of the array object at a location. *)
Definition array_at (l : nat) (w : World) : list Post := default [] (heap w !! l).

(** A new array object. *)
Definition alloc (posts : list Post) : M World nat :=
  fun w =>
    (Normal (next_loc w),
     set_next_loc (S (next_loc w)) (set_heap (<[next_loc w := posts]> (heap w)) w)).

(** In-place overwrite of an array object. *)
Definition store (l : nat) (posts : list Post) : M World unit :=
  modify (fun w => set_heap (<[l := posts]> (heap w)) w).

(* ================================================================== *)
(** ** OpenHerdService (src/js/openherd.js) *)

Section Service.

Variable env : Env.

(** [localStorage.setItem('openherd-cached-posts', JSON.stringify(v))] *)
Definition setItem_cached (v : list Post) : M World unit :=
  fun w =>
    if setItem_throws env (clock w) then (Throw QuotaExceededError, w)
    else (Normal tt, set_stored_cached (Some v) w).

(** [localStorage.setItem('openherd-pending-posts', JSON.stringify(v))] *)
Definition setItem_pending (v : list PendingEntry) : M World unit :=
  fun w =>
    if setItem_throws env (clock w) then (Throw QuotaExceededError, w)
    else (Normal tt, set_stored_pending (Some v) w).

(** openherd.js:55-64.  [posts] is the location of the array passed in;
    [slice] makes a new array object. *)
Definition saveCachedPosts (posts : nat) : M World unit :=
  try_catch
    (let! src := gets (array_at posts) in
     let! postsToCache := alloc (take 100 src) in
     setItem_cached (take 100 src) ;;
     modify (set_cachedPosts postsToCache))
    (fun _ => ret tt).

(** openherd.js:81-88 *)
Definition savePendingPosts (posts : list PendingEntry) : M World unit :=
  try_catch
    (setItem_pending posts ;;
     modify (set_pendingPosts posts))
    (fun _ => ret tt).

(** openherd.js:91-98 *)
Definition addPendingPost (e : Envelope) : M World unit :=
  let! now := gets (fun w => Date_now env (clock w)) in
  modify (fun w =>
    set_pendingPosts
      (pendingPosts w ++ [{| envelope := e; timestamp := now; attempts := 0 |}]) w) ;;
  let! q := gets pendingPosts in
  savePendingPosts q.

(** openherd.js:101-103 *)
Definition isOnline : M World bool :=
  gets (fun w => navigator_onLine env (clock w)).

(** [cowUrl || this.settings.defaultCow]: [None] is [null]; the empty
    string is falsy as well. *)
Definition or_defaultCow (cowUrl : option string) (dflt : string) : string :=
  match cowUrl with
  | Some u => if String.eqb u "" then dflt else u
  | None => dflt
  end.

(** openherd.js:236-258.  The outcome of the request is the one the peer
    gives at the instant of the call. *)
Definition submitPost (e : Envelope) (cowUrl : option string) : M World jsval :=
  let! dflt := gets defaultCow in
  let url := or_defaultCow cowUrl dflt in
  try_catch
    (let! t := gets clock in
     modify (fun w => set_requests (requests w ++ [ReqPost url e]) w) ;;
     match fetch_inbox env t url e with
     | NetworkFailure => throw NetworkError
     | TimedOut => throw TimeoutError
     | HttpResponse response_ok json =>
         if negb response_ok then throw HttpError
         else
           match json with
           | None => throw SyntaxError
           | Some ReplyNull => throw TypeError
           | Some (ReplyObject ok) => ret ok
           end
     end)
    (fun _ => ret (JBool false)).

(** [await p]: the caller is suspended and time passes before it goes on. *)
Definition await {A} (m : M World A) : M World A :=
  let! r := m in
  tick ;;
  ret r.

(** [Promise.allSettled(ps)]: every promise is settled, none cancels
    another. *)
Definition Promise_allSettled {A} (ps : list (M World A)) : M World (list (promise A)) :=
  js_map settle ps.

(** [Promise.all(ps)]: rejected with the first rejection, if any. *)
Definition Promise_all {A} (ps : list (M World A)) : M World (list A) :=
  let! results := js_map settle ps in
  js_map (fun r => match r with Fulfilled a => ret a | Rejected e => throw e end) results.

(** [r.status === 'fulfilled' && r.value] *)
Definition fulfilled_and_truthy (r : promise jsval) : bool :=
  match r with
  | Fulfilled v => truthy v
  | Rejected _ => false
  end.

(** openherd.js:261-283 *)
Definition broadcastPost (e : Envelope) (saveAsPending : bool) : M World nat :=
  let! online := isOnline in
  if negb online then
    (if saveAsPending then addPendingPost e else ret tt) ;;
    ret 0
  else
    let! dflt := gets defaultCow in
    let! discovered := gets discoveredCows in
    let cows := dflt :: discovered in
    let! results :=
      await (Promise_allSettled (map (fun cow => submitPost e (Some cow)) cows)) in
    let successCount := length (List.filter fulfilled_and_truthy results) in
    (if Nat.eqb successCount 0 && saveAsPending then addPendingPost e else ret tt) ;;
    ret successCount.

(** One element of [results] in [syncPendingPosts]:
    [{success: true, count}] or [{success: false}]. *)
Record SyncOutcome : Type := {
  o_success : bool;
  o_count : option nat
}.

Record SyncResult : Type := {
  success : nat;
  failed : nat
}.

(** The [for (const pending of this.pendingPosts)] loop, openherd.js:299-312.
    [i] is the index of [pending] in [this.pendingPosts]: the entry object
    is shared with that array, so [pending.attempts++] shows there too.
    [broadcastPost(_, false)] never touches the array, so iterating over
    the elements it had when the loop started is iterating over it. *)
Fixpoint sync_loop (i : nat) (queue : list PendingEntry)
    (results : list SyncOutcome) (failedPosts : list PendingEntry)
    : M World (list SyncOutcome * list PendingEntry) :=
  match queue with
  | [] => ret (results, failedPosts)
  | pending0 :: rest =>
      let pending := bump pending0 in
      modify (fun w => set_pendingPosts (<[i := pending]> (pendingPosts w)) w) ;;
      let! count := await (broadcastPost (envelope pending) false) in
      if Nat.ltb 0 count then
        sync_loop (S i) rest
          (results ++ [{| o_success := true; o_count := Some count |}]) failedPosts
      else
        sync_loop (S i) rest
          (results ++ [{| o_success := false; o_count := None |}])
          (if Nat.ltb (attempts pending) 5 then failedPosts ++ [pending] else failedPosts)
  end.

(** openherd.js:286-322 *)
Definition syncPendingPosts : M World SyncResult :=
  let! queue := gets pendingPosts in
  if Nat.eqb (length queue) 0 then ret {| success := 0; failed := 0 |}
  else
    let! online := isOnline in
    if negb online then ret {| success := 0; failed := length queue |}
    else
      let! looped := sync_loop 0 queue [] [] in
      let results := fst looped in
      let failedPosts := snd looped in
      modify (set_pendingPosts failedPosts) ;;
      let! q := gets pendingPosts in
      savePendingPosts q ;;
      let successCount := length (List.filter (fun r => o_success r) results) in
      let failedCount := length (List.filter (fun r => negb (o_success r)) results) in
      ret {| success := successCount; failed := failedCount |}.

(** openherd.js:206-233 *)
Definition fetchPosts (cowUrl : option string) : M World (list Post) :=
  let! dflt := gets defaultCow in
  let url := or_defaultCow cowUrl dflt in
  try_catch
    (let! t := gets clock in
     modify (fun w => set_requests (requests w ++ [ReqGet url]) w) ;;
     match fetch_outbox env t url with
     | NetworkFailure => throw NetworkError
     | TimedOut => throw TimeoutError
     | HttpResponse response_ok json =>
         if negb response_ok then throw HttpError
         else
           match json with
           | None => throw SyntaxError
           | Some NotAnArray => throw TypeError
           | Some (PostsArray posts) =>
               js_map
                 (fun post =>
                    match JSON_parse env (e_data post) with
                    | Some d =>
                        ret {| post_envelope := post; parsedData := d; isPending := false |}
                    | None => throw SyntaxError
                    end)
                 posts
           end
     end)
    (fun _ => ret []).

(** openherd.js:325-327: an [async] function, the filtered array is inside
    the promise. *)
Definition getReplies {S} (postId : jsval) (posts : list Post) : M S (promise (list Post)) :=
  settle
    (js_filter
       (fun post =>
          match parsedData post with
          | DNull => throw TypeError
          | DObject data => ret (strict_eq (pd_parent data) postId)
          end)
       posts).

(** openherd.js:339-341 *)
Definition getRootPosts {S} (posts : list Post) : M S (list Post) :=
  js_filter
    (fun post =>
       match parsedData post with
       | DNull => throw TypeError
       | DObject data =>
           ret (negb (truthy (pd_parent data)) || strict_eq (pd_parent data) JNull)
       end)
    posts.

(** [TimeClip] of ECMAScript: time values beyond 8.64e15 ms are invalid. *)
Definition TimeClip (n : Z) : option Z :=
  if (Z.abs n <=? 8640000000000000)%Z then Some n else None.

(** Time value of [new Date(v)]; [None] is [NaN] (an invalid date). *)
Definition Date_new (v : jsval) : option Z :=
  match v with
  | JUndefined => None
  | JNull => Some 0%Z
  | JBool b => Some (if b then 1%Z else 0%Z)
  | JNum n => TimeClip n
  | JStr s => Date_parse env s
  end.

Definition post_time (p : Post) : option Z :=
  match parsedData p with
  | DObject data => Date_new (pd_date data)
  | DNull => None
  end.

(** The comparator of [sortByDate], [dateB - dateA], as [Array.prototype.sort]
    reads it: a [NaN] result counts as [+0]. *)
Definition SortCompare (a b : Post) : Z :=
  match post_time b, post_time a with
  | Some dateB, Some dateA => (dateB - dateA)%Z
  | _, _ => 0%Z
  end.

(** [Array.prototype.sort] is stable: an element goes before the first
    element it does not have to follow.  When every date is valid the
    comparator is consistent and this is the order any conforming engine
    gives; with an invalid date among them the language fixes the elements
    of the result only, not their order. *)
Fixpoint insert_sorted (p : Post) (l : list Post) : list Post :=
  match l with
  | [] => [p]
  | q :: l' => if (SortCompare p q <=? 0)%Z then p :: q :: l' else q :: insert_sorted p l'
  end.

Definition stable_sort (l : list Post) : list Post := foldr insert_sorted [] l.

(** openherd.js:330-336.  [posts] is the location of the array; the sort is
    in place and the same location is returned.  The comparator is not
    called on fewer than two elements; otherwise every element is compared
    at least once, and reading [parsedData.date] of a [null] throws.  An
    exception leaves the array as it was. *)
Definition sortByDate (posts : nat) : M World nat :=
  let! arr := gets (array_at posts) in
  if Nat.ltb (length arr) 2 then ret posts
  else if existsb (fun p => bool_decide (parsedData p = DNull)) arr then throw TypeError
  else
    store posts (stable_sort arr) ;;
    ret posts.

End Service.

(* ================================================================== *)
(** ** OpenHerdApp (src/js/app.js, first part) *)

(** The [Map] of app.js:166-168 keeps its keys in insertion order; setting
    a key that is present replaces the value where it stands. *)
Fixpoint Map_set (k : string) (v : Post) (m : list (string * Post)) : list (string * Post) :=
  match m with
  | [] => [(k, v)]
  | (k', v') :: m' =>
      if String.eqb k' k then (k', v) :: m' else (k', v') :: Map_set k v m'
  end.

(** [new Map(entries)] *)
Definition Map_new (entries : list (string * Post)) : list (string * Post) :=
  foldl (fun m kv => Map_set (fst kv) (snd kv) m) [] entries.

(** [Array.from(map.values())] *)
Definition Map_values (m : list (string * Post)) : list Post := map snd m.

(** app.js:166-168:
    [Array.from(new Map(posts.map(post => [post.id, post])).values())] *)
Definition uniquePosts (posts : list Post) : list Post :=
  Map_values (Map_new (map (fun post => (post_id post, post)) posts)).

Section App.

Variable env : Env.

(** app.js:225-267, as far as it can throw.  The page elements the code
    looks up are taken to exist; the markup itself is not modelled. *)
Definition renderPost (posts : list Post) (post : Post) : M World unit :=
  match parsedData post with
  | DNull => throw TypeError
  | DObject data =>
      let! replies := getReplies (pd_id data) posts in
      match pd_id data with
      | JStr _ =>
          let! located := gets hasLocation in
          if located then ret tt
          else
            match pd_latitude data, pd_longitude data with
            | JNum _, JNum _ => ret tt
            | _, _ => throw TypeError
            end
      | _ => throw TypeError
      end
  end.

(** app.js:204-223; what is put on the page is recorded in [rendered]. *)
Definition renderPosts : M World unit :=
  let! l := gets app_posts in
  let! posts := gets (array_at l) in
  if Nat.eqb (length posts) 0 then
    modify (fun w => set_rendered (rendered w ++ [[]]) w)
  else
    let! rootPosts := getRootPosts posts in
    js_forEach (renderPost posts) rootPosts ;;
    modify (fun w => set_rendered (rendered w ++ [rootPosts]) w).

(** app.js:301-303 *)
Definition showError (message : string) : M World unit :=
  modify (fun w => set_toasts (toasts w ++ [ToastError message]) w).

(** app.js:461-476: touches the page only. *)
Definition updateSyncStatus : M World unit := ret tt.

(** app.js:183-187 *)
Definition pendingPostForDisplay (p : PendingEntry) : M World Post :=
  match JSON_parse env (e_data (envelope p)) with
  | Some d => ret {| post_envelope := envelope p; parsedData := d; isPending := true |}
  | None => throw SyntaxError
  end.

(** app.js:155-163: what the primary and the discovered peers serve. *)
Definition loadPosts_download : M World (list Post) :=
  let! posts := await (fetchPosts env None) in
  let! discovered := gets discoveredCows in
  if Nat.ltb 0 (length discovered) then
    let! discoveredPosts :=
      await (Promise_all (map (fun cow => fetchPosts env (Some cow)) discovered)) in
    ret (posts ++ concat discoveredPosts)
  else ret posts.

(** [this.posts = openherd.sortByDate(openherd.cachedPosts)],
    app.js:175, 178 and 196. *)
Definition loadPosts_from_cache : M World unit :=
  let! cached := gets cachedPosts in
  let! sorted := sortByDate env cached in
  modify (set_app_posts sorted).

(** app.js:153-179 *)
Definition loadPosts_fetch : M World unit :=
  let! online := isOnline env in
  if online then
    let! posts := loadPosts_download in
    let! unique := alloc (uniquePosts posts) in
    if Nat.ltb 0 (length (uniquePosts posts)) then
      saveCachedPosts env unique ;;
      let! sorted := sortByDate env unique in
      modify (set_app_posts sorted)
    else loadPosts_from_cache
  else loadPosts_from_cache.

(** app.js:182-189 *)
Definition loadPosts_pending : M World unit :=
  let! pending := gets pendingPosts in
  if Nat.ltb 0 (length pending) then
    let! pendingPostsForDisplay := js_map pendingPostForDisplay pending in
    let! current := gets (fun w => array_at (app_posts w) w) in
    let! combined := alloc (pendingPostsForDisplay ++ current) in
    let! sorted := sortByDate env combined in
    modify (set_app_posts sorted)
  else ret tt.

(** app.js:193-198: the [catch] clause. *)
Definition loadPosts_catch : M World unit :=
  loadPosts_from_cache ;;
  renderPosts ;;
  showError "Failed to load posts. Showing cached content.".

(** app.js:144-202 *)
Definition loadPosts : M World unit :=
  let! busy := gets loading in
  if busy then ret tt
  else
    modify (set_loading true) ;;
    try_finally
      (try_catch
         (loadPosts_fetch ;;
          loadPosts_pending ;;
          renderPosts ;;
          updateSyncStatus)
         (fun _ => loadPosts_catch))
      (modify (set_loading false)).

End App.

(* ================================================================== *)
(** ** DiscoveryService (src/js/app.js, third part) *)

Module Discovery.

(** A record of [result.services].  A missing [hosts] reads as the empty
    list, a missing [port] as [0], a missing [txt] as the empty object. *)
Record MdnsService : Type := {
  s_name : string;
  s_hosts : list string;
  s_host : string;
  s_port : Z;
  s_txt : list (string * string)
}.

Record Cow : Type := {
  name : string;
  url : string;
  host : string;
  port : Z;
  txt : list (string * string)
}.

(** What [await mDNS.discover(...)] comes to: the plugin call rejects, or
    gives [{error, services}]. *)
Inductive MdnsOutcome : Type :=
  | ScanRejected
  | ScanResult (error : bool) (services : option (list MdnsService)).

(** A subscriber: the callback is identified by [l_id]; [l_throws cows]
    tells whether it throws when called with [cows]. *)
Record Listener : Type := {
  l_id : nat;
  l_throws : list Cow -> bool
}.

Record State : Type := {
  discoveredCows : list Cow;
  isDiscovering : bool;
  listeners : list Listener;
  (* observable effect: the calls made to subscribers, oldest first *)
  notifications : list (nat * list Cow)
}.

Definition set_discoveredCows (v : list Cow) (s : State) : State :=
  {| discoveredCows := v; isDiscovering := isDiscovering s;
     listeners := listeners s; notifications := notifications s |}.

Definition set_isDiscovering (v : bool) (s : State) : State :=
  {| discoveredCows := discoveredCows s; isDiscovering := v;
     listeners := listeners s; notifications := notifications s |}.

Definition set_listeners (v : list Listener) (s : State) : State :=
  {| discoveredCows := discoveredCows s; isDiscovering := isDiscovering s;
     listeners := v; notifications := notifications s |}.

Definition set_notifications (v : list (nat * list Cow)) (s : State) : State :=
  {| discoveredCows := discoveredCows s; isDiscovering := isDiscovering s;
     listeners := listeners s; notifications := v |}.

(** The callback of [result.services.map], app.js:518-531. *)
Definition cow_of_service (service : MdnsService) : Cow :=
  let host :=
    match s_hosts service with
    | h :: _ => h
    | [] => s_host service
    end in
  let port := if (s_port service =? 0)%Z then 3000%Z else s_port service in
  {| name := s_name service;
     url := "http://" +:+ host +:+ ":" +:+ pretty port;
     host := host;
     port := port;
     txt := s_txt service |}.

(** A call [listener(cows)]. *)
Definition call_listener (cows : list Cow) (l : Listener) : M State unit :=
  modify (fun s => set_notifications (notifications s ++ [(l_id l, cows)]) s) ;;
  if l_throws l cows then throw ListenerError else ret tt.

(** app.js:560-562 *)
Definition notifyListeners (cows : list Cow) : M State unit :=
  let! ls := gets listeners in
  js_forEach (call_listener cows) ls.

(** app.js:550-552 *)
Definition addListener (callback : Listener) : M State unit :=
  modify (fun s => set_listeners (listeners s ++ [callback]) s).

(** app.js:545-547 *)
Definition getDiscoveredCows : M State (list Cow) := gets discoveredCows.

Section Discover.

(** [Capacitor.isNativePlatform()] and the outcome of the scan. *)
Variable isNativePlatform : bool.
Variable mDNS_discover : MdnsOutcome.

(** app.js:494-542 *)
Definition discover : M State (list Cow) :=
  if negb isNativePlatform then ret []
  else
    try_finally
      (try_catch
         (modify (set_isDiscovering true) ;;
          match mDNS_discover with
          | ScanRejected => throw NetworkError
          | ScanResult error services =>
              if error then ret []
              else
                match services with
                | None => ret []
                | Some svcs =>
                    if Nat.eqb (length svcs) 0 then ret []
                    else
                      modify (set_discoveredCows (map cow_of_service svcs)) ;;
                      let! cows := gets discoveredCows in
                      notifyListeners cows ;;
                      gets discoveredCows
                end
          end)
         (fun _ => ret []))
      (modify (set_isDiscovering false)).

End Discover.

End Discovery.

(* ================================================================== *)
(** * Vocabulary of the statements *)

Section Vocabulary.

Variable env : Env.

(** The entry [addPendingPost] creates in world [w]. *)
Definition new_entry (e : Envelope) (w : World) : PendingEntry :=
  {| envelope := e; timestamp := Date_now env (clock w); attempts := 0 |}.

(** What [localStorage] holds for the queue after a save attempted in [w]. *)
Definition stored_pending_after (q : list PendingEntry) (w : World) : option (list PendingEntry) :=
  if setItem_throws env (clock w) then stored_pending w else Some q.

(** The fan-out targets of [broadcastPost]: the primary, then the
    discovered peers. *)
Definition targets (w : World) : list string := defaultCow w :: discoveredCows w.

(** The URL [submitPost] and [fetchPosts] address for target [cow]. *)
Definition url_of (w : World) (cow : string) : string :=
  or_defaultCow (Some cow) (defaultCow w).

(** What target [cow] answers to a submission of [e] made in [w]. *)
Definition inbox_outcome (e : Envelope) (w : World) (cow : string) : HttpOutcome InboxReply :=
  fetch_inbox env (clock w) (url_of w cow) e.

(** The value [submitPost] resolves to on a given outcome. *)
Definition submission_value (o : HttpOutcome InboxReply) : jsval :=
  match o with
  | HttpResponse true (Some (ReplyObject ok)) => ok
  | _ => JBool false
  end.

(** The submission got a 2xx answer whose body says [ok: true]. *)
Definition returned_ok_true (o : HttpOutcome InboxReply) : bool :=
  match o with
  | HttpResponse true (Some (ReplyObject (JBool true))) => true
  | _ => false
  end.

(** The wire protocol: the body of an inbox answer is [{ok: bool}]. *)
Definition ok_is_boolean (o : HttpOutcome InboxReply) : Prop :=
  match o with
  | HttpResponse true (Some (ReplyObject ok)) => exists b, ok = JBool b
  | _ => True
  end.

(** The number of targets whose submission resolved to a truthy value. *)
Definition accepted_count (e : Envelope) (w : World) : nat :=
  length (List.filter (fun cow => truthy (submission_value (inbox_outcome e w cow)))
            (targets w)).

(** The requests one fan-out of [e] issues. *)
Definition fanout_requests (e : Envelope) (w : World) : list Request :=
  map (fun cow => ReqPost (url_of w cow) e) (targets w).

(** The state when the fan-out of [e] started in [w] has been awaited. *)
Definition after_fanout (e : Envelope) (w : World) : World :=
  set_clock (S (clock w)) (set_requests (requests w ++ fanout_requests e w) w).

(** The state after [addPendingPost e] run in [w]. *)
Definition after_enqueue (e : Envelope) (w : World) : World :=
  set_pendingPosts (pendingPosts w ++ [new_entry e w])
    (set_stored_pending (stored_pending_after (pendingPosts w ++ [new_entry e w]) w) w).

(** One retry of a queue entry, seen from outside: either nothing was sent
    and nobody was reached (connectivity had gone), or the entry's envelope
    was submitted to every target. *)
Definition retry_round (w : World) (p : PendingEntry) (r : nat * list Request) : Prop :=
  (fst r = 0 /\ snd r = []) \/
  (snd r = map (fun cow => ReqPost (url_of w cow) (envelope p)) (targets w) /\
   fst r <= length (targets w)).

(** An entry is kept for a later pass when its retry reached nobody and,
    counting this retry, it has been tried fewer than 5 times. *)
Definition kept (pr : PendingEntry * (nat * list Request)) : bool :=
  Nat.eqb (fst (snd pr)) 0 && Nat.ltb (S (attempts (fst pr))) 5.

Definition survivors (queue : list PendingEntry) (rounds : list (nat * list Request))
    : list PendingEntry :=
  map (fun pr => bump (fst pr)) (List.filter kept (zip queue rounds)).

(** No entry of the queue has used up its 5 attempts. *)
Definition within_budget (w : World) : Prop :=
  Forall (fun p => attempts p < 5) (pendingPosts w).

(** The element of [results] that [syncPendingPosts] records for a retry
    which reached [fst r] targets. *)
Definition outcome_of (r : nat * list Request) : SyncOutcome :=
  if Nat.ltb 0 (fst r) then {| o_success := true; o_count := Some (fst r) |}
  else {| o_success := false; o_count := None |}.

(** A post with a valid date. *)
Definition dated (p : Post) : Prop := is_Some (post_time env p).

(** [a] is not older than [b]. *)
Definition newest_first (a b : Post) : Prop :=
  exists dateA dateB,
    post_time env a = Some dateA /\ post_time env b = Some dateB /\ (dateB <= dateA)%Z.

(** [m] keeps the property [I] of the state, however it completes. *)
Definition preserves {A} (I : World -> Prop) (m : M World A) : Prop :=
  forall w r w', I w -> m w = (r, w') -> I w'.

(** The cache seen from outside: the array object [c] that
    [this.cachedPosts] refers to, a property [P] of its contents, and the
    snapshot [sc] kept in [localStorage].  Locations in use lie below
    [next_loc]. *)
Definition cache_inv (P : list Post -> Prop) (c : nat) (sc : option (list Post))
    (w : World) : Prop :=
  cachedPosts w = c /\ c < next_loc w /\ P (array_at c w) /\ stored_cached w = sc.

(** The envelopes of a batch, parsed; [None] when one of them does not
    parse. *)
Fixpoint parse_batch (items : list Envelope) : option (list Post) :=
  match items with
  | [] => Some []
  | post :: items' =>
      match JSON_parse env (e_data post), parse_batch items' with
      | Some d, Some posts =>
          Some ({| post_envelope := post; parsedData := d; isPending := false |} :: posts)
      | _, _ => None
      end
  end.

(** What [fetchPosts] makes of the answer the peer at [url] gives at
    instant [t]: the parsed batch, or nothing on any error. *)
Definition fetched (t : nat) (url : string) : list Post :=
  match fetch_outbox env t url with
  | HttpResponse true (Some (PostsArray items)) => default [] (parse_batch items)
  | _ => []
  end.

(** Everything [loadPosts] downloads when started in [w]: the primary is
    asked first, the discovered peers together after its answer. *)
Definition fetched_all (w : World) : list Post :=
  fetched (clock w) (defaultCow w) ++
  concat (map (fun cow => fetched (S (clock w)) (url_of w cow)) (discoveredCows w)).

(** The state when the downloads started in [w] are over. *)
Definition after_download (w : World) : World :=
  set_clock
    (if Nat.ltb 0 (length (discoveredCows w)) then S (S (clock w)) else S (clock w))
    (set_requests
       (requests w ++ ReqGet (defaultCow w) ::
          map (fun cow => ReqGet (url_of w cow)) (discoveredCows w)) w).

(** Neither the cache in memory nor the snapshot in [localStorage] holds
    more than 100 posts. *)
Definition cache_bounded (w : World) : Prop :=
  length (array_at (cachedPosts w) w) <= 100 /\
  match stored_cached w with
  | Some snapshot => length snapshot <= 100
  | None => True
  end.

(** [loadPosts], started in [w], replaces the cache: it is not already
    running, the device is online, the deduplicated download is not empty
    and [localStorage] takes the snapshot. *)
Definition replaces_cache (w : World) : bool :=
  negb (loading w) && navigator_onLine env (clock w) &&
  Nat.ltb 0 (length (uniquePosts (fetched_all w))) &&
  negb (setItem_throws env (clock (after_download w))).

(** Post data that [sortByDate] and [renderPost] take without throwing:
    an object whose [id] is a string and whose coordinates are numbers. *)
Definition well_formed_data (d : parsed) : Prop :=
  match d with
  | DObject data =>
      (exists i, pd_id data = JStr i) /\
      (exists lat, pd_latitude data = JNum lat) /\
      (exists lon, pd_longitude data = JNum lon)
  | DNull => False
  end.

Definition displayable (p : Post) : Prop := well_formed_data (parsedData p).

(** Whatever [JSON.parse] accepts is well-formed post data. *)
Definition parses_to_post_data : Prop :=
  forall s d, JSON_parse env s = Some d -> well_formed_data d.

(** The pending entries made ready for display (app.js:183-187); [None]
    when the [data] of one of them does not parse. *)
Fixpoint parse_pending (pending : list PendingEntry) : option (list Post) :=
  match pending with
  | [] => Some []
  | p :: pending' =>
      match JSON_parse env (e_data (envelope p)), parse_pending pending' with
      | Some d, Some posts =>
          Some ({| post_envelope := envelope p; parsedData := d; isPending := true |} :: posts)
      | _, _ => None
      end
  end.

(** The feed before the pending entries are merged in: the deduplicated
    download sorted, or the cache sorted when nothing was downloaded. *)
Definition feed_base (w : World) : list Post :=
  if Nat.ltb 0 (length (uniquePosts (fetched_all w)))
  then stable_sort env (uniquePosts (fetched_all w))
  else stable_sort env (array_at (cachedPosts w) w).

(** The contents of the cache when [loadPosts_fetch], run online, is over. *)
Definition cache_after_fetch (w : World) : list Post :=
  if Nat.ltb 0 (length (uniquePosts (fetched_all w))) then
    if setItem_throws env (clock (after_download w))
    then array_at (cachedPosts w) w
    else take 100 (uniquePosts (fetched_all w))
  else stable_sort env (array_at (cachedPosts w) w).

(** A target serves its feed: a 2xx answer carrying an array of envelopes
    whose [data] all parse. *)
Definition serves_feed (o : HttpOutcome OutboxReply) : Prop :=
  exists items posts,
    o = HttpResponse true (Some (PostsArray items)) /\ parse_batch items = Some posts.

(** Some target of the download started in [w] does not serve its feed: a
    fetch error or a parsing error. *)
Definition fetch_or_parse_error (w : World) : Prop :=
  ~ serves_feed (fetch_outbox env (clock w) (defaultCow w)) \/
  exists cow, In cow (discoveredCows w) /\
    ~ serves_feed (fetch_outbox env (S (clock w)) (url_of w cow)).

(** The specification's sentence on feed loading: on any fetch or parsing
    error [loadPosts] does not throw, shows the sorted cache and signals
    the degraded condition. *)
Definition fetch_error_falls_back_and_signals : Prop :=
  forall w r w',
    loading w = false ->
    navigator_onLine env (clock w) = true ->
    fetch_or_parse_error w ->
    loadPosts env w = (r, w') ->
    r = Normal tt /\
    array_at (app_posts w') w' = stable_sort env (array_at (cachedPosts w) w) /\
    toasts w' <> toasts w.

(** The [parent] field a post carries ([undefined] when there is no
    object to read it from). *)
Definition parent_of (p : Post) : jsval :=
  match parsedData p with
  | DObject data => pd_parent data
  | DNull => JUndefined
  end.

(** [parent] as the data model types it, [optional<id>]: absent, null, or
    a fingerprint, which is a non-empty string. *)
Definition parent_typed (p : Post) : Prop :=
  parsedData p <> DNull /\
  (parent_of p = JUndefined \/ parent_of p = JNull \/
   exists s, parent_of p = JStr s /\ s <> "").

Definition parent_absent_or_null (p : Post) : bool :=
  bool_decide (parent_of p = JUndefined) || bool_decide (parent_of p = JNull).

Definition parent_equals (x : string) (p : Post) : bool :=
  bool_decide (parent_of p = JStr x).

End Vocabulary.


(** *** Discovery *)

(** The services a scan brought back: none when the platform is not
    native, when the scan is rejected, reports an error or lists nothing. *)
Definition scan_found (native : bool) (scan : Discovery.MdnsOutcome)
    : list Discovery.MdnsService :=
  if native then
    match scan with
    | Discovery.ScanResult false (Some svcs) => svcs
    | _ => []
    end
  else [].

(** The subscribers [notifyListeners] gets to call: all of them, or those
    up to the first that throws. *)
Fixpoint notified (cows : list Discovery.Cow) (ls : list Discovery.Listener)
    : list Discovery.Listener :=
  match ls with
  | [] => []
  | l :: ls' => l :: (if Discovery.l_throws l cows then [] else notified cows ls')
  end.

(** The specification's sentence on [discover()], read for every scan that
    completes: the known-peer set becomes the scan's result, which is also
    what is returned, and every subscriber is called with it. *)
Definition discover_always_replaces_and_notifies : Prop :=
  forall svcs st r st',
    Discovery.discover true (Discovery.ScanResult false (Some svcs)) st = (r, st') ->
    let cows := map Discovery.cow_of_service svcs in
    r = Normal cows /\
    Discovery.discoveredCows st' = cows /\
    Discovery.notifications st' =
      Discovery.notifications st ++
        map (fun l => (Discovery.l_id l, cows)) (Discovery.listeners st).

(* ================================================================== *)
(** * Concrete scenarios *)

(** A primary cow and one cow found on the local network. *)
Definition primary_url : string := "https://cow.openherd.network".
Definition barn_url : string := "http://barn.local:3000".

Definition mk_envelope (i : string) : Envelope :=
  {| e_id := i; e_data := i; e_signature := "sig-" +:+ i; e_publicKey := "key-" +:+ i |}.

Definition mk_data (i : string) (date : Z) (parent : jsval) : PostData :=
  {| pd_id := JStr i; pd_text := JStr "moo";
     pd_latitude := JNum 33; pd_longitude := JNum (-84);
     pd_date := JNum date; pd_parent := parent |}.

Definition mk_post (i : string) (date : Z) (parent : jsval) : Post :=
  {| post_envelope := mk_envelope i;
     parsedData := DObject (mk_data i date parent);
     isPending := false |}.

(** The environment: the primary cannot be reached for reading but accepts
    the envelope [b2]; the barn serves one post, [b2], and accepts
    nothing. *)
Definition barn_env (online : bool) : Env :=
  {| navigator_onLine := fun _ => online;
     fetch_inbox := fun _ url e =>
       if String.eqb url primary_url then
         HttpResponse true (Some (ReplyObject (JBool (String.eqb (e_id e) "b2"))))
       else if String.eqb url barn_url then NetworkFailure
       else TimedOut;
     fetch_outbox := fun _ url =>
       if String.eqb url barn_url then HttpResponse true (Some (PostsArray [mk_envelope "b2"]))
       else NetworkFailure;
     JSON_parse := fun s =>
       if String.eqb s "b2" then Some (DObject (mk_data "b2" 200 JNull))
       else if String.eqb s "c3" then Some (DObject (mk_data "c3" 300 (JStr "b2")))
       else None;
     Date_parse := fun _ => None;
     Date_now := fun t => (1700000000000 + Z.of_nat t)%Z;
     setItem_throws := fun _ => false |}.

(** Two cached posts, the older one first. *)
Definition cached_feed : list Post :=
  [mk_post "a1" 100 JUndefined; mk_post "c3" 300 (JStr "a1")].

Definition pending_entry (i : string) (n : nat) : PendingEntry :=
  {| envelope := mk_envelope i; timestamp := 1690000000000; attempts := n |}.

(** The client with the barn discovered and the given pending queue. *)
Definition barn_world (queue : list PendingEntry) : World :=
  {| clock := 0;
     heap := {[ 0 := cached_feed ]};
     next_loc := 1;
     defaultCow := primary_url;
     discoveredCows := [barn_url];
     cachedPosts := 0;
     pendingPosts := queue;
     stored_cached := Some cached_feed;
     stored_pending := Some queue;
     app_posts := 0;
     loading := false;
     hasLocation := false;
     requests := [];
     rendered := [];
     toasts := [] |}.

(** A queue with a deliverable entry, an entry on its last attempt and a
    fresh one. *)
Definition three_pending : list PendingEntry :=
  [pending_entry "b2" 1; pending_entry "x9" 4; pending_entry "y7" 0].

(** A discovery service that knows one cow and has one subscriber. *)
Definition barn_cow : Discovery.Cow :=
  {| Discovery.name := "barn";
     Discovery.url := barn_url;
     Discovery.host := "barn.local";
     Discovery.port := 3000;
     Discovery.txt := [] |}.

Definition subscribed : Discovery.State :=
  {| Discovery.discoveredCows := [barn_cow];
     Discovery.isDiscovering := false;
     Discovery.listeners :=
       [{| Discovery.l_id := 1; Discovery.l_throws := fun _ => false |}];
     Discovery.notifications := [] |}.

(** A service record as the scan returns it, without port. *)
Definition shed_service : Discovery.MdnsService :=
  {| Discovery.s_name := "shed";
     Discovery.s_hosts := ["192.168.1.7"];
     Discovery.s_host := "shed.local";
     Discovery.s_port := 0;
     Discovery.s_txt := [] |}.

(** As [barn_env], but the barn serves, next to [b2], an envelope whose
    [data] is the JSON text [null]. *)
Definition null_data_env : Env :=
  {| navigator_onLine := fun _ => true;
     fetch_inbox := fetch_inbox (barn_env true);
     fetch_outbox := fun _ url =>
       if String.eqb url barn_url
       then HttpResponse true (Some (PostsArray [mk_envelope "n0"; mk_envelope "b2"]))
       else NetworkFailure;
     JSON_parse := fun s =>
       if String.eqb s "n0" then Some DNull else JSON_parse (barn_env true) s;
     Date_parse := fun _ => None;
     Date_now := Date_now (barn_env true);
     setItem_throws := fun _ => false |}.
(* ================================================================== *)
(** * Histories, persistence and periodic discovery *)

(** ** Operations over time *)

(** What the application asks of the service: a broadcast, a
    reconciliation pass, a reload of the feed. *)
Inductive Action : Type :=
  | DoBroadcast (e : Envelope) (saveAsPending : bool)
  | DoSync
  | DoLoad.

(** The state after an action, run in the environment of its time. *)
Definition after_action (env : Env) (a : Action) (w : World) : World :=
  match a with
  | DoBroadcast e saveAsPending => snd (broadcastPost env e saveAsPending w)
  | DoSync => snd (syncPendingPosts env w)
  | DoLoad => snd (loadPosts env w)
  end.

(** Actions one after the other; the environment may be another one at
    each. *)
Fixpoint after_actions (steps : list (Env * Action)) (w : World) : World :=
  match steps with
  | [] => w
  | (env, a) :: steps' => after_actions steps' (after_action env a w)
  end.

(** [n] reconciliation passes in a row. *)
Fixpoint sync_passes (env : Env) (n : nat) (w : World) : World :=
  match n with
  | 0 => w
  | S k => sync_passes env k (snd (syncPendingPosts env w))
  end.

(** [k] times [pending.attempts++]. *)
Definition bump_by (k : nat) (p : PendingEntry) : PendingEntry :=
  {| envelope := envelope p; timestamp := timestamp p; attempts := attempts p + k |}.

(** The envelopes a request log submits, oldest first. *)
Definition submitted (reqs : list Request) : list Envelope :=
  flat_map (fun r => match r with ReqPost _ e => [e] | ReqGet _ => [] end) reqs.

(** The envelopes handed to [broadcastPost] along a history. *)
Definition broadcast_in (steps : list (Env * Action)) : list Envelope :=
  flat_map (fun step => match snd step with DoBroadcast e _ => [e] | _ => [] end) steps.

(** The envelopes the client has sent or holds for sending. *)
Definition in_transit (w : World) : list Envelope :=
  submitted (requests w) ++ map envelope (pendingPosts w).

(** ** Conditions on the environment *)

(** The device is online whenever asked. *)
Definition always_online (env : Env) : Prop :=
  forall t, navigator_onLine env t = true.

(** No peer ever accepts a submission. *)
Definition nobody_accepts (env : Env) : Prop :=
  forall t url e, truthy (submission_value (fetch_inbox env t url e)) = false.

(** The number of targets of [w] that accept [e] when asked at instant
    [t]. *)
Definition accepted_at (env : Env) (e : Envelope) (t : nat) (w : World) : nat :=
  accepted_count env e (set_clock t w).

(** What a retry of [e] started at instant [t] reaches: nobody when the
    device is offline then. *)
Definition reached (env : Env) (e : Envelope) (t : nat) (w : World) : nat :=
  if navigator_onLine env t then accepted_at env e t w else 0.

(** Some target accepts [e] whenever it is asked. *)
Definition always_accepted (env : Env) (e : Envelope) (w : World) : Prop :=
  forall t, 0 < accepted_at env e t w.

(** The retries of one pass over [queue] started at instant [t], entry by
    entry: how many targets accepted the entry's envelope, and the requests
    sent for it.  When the device is online at the entry's turn, its
    envelope is submitted to every target of [w] and the pass goes on two
    instants later (the fan-out, then the retry, have been awaited); when it
    is offline nothing is sent, nobody is reached and the pass goes on one
    instant later. *)
Fixpoint pass_rounds (env : Env) (w : World) (t : nat) (queue : list PendingEntry)
    : list (nat * list Request) :=
  match queue with
  | [] => []
  | p :: rest =>
      if navigator_onLine env t
      then (accepted_at env (envelope p) t w, fanout_requests (envelope p) w)
             :: pass_rounds env w (S (S t)) rest
      else (0, []) :: pass_rounds env w (S t) rest
  end.

(** The requests issued between [w] and [w']. *)
Definition sent_between (w w' : World) : list Request :=
  drop (length (requests w)) (requests w').

(** The specification's sentence on the retry budget, read for every state
    of the queue: an entry that has been tried 5 times is not retried, a
    pass submits nothing for it. *)
Definition exhausted_entries_are_not_retried : Prop :=
  forall env w r w' p,
    syncPendingPosts env w = (r, w') ->
    In p (pendingPosts w) -> 5 <= attempts p ->
    ~ In (envelope p) (submitted (sent_between w w')).

(** Connectivity is lost right after instant [t0] and does not come
    back. *)
Definition offline_after (env : Env) (t0 : nat) : Prop :=
  forall t, t0 < t -> navigator_onLine env t = false.

(** [localStorage] never refuses a write. *)
Definition storage_accepts (env : Env) : Prop :=
  forall t, setItem_throws env t = false.

(** ** What a restart reads back *)

(** openherd.js:67-78.  The key is written by [savePendingPosts] only, so
    what [getItem] gives is [null] or the text [JSON.stringify] made of a
    queue, which [JSON.parse] reads back as that queue. *)
Definition loadPendingPosts : M World (list PendingEntry) :=
  try_catch
    (let! pending := gets stored_pending in
     match pending with
     | Some posts => ret posts
     | None => ret []
     end)
    (fun _ => ret []).

(** A restart of the service, whose constructor reads the queue back with
    [loadPendingPosts] (openherd.js:12), would find the queue that is in
    memory now. *)
Definition queue_persisted (w : World) : Prop :=
  fst (loadPendingPosts w) = Normal (pendingPosts w).

(** openherd.js:41-52.  As for [loadPendingPosts]: the key is written by
    [saveCachedPosts] only. *)
Definition loadCachedPosts : M World (list Post) :=
  try_catch
    (let! cached := gets stored_cached in
     match cached with
     | Some posts => ret posts
     | None => ret []
     end)
    (fun _ => ret []).

(** A restart would read back from [localStorage] the posts that the cache
    holds in memory, possibly in another order.  The cache is an array
    object in use. *)
Definition cache_coherent (w : World) : Prop :=
  cachedPosts w < next_loc w /\
  exists snapshot,
    fst (loadCachedPosts w) = Normal snapshot /\
    array_at (cachedPosts w) w ≡ₚ snapshot.

(** ** The posts of the feed, whatever their order *)

(** What the feed is made of before the pending entries are merged in: the
    deduplicated download, or the cache when nothing was downloaded. *)
Definition feed_source (env : Env) (w : World) : list Post :=
  if Nat.ltb 0 (length (uniquePosts (fetched_all env w)))
  then uniquePosts (fetched_all env w)
  else array_at (cachedPosts w) w.

(** What the cache holds when [loadPosts_fetch], run online, is over. *)
Definition cache_source (env : Env) (w : World) : list Post :=
  if Nat.ltb 0 (length (uniquePosts (fetched_all env w))) then
    if setItem_throws env (clock (after_download w))
    then array_at (cachedPosts w) w
    else take 100 (uniquePosts (fetched_all env w))
  else array_at (cachedPosts w) w.

(** ** Parts of the state *)

(** What [loadPosts] has no business with: the queue, its stored copy and
    the peers. *)
Definition same_service (w w' : World) : Prop :=
  pendingPosts w' = pendingPosts w /\
  stored_pending w' = stored_pending w /\
  defaultCow w' = defaultCow w /\
  discoveredCows w' = discoveredCows w /\
  hasLocation w' = hasLocation w.

(** What sending has no business with: the array objects, the cache and
    its stored copy, the feed, the page and the peers. *)
Definition same_feed (w w' : World) : Prop :=
  heap w' = heap w /\ next_loc w' = next_loc w /\
  cachedPosts w' = cachedPosts w /\ stored_cached w' = stored_cached w /\
  app_posts w' = app_posts w /\ loading w' = loading w /\
  rendered w' = rendered w /\ toasts w' = toasts w /\
  defaultCow w' = defaultCow w /\ discoveredCows w' = discoveredCows w /\
  hasLocation w' = hasLocation w.

(** ** Which copy of a post is kept *)

(** The distinct ids of a list, in the order in which they first appear. *)
Fixpoint first_seen (ids : list string) : list string :=
  match ids with
  | [] => []
  | i :: ids' => i :: List.filter (fun j => negb (String.eqb j i)) (first_seen ids')
  end.

(** The last post of a list that carries the id [i]. *)
Definition last_with (i : string) (posts : list Post) : option Post :=
  List.find (fun p => String.eqb (post_id p) i) (rev posts).

(** ** Ages on the page *)

(** app.js:269-276.  [now] is the time value of [new Date()] and [date]
    the time value of the argument, in milliseconds, [None] for an invalid
    date: the difference is then [NaN], every comparison with [NaN] is
    false and [NaN] prints as [NaN].  [Math.floor] of a quotient by a
    positive number is [Z.div]. *)
Definition getTimeAgo (now : Z) (date : option Z) : string :=
  match date with
  | None => "NaNd ago"
  | Some d =>
      let seconds := ((now - d) / 1000)%Z in
      if (seconds <? 60)%Z then "just now"
      else if (seconds <? 3600)%Z then pretty (seconds / 60)%Z +:+ "m ago"
      else if (seconds <? 86400)%Z then pretty (seconds / 3600)%Z +:+ "h ago"
      else pretty (seconds / 86400)%Z +:+ "d ago"
  end.

(** ** More of DiscoveryService (src/js/app.js, third part) *)

(** app.js:555-557.  [l !== callback] compares callbacks by identity. *)
Definition removeListener (callback : Discovery.Listener) : M Discovery.State unit :=
  modify (fun s =>
    Discovery.set_listeners
      (List.filter
         (fun l => negb (Nat.eqb (Discovery.l_id l) (Discovery.l_id callback)))
         (Discovery.listeners s)) s).

(** Scans one after the other, each with its platform answer and its
    outcome. *)
Fixpoint after_scans (scans : list (bool * Discovery.MdnsOutcome)) (st : Discovery.State)
    : Discovery.State :=
  match scans with
  | [] => st
  | (native, scan) :: scans' =>
      after_scans scans' (snd (Discovery.discover native scan st))
  end.

(** The cows of the last scan that found any, [known] when none did. *)
Definition last_found (scans : list (bool * Discovery.MdnsOutcome)) (known : list Discovery.Cow)
    : list Discovery.Cow :=
  foldl
    (fun known scan =>
       match scan_found (fst scan) (snd scan) with
       | [] => known
       | svcs => map Discovery.cow_of_service svcs
       end)
    known scans.

(** The calls to subscribers logged since [st]. *)
Definition calls_since (st st' : Discovery.State) : list (nat * list Discovery.Cow) :=
  drop (length (Discovery.notifications st)) (Discovery.notifications st').

Module Periodic.

(** [DiscoveryService] with its [discoveryInterval] field and the interval
    timers it has set on the page.  [discoveryInterval] is [None] while it
    is undefined (the constructor does not set it) or null.  Timer ids are
    the integers [setInterval] hands out, in increasing order. *)
Record State : Type := {
  service : Discovery.State;
  discoveryInterval : option nat;
  timers : list nat;
  next_timer : nat
}.

Definition set_service (v : Discovery.State) (s : State) : State :=
  {| service := v; discoveryInterval := discoveryInterval s;
     timers := timers s; next_timer := next_timer s |}.

Definition set_discoveryInterval (v : option nat) (s : State) : State :=
  {| service := service s; discoveryInterval := v;
     timers := timers s; next_timer := next_timer s |}.

Definition set_timers (v : list nat) (s : State) : State :=
  {| service := service s; discoveryInterval := discoveryInterval s;
     timers := v; next_timer := next_timer s |}.

Definition set_next_timer (v : nat) (s : State) : State :=
  {| service := service s; discoveryInterval := discoveryInterval s;
     timers := timers s; next_timer := v |}.

(** A method of the service run on the service's own fields. *)
Definition on_service {A} (m : M Discovery.State A) : M State A :=
  fun s => let '(r, d) := m (service s) in (r, set_service d s).

(** [setInterval(callback, intervalMs)] *)
Definition setInterval : M State nat :=
  fun s =>
    (Normal (next_timer s),
     set_next_timer (S (next_timer s)) (set_timers (timers s ++ [next_timer s]) s)).

(** [clearInterval(id)] *)
Definition clearInterval (id : nat) : M State unit :=
  modify (fun s => set_timers (List.filter (fun t => negb (Nat.eqb t id)) (timers s)) s).

(** [if (this.discoveryInterval)]: undefined, null and [0] are falsy. *)
Definition interval_set (current : option nat) : option nat :=
  match current with
  | Some id => if Nat.eqb id 0 then None else Some id
  | None => None
  end.

Section Scan.

Variable isNativePlatform : bool.
Variable mDNS_discover : Discovery.MdnsOutcome.

(** [this.discover()] without [await]: the promise is dropped, neither the
    result nor a rejection reaches the caller.  The scan is taken to
    complete before anything else runs. *)
Definition discover_detached : M State unit :=
  on_service (settle (Discovery.discover isNativePlatform mDNS_discover)) ;;
  ret tt.

(** app.js:565-577 *)
Definition startPeriodicDiscovery : M State unit :=
  let! current := gets discoveryInterval in
  (match interval_set current with
   | Some id => clearInterval id
   | None => ret tt
   end) ;;
  discover_detached ;;
  let! id := setInterval in
  modify (set_discoveryInterval (Some id)).

(** Timer [id] comes due: its callback, [() => this.discover()], runs if
    the timer is still set. *)
Definition timer_fires (id : nat) : M State unit :=
  let! set := gets timers in
  if existsb (Nat.eqb id) set then discover_detached else ret tt.

End Scan.

(** app.js:580-585 *)
Definition stopPeriodicDiscovery : M State unit :=
  let! current := gets discoveryInterval in
  match interval_set current with
  | Some id =>
      clearInterval id ;;
      modify (set_discoveryInterval None)
  | None => ret tt
  end.

(** What happens to the service over time. *)
Inductive Event : Type :=
  | Start (native : bool) (scan : Discovery.MdnsOutcome)
  | Stop
  | Fires (id : nat) (native : bool) (scan : Discovery.MdnsOutcome).

Definition after_event (ev : Event) (s : State) : State :=
  match ev with
  | Start native scan => snd (startPeriodicDiscovery native scan s)
  | Stop => snd (stopPeriodicDiscovery s)
  | Fires id native scan => snd (timer_fires native scan id s)
  end.

Fixpoint after_events (evs : list Event) (s : State) : State :=
  match evs with
  | [] => s
  | ev :: evs' => after_events evs' (after_event ev s)
  end.

(** The timers of the service are the one [discoveryInterval] names, if it
    names one; ids are positive. *)
Definition one_timer (s : State) : Prop :=
  0 < next_timer s /\
  timers s = match discoveryInterval s with Some id => [id] | None => [] end /\
  Forall (fun id => 0 < id < next_timer s) (timers s).

Definition is_fire (ev : Event) : Prop :=
  match ev with
  | Fires _ _ _ => True
  | _ => False
  end.

(** The service as its constructor leaves it, on a page that has set no
    timer yet. *)
Definition fresh (st : Discovery.State) : State :=
  {| service := st; discoveryInterval := None; timers := []; next_timer := 1 |}.

End Periodic.

(** ** The subscriber of the application *)

Definition set_discoveredCows (v : list string) (w : World) : World :=
  {| clock := clock w; heap := heap w; next_loc := next_loc w;
     defaultCow := defaultCow w; discoveredCows := v;
     cachedPosts := cachedPosts w; pendingPosts := pendingPosts w;
     stored_cached := stored_cached w; stored_pending := stored_pending w;
     app_posts := app_posts w; loading := loading w; hasLocation := hasLocation w;
     requests := requests w; rendered := rendered w; toasts := toasts w |}.

(** app.js:408-426: touches the page only. *)
Definition updateDiscoveredCowsList : M World unit := ret tt.

(** app.js:24-27: the callback [init] registers with the discovery
    service. *)
Definition app_listener (cows : list Discovery.Cow) : M World unit :=
  modify (set_discoveredCows (map Discovery.url cows)) ;;
  updateDiscoveredCowsList.

(** The address [discover] gives a service, app.js:520-526. *)
Definition address (service : Discovery.MdnsService) : string :=
  Discovery.url (Discovery.cow_of_service service).


(** ** More scenarios *)

(** An environment in which nothing answers. *)
Definition deaf_env : Env :=
  {| navigator_onLine := fun _ => true;
     fetch_inbox := fun _ _ _ => NetworkFailure;
     fetch_outbox := fun _ _ => TimedOut;
     JSON_parse := fun _ => None;
     Date_parse := fun _ => None;
     Date_now := fun t => Z.of_nat t;
     setItem_throws := fun _ => false |}.

(** As [barn_env], but the device is online at instant [0] only. *)
Definition tunnel_env : Env :=
  {| navigator_onLine := fun t => Nat.eqb t 0;
     fetch_inbox := fetch_inbox (barn_env true);
     fetch_outbox := fetch_outbox (barn_env true);
     JSON_parse := JSON_parse (barn_env true);
     Date_parse := fun _ => None;
     Date_now := Date_now (barn_env true);
     setItem_throws := fun _ => false |}.

(* ================================================================== *)
(** * Properties *)

(** ** Running the monad *)

Lemma bind_normal {S A B} (m : M S A) (k : A -> M S B) s a s' :
  m s = (Normal a, s') -> bind m k s = k a s'.
Proof. intros H. unfold bind. rewrite H. reflexivity. Qed.

Lemma bind_throw {S A B} (m : M S A) (k : A -> M S B) s e s' :
  m s = (Throw e, s') -> bind m k s = (Throw e, s').
Proof. intros H. unfold bind. rewrite H. reflexivity. Qed.

(** ** The pending queue *)

Section PendingQueue.

Variable env : Env.

Lemma savePendingPosts_run q w :
  savePendingPosts env q w =
    (Normal tt,
     set_pendingPosts (if setItem_throws env (clock w) then pendingPosts w else q)
       (set_stored_pending (stored_pending_after env q w) w)).
Proof.
  unfold savePendingPosts, try_catch, bind, setItem_pending, stored_pending_after, modify, ret.
  destruct (setItem_throws env (clock w)); destruct w; reflexivity.
Qed.

Lemma addPendingPost_run e w :
  addPendingPost env e w = (Normal tt, after_enqueue env e w).
Proof.
  unfold after_enqueue, addPendingPost, bind, gets, modify. cbn beta iota.
  rewrite savePendingPosts_run. unfold stored_pending_after, new_entry. cbn.
  destruct (setItem_throws env (clock w)); reflexivity.
Qed.

End PendingQueue.

(** C3 (openherd.js:261-267, 91-98).  Offline, with the enqueue flag set,
    [broadcastPost] returns 0 without issuing any request, and the pending
    queue is the old queue followed by exactly one new entry, whose
    [attempts] is 0: its length grows by exactly one. *)
Theorem broadcastPost_offline_enqueues (env : Env) (e : Envelope) (w : World) :
  navigator_onLine env (clock w) = false ->
  exists w',
    broadcastPost env e true w = (Normal 0, w') /\
    requests w' = requests w /\
    pendingPosts w' =
      pendingPosts w ++
        [{| envelope := e; timestamp := Date_now env (clock w); attempts := 0 |}] /\
    length (pendingPosts w') = S (length (pendingPosts w)) /\
    stored_pending w' =
      (if setItem_throws env (clock w) then stored_pending w else Some (pendingPosts w')) /\
    clock w' = clock w.
Proof.
  intros Hoff.
  eexists. split.
  - unfold broadcastPost, isOnline.
    rewrite (bind_normal _ _ w false w) by (unfold gets; rewrite Hoff; reflexivity).
    cbn beta iota. unfold negb.
    rewrite (bind_normal _ _ _ _ _ (addPendingPost_run env e w)).
    reflexivity.
  - cbn. rewrite length_app. cbn. repeat split; try reflexivity; lia.
Qed.

(** C7 (openherd.js:286-293).  Offline, with a non-empty queue,
    [syncPendingPosts] returns [{success: 0, failed: queue length}] and
    changes nothing at all: the queue, every entry's [attempts], the stored
    copy and the request log are those of before. *)
Theorem syncPendingPosts_offline_untouched (env : Env) (w : World) :
  pendingPosts w <> [] ->
  navigator_onLine env (clock w) = false ->
  syncPendingPosts env w =
    (Normal {| success := 0; failed := length (pendingPosts w) |}, w).
Proof.
  intros Hne Hoff.
  unfold syncPendingPosts, isOnline, bind, gets, ret. cbn beta iota.
  destruct (pendingPosts w) as [|p q] eqn:Hq; [congruence|].
  cbn. rewrite Hoff. reflexivity.
Qed.

(** ** Fan-out *)

Section Broadcast.

Variable env : Env.

Lemma submitPost_run e cow w :
  submitPost env e (Some cow) w =
    (Normal (submission_value (inbox_outcome env e w cow)),
     set_requests (requests w ++ [ReqPost (url_of w cow) e]) w).
Proof.
  unfold submitPost, inbox_outcome, url_of, try_catch, bind, gets, modify, throw, ret.
  cbn.
  destruct (fetch_inbox _ _ _ _) as [| |[|] [[|ok]|]]; reflexivity.
Qed.

Lemma settle_normal {S A} (m : M S A) s a s' :
  m s = (Normal a, s') -> settle m s = (Normal (Fulfilled a), s').
Proof. intros H. unfold settle. rewrite H. reflexivity. Qed.

(** Every target is submitted to, whatever the others answer. *)
Lemma allSettled_run e w0 cows : forall w,
  clock w = clock w0 -> defaultCow w = defaultCow w0 ->
  Promise_allSettled (map (fun cow => submitPost env e (Some cow)) cows) w =
    (Normal (map (fun cow => Fulfilled (submission_value (inbox_outcome env e w0 cow))) cows),
     set_requests (requests w ++ map (fun cow => ReqPost (url_of w0 cow) e) cows) w).
Proof.
  unfold Promise_allSettled.
  induction cows as [|cow cows IH]; intros w Hc Hd.
  - cbn. unfold ret. rewrite app_nil_r. destruct w; reflexivity.
  - cbn [map js_map].
    rewrite (bind_normal _ _ _ _ _ (settle_normal _ _ _ _ (submitPost_run e cow w))).
    rewrite (bind_normal _ _ _ _ _
      (IH (set_requests (requests w ++ [ReqPost (url_of w cow) e]) w) Hc Hd)).
    unfold ret, inbox_outcome, url_of. rewrite Hc, Hd. cbn.
    rewrite <- app_assoc. reflexivity.
Qed.

Lemma filter_fulfilled (f : string -> jsval) cows :
  List.filter fulfilled_and_truthy (map (fun cow => Fulfilled (f cow)) cows) =
  map (fun cow => Fulfilled (f cow)) (List.filter (fun cow => truthy (f cow)) cows).
Proof.
  induction cows as [|c cows IH]; [reflexivity|].
  cbn. destruct (truthy (f c)); cbn; rewrite IH; reflexivity.
Qed.

Lemma broadcastPost_online_run e saveAsPending w :
  navigator_onLine env (clock w) = true ->
  broadcastPost env e saveAsPending w =
    (Normal (accepted_count env e w),
     if Nat.eqb (accepted_count env e w) 0 && saveAsPending
     then after_enqueue env e (after_fanout e w)
     else after_fanout e w).
Proof.
  intros Hon. unfold broadcastPost, isOnline.
  rewrite (bind_normal _ _ w true w) by (unfold gets; rewrite Hon; reflexivity).
  cbn [negb]. unfold bind at 1, gets at 1. unfold bind at 1, gets at 1.
  unfold await.
  rewrite (bind_normal _ _ _ _ _
    (bind_normal _ _ _ _ _ (allSettled_run e w (defaultCow w :: discoveredCows w) w eq_refl eq_refl))).
  unfold bind at 1, tick, modify. cbn [fst snd]. unfold ret at 1.
  rewrite filter_fulfilled, length_map.
  fold (targets w). fold (accepted_count env e w).
  destruct (Nat.eqb (accepted_count env e w) 0 && saveAsPending) eqn:Hq.
  - rewrite addPendingPost_run. reflexivity.
  - reflexivity.
Qed.

Lemma broadcastPost_offline_run e saveAsPending w :
  navigator_onLine env (clock w) = false ->
  broadcastPost env e saveAsPending w =
    (Normal 0, if saveAsPending then after_enqueue env e w else w).
Proof.
  intros Hoff. unfold broadcastPost, isOnline.
  rewrite (bind_normal _ _ w false w) by (unfold gets; rewrite Hoff; reflexivity).
  cbn [negb]. destruct saveAsPending.
  - rewrite (bind_normal _ _ _ _ _ (addPendingPost_run env e w)). reflexivity.
  - reflexivity.
Qed.

Lemma accepted_count_le e w : accepted_count env e w <= length (targets w).
Proof. unfold accepted_count. apply List.filter_length_le. Qed.

End Broadcast.

Lemma filter_length_perm {A} (f : A -> bool) l l' :
  Permutation l l' -> length (List.filter f l) = length (List.filter f l').
Proof.
  induction 1 as [|x l1 l2 _ IH|x y l1|l1 l2 l3 _ IH1 _ IH2]; cbn.
  - reflexivity.
  - destruct (f x); cbn; rewrite IH; reflexivity.
  - destruct (f x), (f y); reflexivity.
  - rewrite IH1. exact IH2.
Qed.

(** C2 (openherd.js:261-283, 236-258).  Online, [broadcastPost] submits to
    every target, primary first, whatever the others answer; it completes
    normally, and its result is exactly the number of targets whose
    submission came back [ok: true].  A network failure, a timeout, a
    non-2xx status or an unreadable body is a target that does not count.
    The result is the same when the discovered peers are taken in another
    order, and when the whole target list is (no URL being empty).  Answers
    are typed as the wire protocol has them, [{ok: bool}]. *)
Theorem broadcastPost_counts_ok_true (env : Env) (e : Envelope) (saveAsPending : bool)
    (w : World) :
  navigator_onLine env (clock w) = true ->
  (forall cow, In cow (targets w) -> ok_is_boolean (inbox_outcome env e w cow)) ->
  exists n w',
    broadcastPost env e saveAsPending w = (Normal n, w') /\
    n = length (List.filter (fun cow => returned_ok_true (inbox_outcome env e w cow))
                  (targets w)) /\
    requests w' = requests w ++ fanout_requests e w /\
    (forall w2,
       clock w2 = clock w -> defaultCow w2 = defaultCow w ->
       Permutation (discoveredCows w2) (discoveredCows w) ->
       exists w2', broadcastPost env e saveAsPending w2 = (Normal n, w2')) /\
    (forall w2,
       clock w2 = clock w -> Permutation (targets w2) (targets w) ->
       ~ In "" (targets w) ->
       exists w2', broadcastPost env e saveAsPending w2 = (Normal n, w2')).
Proof.
  intros Hon Hbool.
  exists (accepted_count env e w). eexists. split; [|split; [|split; [|split]]].
  - apply broadcastPost_online_run, Hon.
  - unfold accepted_count. f_equal. apply List.filter_ext_in.
    intros cow Hin. specialize (Hbool cow Hin).
    destruct (inbox_outcome env e w cow) as [| |[|] [[|ok]|]]; try reflexivity.
    destruct Hbool as [b ->]. destruct b; reflexivity.
  - destruct (Nat.eqb (accepted_count env e w) 0 && saveAsPending); reflexivity.
  - intros w2 Hc Hd Hp. eexists.
    rewrite broadcastPost_online_run by (rewrite Hc; exact Hon).
    f_equal. f_equal. unfold accepted_count, targets.
    rewrite (List.filter_ext _ (fun cow => truthy (submission_value (inbox_outcome env e w cow))))
      by (intros cow; unfold inbox_outcome, url_of; rewrite Hc, Hd; reflexivity).
    apply filter_length_perm. rewrite Hd. constructor. exact Hp.
  - intros w2 Hc Hp Hne. eexists.
    rewrite broadcastPost_online_run by (rewrite Hc; exact Hon).
    f_equal. f_equal. unfold accepted_count.
    rewrite (List.filter_ext_in _
               (fun cow => truthy (submission_value (inbox_outcome env e w cow)))).
    + apply filter_length_perm, Hp.
    + intros cow Hin. unfold inbox_outcome, url_of, or_defaultCow. rewrite Hc.
      destruct (String.eqb_spec cow "") as [->|_]; [|reflexivity].
      exfalso. apply Hne. apply (Permutation_in _ Hp), Hin.
Qed.

(** ** The reconciliation pass *)

Section Reconcile.

Variable env : Env.

(** One [await this.broadcastPost(pending.envelope, false)]. *)
Lemma retry_run e w :
  exists r w',
    await (broadcastPost env e false) w = (Normal (fst r), w') /\
    ((fst r = 0 /\ snd r = []) \/
     (snd r = map (fun cow => ReqPost (url_of w cow) e) (targets w) /\
      fst r <= length (targets w))) /\
    requests w' = requests w ++ snd r /\
    defaultCow w' = defaultCow w /\
    discoveredCows w' = discoveredCows w /\
    pendingPosts w' = pendingPosts w /\
    stored_pending w' = stored_pending w.
Proof.
  unfold await.
  destruct (navigator_onLine env (clock w)) eqn:Hon.
  - exists (accepted_count env e w, fanout_requests e w). eexists. split.
    + rewrite (bind_normal _ _ _ _ _ (broadcastPost_online_run env e false w Hon)).
      rewrite andb_false_r. reflexivity.
    + cbn. repeat split; try reflexivity.
      right. split; [reflexivity | apply accepted_count_le].
  - exists (0, []). eexists. split.
    + rewrite (bind_normal _ _ _ _ _ (broadcastPost_offline_run env e false w Hon)).
      reflexivity.
    + cbn. rewrite app_nil_r. repeat split; try reflexivity. left. split; reflexivity.
Qed.

Lemma retry_round_ext w1 w p r :
  defaultCow w1 = defaultCow w -> discoveredCows w1 = discoveredCows w ->
  retry_round w1 p r -> retry_round w p r.
Proof.
  unfold retry_round, targets, url_of. intros -> ->. tauto.
Qed.

Lemma survivors_cons p r queue rounds :
  survivors (p :: queue) (r :: rounds) =
    (if kept (p, r) then [bump p] else []) ++ survivors queue rounds.
Proof. unfold survivors. cbn. destruct (kept (p, r)); reflexivity. Qed.

Lemma sync_loop_run queue : forall i results failedPosts w,
  exists rounds w',
    sync_loop env i queue results failedPosts w =
      (Normal (results ++ map outcome_of rounds, failedPosts ++ survivors queue rounds), w') /\
    Forall2 (retry_round w) queue rounds /\
    requests w' = requests w ++ concat (map snd rounds) /\
    defaultCow w' = defaultCow w /\
    discoveredCows w' = discoveredCows w /\
    stored_pending w' = stored_pending w.
Proof.
  induction queue as [|p0 rest IH]; intros i results failedPosts w.
  - exists [], w. cbn. unfold ret, survivors. cbn. rewrite !app_nil_r.
    repeat split; constructor.
  - cbn [sync_loop].
    set (w1 := set_pendingPosts (<[i:=bump p0]> (pendingPosts w)) w).
    destruct (retry_run (envelope p0) w1) as ([count reqs] & w2 & Hrun & Hround & Hreq & Hd & Hc & _ & Hs).
    cbn [fst snd] in *.
    unfold bind at 1, modify at 1. fold w1.
    change (envelope (bump p0)) with (envelope p0).
    rewrite (bind_normal _ _ _ _ _ Hrun).
    change (attempts (bump p0)) with (S (attempts p0)).
    destruct (Nat.ltb 0 count) eqn:Hpos.
    + apply Nat.ltb_lt in Hpos. destruct count as [|c]; [lia|].
      destruct (IH (S i) (results ++ [{| o_success := true; o_count := Some (S c) |}])
                  failedPosts w2)
        as (rounds & w' & Hloop & Hall & Hreq' & Hd' & Hc' & Hs').
      exists ((S c, reqs) :: rounds), w'. split; [|split; [|split; [|split; [|split]]]].
      * rewrite Hloop, survivors_cons. cbn [map]. unfold kept, outcome_of at 2.
        cbn [fst snd Nat.eqb andb Nat.ltb Nat.leb app].
        rewrite <- app_assoc. reflexivity.
      * constructor; [exact Hround|].
        eapply Forall2_impl; [exact Hall|].
        intros p r. apply retry_round_ext; [rewrite Hd | rewrite Hc]; reflexivity.
      * rewrite Hreq', Hreq. cbn. rewrite app_assoc. reflexivity.
      * rewrite Hd', Hd. reflexivity.
      * rewrite Hc', Hc. reflexivity.
      * rewrite Hs', Hs. reflexivity.
    + apply Nat.ltb_ge in Hpos. assert (count = 0) as -> by lia.
      destruct (IH (S i) (results ++ [{| o_success := false; o_count := None |}])
                  (if Nat.ltb (S (attempts p0)) 5 then failedPosts ++ [bump p0] else failedPosts)
                  w2)
        as (rounds & w' & Hloop & Hall & Hreq' & Hd' & Hc' & Hs').
      exists ((0, reqs) :: rounds), w'. split; [|split; [|split; [|split; [|split]]]].
      * rewrite Hloop, survivors_cons. cbn [map]. unfold kept, outcome_of at 2.
        cbn [fst snd Nat.eqb andb].
        destruct (Nat.ltb (S (attempts p0)) 5); cbn [Nat.ltb Nat.leb];
          rewrite <- !app_assoc; reflexivity.
      * constructor; [exact Hround|].
        eapply Forall2_impl; [exact Hall|].
        intros p r. apply retry_round_ext; [rewrite Hd | rewrite Hc]; reflexivity.
      * rewrite Hreq', Hreq. cbn. rewrite app_assoc. reflexivity.
      * rewrite Hd', Hd. reflexivity.
      * rewrite Hc', Hc. reflexivity.
      * rewrite Hs', Hs. reflexivity.
Qed.

Lemma accepted_at_ext e t w1 w :
  defaultCow w1 = defaultCow w -> discoveredCows w1 = discoveredCows w ->
  accepted_at env e t w1 = accepted_at env e t w.
Proof.
  unfold accepted_at, accepted_count, inbox_outcome, url_of, targets. cbn.
  intros -> ->. reflexivity.
Qed.

Lemma fanout_requests_ext e w1 w :
  defaultCow w1 = defaultCow w -> discoveredCows w1 = discoveredCows w ->
  fanout_requests e w1 = fanout_requests e w.
Proof. unfold fanout_requests, url_of, targets. intros -> ->. reflexivity. Qed.

Lemma await_run {A} (m : M World A) w a w1 :
  m w = (Normal a, w1) -> await m w = (Normal a, set_clock (S (clock w1)) w1).
Proof. intros H. unfold await. rewrite (bind_normal _ _ _ _ _ H). reflexivity. Qed.

(** The loop, entry by entry: what it sends and whom it reaches is fixed by
    the connectivity and the answers at the instant of each retry. *)
Lemma sync_loop_exact w0 queue : forall i results failedPosts w,
  defaultCow w = defaultCow w0 -> discoveredCows w = discoveredCows w0 ->
  exists w',
    sync_loop env i queue results failedPosts w =
      (Normal (results ++ map outcome_of (pass_rounds env w0 (clock w) queue),
               failedPosts ++ survivors queue (pass_rounds env w0 (clock w) queue)),
       w') /\
    requests w' = requests w ++ concat (map snd (pass_rounds env w0 (clock w) queue)).
Proof.
  induction queue as [|p0 rest IH]; intros i results failedPosts w Hd Hc.
  - exists w. cbn. unfold ret, survivors. cbn. rewrite !app_nil_r. split; reflexivity.
  - cbn [sync_loop pass_rounds].
    set (w1 := set_pendingPosts (<[i:=bump p0]> (pendingPosts w)) w).
    unfold bind at 1, modify at 1. fold w1.
    change (envelope (bump p0)) with (envelope p0).
    change (attempts (bump p0)) with (S (attempts p0)).
    destruct (navigator_onLine env (clock w)) eqn:Hon.
    + pose proof (await_run _ _ _ _
        (broadcastPost_online_run env (envelope p0) false w1 Hon)) as Hretry.
      rewrite andb_false_r in Hretry.
      assert (Hcount : accepted_count env (envelope p0) w1 =
                       accepted_at env (envelope p0) (clock w) w0).
      { rewrite <- (accepted_at_ext (envelope p0) (clock w) w1 w0 Hd Hc). reflexivity. }
      rewrite Hcount in Hretry.
      rewrite (bind_normal _ _ _ _ _ Hretry).
      set (count := accepted_at env (envelope p0) (clock w) w0).
      set (w2 := set_clock _ (after_fanout (envelope p0) w1)).
      assert (Hreq2 : requests w2 = requests w ++ fanout_requests (envelope p0) w0).
      { rewrite <- (fanout_requests_ext (envelope p0) w1 w0 Hd Hc). reflexivity. }
      destruct (Nat.ltb 0 count) eqn:Hpos.
      * destruct (IH (S i) (results ++ [{| o_success := true; o_count := Some count |}])
                    failedPosts w2 Hd Hc) as (w' & Hloop & Hreq).
        change (clock w2) with (S (S (clock w))) in Hloop, Hreq.
        exists w'. split.
        -- rewrite Hloop, survivors_cons. cbn [map]. unfold kept, outcome_of at 2.
           cbn [fst snd]. rewrite Hpos.
           apply Nat.ltb_lt in Hpos. destruct count as [|n]; [lia|].
           cbn [Nat.eqb andb app]. rewrite <- app_assoc. reflexivity.
        -- rewrite Hreq, Hreq2. cbn [map concat snd]. rewrite <- app_assoc. reflexivity.
      * destruct (IH (S i) (results ++ [{| o_success := false; o_count := None |}])
                    (if Nat.ltb (S (attempts p0)) 5 then failedPosts ++ [bump p0]
                     else failedPosts) w2 Hd Hc) as (w' & Hloop & Hreq).
        change (clock w2) with (S (S (clock w))) in Hloop, Hreq.
        exists w'. split.
        -- rewrite Hloop, survivors_cons. cbn [map]. unfold kept, outcome_of at 2.
           cbn [fst snd]. rewrite Hpos.
           apply Nat.ltb_ge in Hpos. assert (count = 0) as -> by lia.
           cbn [Nat.eqb andb].
           destruct (Nat.ltb (S (attempts p0)) 5); rewrite <- !app_assoc; reflexivity.
        -- rewrite Hreq, Hreq2. cbn [map concat snd]. rewrite <- app_assoc. reflexivity.
    + pose proof (await_run _ _ _ _
        (broadcastPost_offline_run env (envelope p0) false w1 Hon)) as Hretry.
      rewrite (bind_normal _ _ _ _ _ Hretry).
      change (Nat.ltb 0 0) with false. cbv iota.
      set (w2 := set_clock _ w1).
      destruct (IH (S i) (results ++ [{| o_success := false; o_count := None |}])
                  (if Nat.ltb (S (attempts p0)) 5 then failedPosts ++ [bump p0]
                   else failedPosts) w2 Hd Hc) as (w' & Hloop & Hreq).
      change (clock w2) with (S (clock w)) in Hloop, Hreq.
      exists w'. split.
      * rewrite Hloop, survivors_cons. cbn [map].
        change (outcome_of (0, [])) with {| o_success := false; o_count := None |}.
        unfold kept. cbn [fst snd Nat.eqb andb].
        destruct (Nat.ltb (S (attempts p0)) 5); rewrite <- !app_assoc; reflexivity.
      * rewrite Hreq. cbn [map concat snd app]. reflexivity.
Qed.

(** While the device stays online, every entry's envelope goes to every
    target. *)
Lemma pass_rounds_online w queue : forall t,
  (forall t', navigator_onLine env t' = true) ->
  map snd (pass_rounds env w t queue) =
    map (fun p => fanout_requests (envelope p) w) queue.
Proof.
  induction queue as [|p rest IH]; intros t Hon; [reflexivity|].
  cbn [pass_rounds map]. rewrite Hon. cbn [map snd]. rewrite IH by exact Hon. reflexivity.
Qed.

Lemma survivors_within_budget queue rounds :
  Forall (fun p => attempts p < 5) (survivors queue rounds).
Proof.
  unfold survivors. apply List.Forall_forall. intros q Hq.
  apply in_map_iff in Hq as (pr & <- & Hin).
  apply List.filter_In in Hin as [_ Hk].
  unfold kept in Hk. apply andb_prop in Hk as [_ Hk].
  apply Nat.ltb_lt in Hk. exact Hk.
Qed.

Lemma outcomes_success rounds :
  length (List.filter (fun r => o_success r) (map outcome_of rounds)) =
  length (List.filter (fun r : nat * list Request => Nat.ltb 0 (fst r)) rounds).
Proof.
  induction rounds as [|r rounds IH]; [reflexivity|].
  cbn [map List.filter]. unfold outcome_of at 1.
  destruct (Nat.ltb 0 (fst r)); cbn [o_success length]; rewrite IH; reflexivity.
Qed.

Lemma outcomes_failed rounds :
  length (List.filter (fun r => negb (o_success r)) (map outcome_of rounds)) =
  length (List.filter (fun r : nat * list Request => Nat.eqb (fst r) 0) rounds).
Proof.
  induction rounds as [|r rounds IH]; [reflexivity|].
  cbn [map List.filter]. unfold outcome_of at 1.
  destruct (fst r); cbn [Nat.ltb Nat.leb Nat.eqb o_success negb length];
    rewrite IH; reflexivity.
Qed.

End Reconcile.

(** C1, as the code has it (openherd.js:286-322, 261-283).  From any
    queue, one online pass of [syncPendingPosts] retries every entry once,
    in queue order: the entry's [attempts] is incremented and, if the device
    is online at its turn, as it is for the first entry and for all of them
    while the connection lasts, its envelope is submitted to every target;
    if the connection has gone, nothing is sent and nobody is reached.  What
    is sent, and the two counts returned, are those of [pass_rounds].  The
    queue that is left holds exactly the entries whose retry reached nobody
    and whose [attempts], incremented by one, is below 5.  So no entry of
    the new queue has [attempts >= 5]: an entry that fails with
    [attempts >= 5] after the increment is dropped, not kept.  The pass does
    not look at [attempts] before it retries: an entry found in the queue
    with [attempts >= 5] is retried once more, then removed. *)
Theorem syncPendingPosts_bounded_retry (env : Env) (w : World) :
  pendingPosts w <> [] ->
  navigator_onLine env (clock w) = true ->
  let rounds := pass_rounds env w (clock w) (pendingPosts w) in
  exists w',
    syncPendingPosts env w =
      (Normal {| success := length (List.filter (fun r => Nat.ltb 0 (fst r)) rounds);
                 failed := length (List.filter (fun r => Nat.eqb (fst r) 0) rounds) |},
       w') /\
    requests w' = requests w ++ concat (map snd rounds) /\
    (always_online env ->
     map snd rounds = map (fun p => fanout_requests (envelope p) w) (pendingPosts w)) /\
    pendingPosts w' = survivors (pendingPosts w) rounds /\
    Forall (fun p => attempts p < 5) (pendingPosts w') /\
    Forall (fun q => exists p, In p (pendingPosts w) /\ q = bump p) (pendingPosts w').
Proof.
  intros Hne Hon. cbn zeta.
  destruct (sync_loop_exact env w (pendingPosts w) 0 [] [] w eq_refl eq_refl)
    as (w1 & Hloop & Hreq).
  eexists. split; [|split; [|split]].
  - assert (Hlen : Nat.eqb (length (pendingPosts w)) 0 = false)
      by (destruct (pendingPosts w); [congruence | reflexivity]).
    unfold syncPendingPosts, isOnline.
    unfold bind at 1, gets at 1. rewrite Hlen.
    rewrite (bind_normal _ _ w true w) by (unfold gets; rewrite Hon; reflexivity).
    cbn [negb].
    rewrite (bind_normal _ _ _ _ _ Hloop). cbn [fst snd app].
    unfold bind at 1, modify at 1. unfold bind at 1, gets at 1.
    rewrite (bind_normal _ _ _ _ _ (savePendingPosts_run env _ _)).
    unfold ret. rewrite outcomes_success, outcomes_failed. reflexivity.
  - cbn. exact Hreq.
  - intros Halways. apply pass_rounds_online, Halways.
  - cbn. rewrite Tauto.if_same. cbn. split; [reflexivity|].
    split; [apply survivors_within_budget|].
    unfold survivors. apply List.Forall_forall. intros q Hq.
    apply in_map_iff in Hq as ([p r] & <- & Hin).
    apply List.filter_In in Hin as [Hin _].
    exists p. split; [|reflexivity].
    apply list_elem_of_In. eapply elem_of_zip_l. apply list_elem_of_In. exact Hin.
Qed.

(** The retry budget is an invariant of the queue: enqueueing, broadcasting
    and reconciling never leave an entry with [attempts >= 5] in it, so no
    pass ever retries an entry that has already been tried 5 times. *)
Lemma within_budget_broadcastPost env e saveAsPending w :
  within_budget w ->
  exists n w',
    broadcastPost env e saveAsPending w = (Normal n, w') /\ within_budget w'.
Proof.
  intros Hb.
  assert (Henq : forall w0, pendingPosts w0 = pendingPosts w ->
                   within_budget (after_enqueue env e w0)).
  { intros w0 Hq. unfold within_budget, after_enqueue. cbn. rewrite Hq.
    apply Forall_app. split; [exact Hb|]. repeat constructor. }
  destruct (navigator_onLine env (clock w)) eqn:Hon.
  - eexists. eexists. split; [apply broadcastPost_online_run, Hon|].
    destruct (Nat.eqb _ 0 && saveAsPending); [apply Henq; reflexivity | exact Hb].
  - eexists. eexists. split; [apply broadcastPost_offline_run, Hon|].
    destruct saveAsPending; [apply Henq; reflexivity | exact Hb].
Qed.

Lemma within_budget_syncPendingPosts env w :
  within_budget w ->
  exists r w', syncPendingPosts env w = (Normal r, w') /\ within_budget w'.
Proof.
  intros Hb. unfold syncPendingPosts, isOnline.
  unfold bind at 1, gets at 1.
  destruct (Nat.eqb (length (pendingPosts w)) 0); [eexists; eexists; split; [reflexivity | exact Hb]|].
  unfold bind at 1, gets at 1.
  destruct (navigator_onLine env (clock w)); cbn [negb];
    [|eexists; eexists; split; [reflexivity | exact Hb]].
  destruct (sync_loop_run env (pendingPosts w) 0 [] [] w) as (rounds & w1 & Hloop & _).
  rewrite (bind_normal _ _ _ _ _ Hloop). cbn [fst snd app].
  unfold bind at 1, modify at 1. unfold bind at 1, gets at 1.
  rewrite (bind_normal _ _ _ _ _ (savePendingPosts_run env _ _)).
  eexists. eexists. split; [reflexivity|].
  unfold within_budget. cbn. rewrite Tauto.if_same. apply survivors_within_budget.
Qed.

(** ** Threads *)

Lemma js_filter_pure {S A} (f : A -> M S bool) (g : A -> bool) (l : list A) (s : S) :
  Forall (fun x => f x s = (Normal (g x), s)) l ->
  js_filter f l s = (Normal (List.filter g l), s).
Proof.
  induction 1 as [|x l Hx _ IH]; [reflexivity|].
  cbn [js_filter List.filter].
  rewrite (bind_normal _ _ _ _ _ Hx), (bind_normal _ _ _ _ _ IH).
  reflexivity.
Qed.

(** C8 (openherd.js:339-341, 325-327).  On posts whose [parent] is typed as
    in the data model, [getRootPosts] returns exactly the posts whose
    [parent] is absent or null, and [getReplies(x, posts)] resolves to
    exactly the posts whose [parent] is the string [x]; both keep the order
    of [posts]. *)
Theorem roots_and_replies_exact {S} (posts : list Post) (x : string) (s : S) :
  Forall parent_typed posts ->
  getRootPosts posts s = (Normal (List.filter parent_absent_or_null posts), s) /\
  getReplies (JStr x) posts s =
    (Normal (Fulfilled (List.filter (parent_equals x) posts)), s).
Proof.
  intros Htyped. split.
  - unfold getRootPosts. apply js_filter_pure.
    eapply Forall_impl; [exact Htyped|].
    intros p [Hobj Hpar]. unfold parent_absent_or_null, parent_of in *.
    destruct (parsedData p) as [|data]; [congruence|].
    unfold ret. do 2 f_equal.
    destruct Hpar as [-> | [-> | (s' & -> & Hne)]]; try reflexivity.
    cbn. destruct (String.eqb_spec s' ""); [congruence | reflexivity].
  - unfold getReplies. apply settle_normal, js_filter_pure.
    eapply Forall_impl; [exact Htyped|].
    intros p [Hobj _]. unfold parent_equals, parent_of.
    destruct (parsedData p) as [|data]; [congruence | reflexivity].
Qed.

(** ** Sorting by date *)

Section Sorting.

Variable env : Env.

Lemma insert_sorted_perm p l : insert_sorted env p l ≡ₚ p :: l.
Proof.
  induction l as [|q l IH]; [reflexivity|].
  cbn [insert_sorted]. destruct (SortCompare env p q <=? 0)%Z; [reflexivity|].
  rewrite IH. apply Permutation_swap.
Qed.

Lemma stable_sort_perm l : stable_sort env l ≡ₚ l.
Proof.
  induction l as [|p l IH]; [reflexivity|].
  cbn. rewrite insert_sorted_perm, IH. reflexivity.
Qed.

Lemma stable_sort_length l : length (stable_sort env l) = length l.
Proof. apply Permutation_length, stable_sort_perm. Qed.

Lemma stable_sort_short l : length l < 2 -> stable_sort env l = l.
Proof.
  destruct l as [|p [|q l]]; cbn; intros H; try reflexivity. lia.
Qed.

Lemma SortCompare_dated a b dateA dateB :
  post_time env a = Some dateA -> post_time env b = Some dateB ->
  SortCompare env a b = (dateB - dateA)%Z.
Proof. unfold SortCompare. intros -> ->. reflexivity. Qed.

Lemma newest_first_trans a b c :
  newest_first env a b -> newest_first env b c -> newest_first env a c.
Proof.
  intros (ta & tb & Ha & Hb & Hab) (tb' & tc & Hb' & Hc & Hbc).
  exists ta, tc. repeat split; try assumption.
  rewrite Hb in Hb'. injection Hb' as <-. lia.
Qed.

Lemma insert_sorted_sorted p l :
  dated env p -> Forall (dated env) l ->
  StronglySorted (newest_first env) l ->
  StronglySorted (newest_first env) (insert_sorted env p l).
Proof.
  intros [tp Hp] Hd Hs. induction Hs as [|q l Hs IH Hq]; cbn [insert_sorted].
  - repeat constructor.
  - apply Forall_cons in Hd as [[tq Hq'] Hd].
    rewrite (SortCompare_dated _ _ _ _ Hp Hq').
    destruct (Z.leb_spec (tq - tp) 0) as [Hle|Hgt].
    + assert (Hpq : newest_first env p q) by (exists tp, tq; repeat split; [assumption..|lia]).
      constructor; [constructor; assumption|].
      constructor; [exact Hpq|].
      eapply Forall_impl; [exact Hq|]. intros r Hr. eapply newest_first_trans; eassumption.
    + constructor; [apply IH, Hd|].
      eapply Permutation_Forall; [symmetry; apply insert_sorted_perm|].
      constructor; [|exact Hq].
      exists tq, tp. repeat split; [assumption..|lia].
Qed.

Lemma stable_sort_dated l : Forall (dated env) l -> Forall (dated env) (stable_sort env l).
Proof.
  intros H. eapply Permutation_Forall; [symmetry; apply stable_sort_perm | exact H].
Qed.

Lemma stable_sort_sorted l :
  Forall (dated env) l -> StronglySorted (newest_first env) (stable_sort env l).
Proof.
  induction 1 as [|p l Hp Hl IH]; [constructor|].
  cbn. apply insert_sorted_sorted; [exact Hp | apply stable_sort_dated, Hl | exact IH].
Qed.

(** Sorting a sorted array leaves it as it is. *)
Lemma stable_sort_fixed l :
  StronglySorted (newest_first env) l -> stable_sort env l = l.
Proof.
  induction 1 as [|p l Hs IH Hp]; [reflexivity|].
  change (stable_sort env (p :: l)) with (insert_sorted env p (stable_sort env l)).
  rewrite IH. destruct l as [|q l]; [reflexivity|].
  cbn [insert_sorted]. apply Forall_cons in Hp as [(tp & tq & Hp & Hq & Hle) _].
  rewrite (SortCompare_dated _ _ _ _ Hp Hq).
  destruct (Z.leb_spec (tq - tp) 0); [reflexivity | lia].
Qed.

Lemma stable_sort_idem l :
  Forall (dated env) l -> stable_sort env (stable_sort env l) = stable_sort env l.
Proof. intros H. apply stable_sort_fixed, stable_sort_sorted, H. Qed.

End Sorting.

(** ** Deduplication *)

Lemma Map_set_keys k v m :
  map fst (Map_set k v m) =
    if bool_decide (k ∈ map fst m) then map fst m else map fst m ++ [k].
Proof.
  induction m as [|[k' v'] m IH]; [reflexivity|].
  cbn [Map_set]. destruct (String.eqb_spec k' k) as [->|Hne].
  - cbn. rewrite bool_decide_eq_true_2 by left. reflexivity.
  - cbn [map fst]. rewrite IH.
    destruct (bool_decide (k ∈ map fst m)) eqn:Hin.
    + apply bool_decide_eq_true_1 in Hin.
      rewrite bool_decide_eq_true_2 by (right; exact Hin). reflexivity.
    + apply bool_decide_eq_false_1 in Hin.
      rewrite bool_decide_eq_false_2; [reflexivity|].
      intros H. apply elem_of_cons in H as [?|?]; congruence.
Qed.

Lemma Map_set_keys_NoDup k v m :
  List.NoDup (map fst m) -> List.NoDup (map fst (Map_set k v m)).
Proof.
  intros Hnd. rewrite Map_set_keys.
  destruct (bool_decide (k ∈ map fst m)) eqn:Hin; [exact Hnd|].
  apply bool_decide_eq_false_1 in Hin. rewrite list_elem_of_In in Hin.
  apply List.NoDup_app; repeat split; [exact Hnd | repeat constructor; intros [] |].
  intros k' Hk' [<-|[]]. exact (Hin Hk').
Qed.

Lemma Map_set_keys_In k v m k' :
  In k' (map fst (Map_set k v m)) <-> k' = k \/ In k' (map fst m).
Proof.
  rewrite Map_set_keys.
  destruct (bool_decide (k ∈ map fst m)) eqn:Hin.
  - apply bool_decide_eq_true_1 in Hin. rewrite list_elem_of_In in Hin.
    split; [tauto|]. intros [->|H]; assumption.
  - rewrite List.in_app_iff. cbn. split.
    + intros [H|[H|[]]]; [right; exact H | left; congruence].
    + intros [->|H]; [right; left; reflexivity | left; exact H].
Qed.

Lemma Map_set_entries k v m kp :
  In kp (Map_set k v m) -> kp = (k, v) \/ In kp m.
Proof.
  induction m as [|[k' v'] m IH]; cbn [Map_set].
  - intros [<-|[]]. left; reflexivity.
  - destruct (String.eqb_spec k' k) as [->|Hne].
    + intros [<-|H]; [left; reflexivity | right; right; exact H].
    + intros [<-|H]; [right; left; reflexivity|].
      destruct (IH H) as [->|H']; [left; reflexivity | right; right; exact H'].
Qed.

Lemma Map_new_spec entries : forall m,
  let m' := foldl (fun m kv => Map_set (fst kv) (snd kv) m) m entries in
  (List.NoDup (map fst m) -> List.NoDup (map fst m')) /\
  (forall k, In k (map fst m') <-> In k (map fst entries) \/ In k (map fst m)) /\
  (forall kp, In kp m' -> In kp entries \/ In kp m).
Proof.
  induction entries as [|[k v] entries IH]; intros m; cbn [foldl map fst snd].
  - cbn. repeat split; tauto.
  - destruct (IH (Map_set k v m)) as (Hnd & Hin & Hent). cbn zeta in *.
    split; [|split].
    + intros H. apply Hnd, Map_set_keys_NoDup, H.
    + intros k'. rewrite Hin, Map_set_keys_In. cbn. intuition congruence.
    + intros kp Hkp. destruct (Hent kp Hkp) as [H|H]; [left; right; exact H|].
      destruct (Map_set_entries _ _ _ _ H) as [->|H']; [left; left; reflexivity | right; exact H'].
Qed.

Lemma uniquePosts_entries posts p :
  In p (uniquePosts posts) -> In p posts.
Proof.
  unfold uniquePosts, Map_values, Map_new. intros Hp.
  apply in_map_iff in Hp as ([k p'] & Heq & Hin). cbn in Heq. subst p'.
  destruct (Map_new_spec (map (fun post => (post_id post, post)) posts) []) as (_ & _ & Hent).
  destruct (Hent _ Hin) as [H|[]].
  apply in_map_iff in H as (q & Hq & Hq'). congruence.
Qed.

Lemma uniquePosts_ids posts :
  map post_id (uniquePosts posts) =
  map fst (Map_new (map (fun post => (post_id post, post)) posts)).
Proof.
  unfold uniquePosts, Map_values, Map_new.
  destruct (Map_new_spec (map (fun post => (post_id post, post)) posts) []) as (_ & _ & Hent).
  cbn zeta in Hent.
  revert Hent.
  generalize (foldl (fun m kv => Map_set (fst kv) (snd kv) m) []
                (map (fun post => (post_id post, post)) posts)).
  intros m Hent. rewrite map_map.
  apply map_ext_in. intros [k p] Hin.
  destruct (Hent _ Hin) as [H|[]].
  apply in_map_iff in H as (q & Hq & _). cbn. congruence.
Qed.

(** C6 (app.js:166-176).  Whatever was fetched, from however many sources,
    the deduplicated feed holds at most one post per [id]; it holds one for
    every [id] that was fetched, and nothing that was not fetched.  So its
    length is the number of distinct [id]s fetched: two feeds that share an
    [id] contribute it once.  Sorting by date keeps it so. *)
Theorem uniquePosts_one_per_id (posts : list Post) :
  List.NoDup (map post_id (uniquePosts posts)) /\
  (forall i, In i (map post_id (uniquePosts posts)) <-> In i (map post_id posts)) /\
  (forall p, In p (uniquePosts posts) -> In p posts) /\
  length (uniquePosts posts) = size (list_to_set (map post_id posts) : gset string) /\
  (forall env, List.NoDup (map post_id (stable_sort env (uniquePosts posts)))).
Proof.
  pose proof (uniquePosts_ids posts) as Hids.
  destruct (Map_new_spec (map (fun post => (post_id post, post)) posts) []) as (Hnd & Hin & _).
  cbn zeta in *. fold (Map_new (map (fun post => (post_id post, post)) posts)) in *.
  assert (Hnodup : List.NoDup (map post_id (uniquePosts posts)))
    by (rewrite Hids; apply Hnd; constructor).
  assert (Hsame : forall i, In i (map post_id (uniquePosts posts)) <-> In i (map post_id posts)).
  { intros i. rewrite Hids, Hin, map_map. cbn. tauto. }
  split; [exact Hnodup|]. split; [exact Hsame|]. split; [apply uniquePosts_entries|].
  split.
  - rewrite <- (length_map post_id).
    rewrite <- (size_list_to_set (C := gset string)) by (apply NoDup_ListNoDup; exact Hnodup).
    f_equal. apply set_eq. intros i. rewrite !elem_of_list_to_set, !list_elem_of_In.
    apply Hsame.
  - intros env. eapply Permutation_NoDup; [|exact Hnodup].
    apply Permutation_map. symmetry. apply stable_sort_perm.
Qed.

(** ** Discovery *)

Lemma notifyListeners_run cows ls : forall s,
  js_forEach (Discovery.call_listener cows) ls s =
    (if existsb (fun l => Discovery.l_throws l cows) ls
     then Throw ListenerError else Normal tt,
     Discovery.set_notifications
       (Discovery.notifications s ++
          map (fun l => (Discovery.l_id l, cows)) (notified cows ls)) s).
Proof.
  induction ls as [|l ls IH]; intros s.
  - cbn. unfold ret. rewrite app_nil_r. destruct s; reflexivity.
  - cbn [js_forEach existsb notified]. unfold Discovery.call_listener at 1.
    unfold bind at 1. unfold bind at 1, modify at 1.
    destruct (Discovery.l_throws l cows); cbn [orb].
    + unfold throw. reflexivity.
    + unfold ret at 1. rewrite IH. cbn. rewrite <- app_assoc. reflexivity.
Qed.

(** C4, as the code has it (app.js:494-542, 560-562).  [discover()] never
    throws.  When the scan brings back at least one service, the known-peer
    set is replaced wholesale by the cows made from the scan's result, and
    the subscribers are called with that new set in registration order,
    until one of them throws, if any does; the new set is returned unless
    a subscriber threw.  When the scan brings back nothing (not a native
    platform, scan rejected, error reported, no service), the result is
    empty, the known-peer set is left as it was and nobody is notified. *)
Theorem discover_replaces_when_found (native : bool) (scan : Discovery.MdnsOutcome)
    (st : Discovery.State) :
  exists r st',
    Discovery.discover native scan st = (Normal r, st') /\
    Discovery.listeners st' = Discovery.listeners st /\
    Discovery.isDiscovering st' = (if native then false else Discovery.isDiscovering st) /\
    match scan_found native scan with
    | [] =>
        r = [] /\
        Discovery.discoveredCows st' = Discovery.discoveredCows st /\
        Discovery.notifications st' = Discovery.notifications st
    | svcs =>
        let cows := map Discovery.cow_of_service svcs in
        Discovery.discoveredCows st' = cows /\
        Discovery.notifications st' =
          Discovery.notifications st ++
            map (fun l => (Discovery.l_id l, cows)) (notified cows (Discovery.listeners st)) /\
        r = if existsb (fun l => Discovery.l_throws l cows) (Discovery.listeners st)
            then [] else cows
    end.
Proof.
  unfold Discovery.discover, scan_found.
  destruct native; cbn [negb].
  2: { exists [], st. repeat split; reflexivity. }
  unfold try_finally, try_catch, bind, modify, throw, ret, gets, Discovery.notifyListeners.
  destruct scan as [|[|] [[|svc svcs]|]]; cbn;
    try (eexists; eexists; repeat split; reflexivity).
  rewrite notifyListeners_run. cbn.
  destruct (existsb _ (Discovery.listeners st)); cbn;
    eexists; eexists; repeat split; reflexivity.
Qed.

(** ** [sortByDate] on the heap *)

Section SortInPlace.

Variable env : Env.

Lemma sortByDate_run l w :
  sortByDate env l w =
    if Nat.ltb (length (array_at l w)) 2 then (Normal l, w)
    else if existsb (fun p => bool_decide (parsedData p = DNull)) (array_at l w)
    then (Throw TypeError, w)
    else (Normal l, set_heap (<[l := stable_sort env (array_at l w)]> (heap w)) w).
Proof.
  unfold sortByDate, bind, gets, store, modify, throw, ret.
  destruct (Nat.ltb (length (array_at l w)) 2); [reflexivity|].
  destruct (existsb _ (array_at l w)); reflexivity.
Qed.

Lemma dated_not_null l :
  Forall (dated env) l ->
  existsb (fun p => bool_decide (parsedData p = DNull)) l = false.
Proof.
  induction 1 as [|p l [t Hp] _ IH]; [reflexivity|].
  cbn. rewrite IH. unfold post_time in Hp.
  destruct (parsedData p); [discriminate | reflexivity].
Qed.

Lemma array_at_set_heap_same l arr h w :
  array_at l (set_heap (<[l := arr]> h) w) = arr.
Proof. unfold array_at. cbn. rewrite lookup_insert_eq. reflexivity. Qed.

Lemma array_at_set_heap_other l l' arr w :
  l' <> l -> array_at l' (set_heap (<[l := arr]> (heap w)) w) = array_at l' w.
Proof. intros H. unfold array_at. cbn. rewrite lookup_insert_ne by congruence. reflexivity. Qed.

(** Whatever the outcome, [sortByDate] touches no field but the heap, and
    in the heap only the array it is given, of which it keeps the
    elements. *)
Lemma sortByDate_effect l w r w' :
  sortByDate env l w = (r, w') ->
  array_at l w' ≡ₚ array_at l w /\
  (array_at l w' = array_at l w \/ array_at l w' = stable_sort env (array_at l w)) /\
  (r = Normal l -> array_at l w' = stable_sort env (array_at l w)) /\
  (forall l', l' <> l -> array_at l' w' = array_at l' w) /\
  (exists h, w' = set_heap h w).
Proof.
  rewrite sortByDate_run.
  destruct (Nat.ltb (length (array_at l w)) 2) eqn:Hlen.
  - intros [= <- <-]. apply Nat.ltb_lt in Hlen.
    split; [reflexivity|]. split; [left; reflexivity|]. split; [|split].
    + intros _. symmetry. apply stable_sort_short, Hlen.
    + reflexivity.
    + exists (heap w). destruct w; reflexivity.
  - destruct (existsb _ (array_at l w)).
    + intros [= <- <-].
      split; [reflexivity|]. split; [left; reflexivity|]. split; [discriminate|].
      split; [reflexivity|]. exists (heap w). destruct w; reflexivity.
    + intros [= <- <-]. rewrite array_at_set_heap_same.
      split; [apply stable_sort_perm|]. split; [right; reflexivity|].
      split; [reflexivity|]. split; [|eexists; reflexivity].
      intros l' Hl'. apply array_at_set_heap_other, Hl'.
Qed.

End SortInPlace.

(** ** Properties kept along a computation *)

Lemma preserves_ret {A} I (a : A) : preserves I (ret a).
Proof. intros w r w' HI [= <- <-]. exact HI. Qed.

Lemma preserves_throw {A} I e : preserves I (@throw World A e).
Proof. intros w r w' HI [= <- <-]. exact HI. Qed.

Lemma preserves_gets {A} I (f : World -> A) : preserves I (gets f).
Proof. intros w r w' HI [= <- <-]. exact HI. Qed.

Lemma preserves_modify I (f : World -> World) :
  (forall w, I w -> I (f w)) -> preserves I (modify f).
Proof. intros H w r w' HI [= <- <-]. apply H, HI. Qed.

Lemma preserves_bind {A B} I (m : M World A) (k : A -> M World B) :
  preserves I m -> (forall a, preserves I (k a)) -> preserves I (bind m k).
Proof.
  intros Hm Hk w r w' HI. unfold bind.
  destruct (m w) as [[a|e] w1] eqn:Hrun.
  - apply (Hk a w1). eapply Hm; eassumption.
  - intros [= <- <-]. eapply Hm; eassumption.
Qed.

Lemma preserves_try_catch {A} I (m : M World A) h :
  preserves I m -> (forall e, preserves I (h e)) -> preserves I (try_catch m h).
Proof.
  intros Hm Hh w r w' HI. unfold try_catch.
  destruct (m w) as [[a|e] w1] eqn:Hrun.
  - intros [= <- <-]. eapply Hm; eassumption.
  - apply (Hh e w1). eapply Hm; eassumption.
Qed.

Lemma preserves_try_finally {A} I (m : M World A) f :
  preserves I m -> preserves I f -> preserves I (try_finally m f).
Proof.
  intros Hm Hf w r w' HI. unfold try_finally.
  destruct (m w) as [r1 w1] eqn:Hrun.
  destruct (f w1) as [[u|e] w2] eqn:Hfin; intros [= <- <-];
    (eapply Hf; [eapply Hm; eassumption | eassumption]).
Qed.

Lemma preserves_settle {A} I (m : M World A) :
  preserves I m -> preserves I (settle m).
Proof.
  intros Hm w r w' HI. unfold settle.
  destruct (m w) as [[a|e] w1] eqn:Hrun; intros [= <- <-]; eapply Hm; eassumption.
Qed.

Lemma preserves_js_map {A B} I (f : A -> M World B) l :
  (forall x, preserves I (f x)) -> preserves I (js_map f l).
Proof.
  intros Hf. induction l as [|x l IH]; cbn [js_map].
  - apply preserves_ret.
  - apply preserves_bind; [apply Hf|]. intros y.
    apply preserves_bind; [exact IH|]. intros ys. apply preserves_ret.
Qed.

Lemma preserves_js_filter {A} I (f : A -> M World bool) l :
  (forall x, preserves I (f x)) -> preserves I (js_filter f l).
Proof.
  intros Hf. induction l as [|x l IH]; cbn [js_filter].
  - apply preserves_ret.
  - apply preserves_bind; [apply Hf|]. intros y.
    apply preserves_bind; [exact IH|]. intros ys. apply preserves_ret.
Qed.

Lemma preserves_js_forEach {A} I (f : A -> M World unit) l :
  (forall x, preserves I (f x)) -> preserves I (js_forEach f l).
Proof.
  intros Hf. induction l as [|x l IH]; cbn [js_forEach].
  - apply preserves_ret.
  - apply preserves_bind; [apply Hf|]. intros _. exact IH.
Qed.

(** What runs after a first step [m], inside the [try] of [loadPosts]: once
    [m] has established [I], the rest, the [catch] clause and the [finally]
    clause keep it. *)
Lemma try_finally_catch_after {A B} I (m : M World A) (k : A -> M World B) h f w r1 w1 :
  m w = (r1, w1) -> I w1 ->
  (forall a, preserves I (k a)) -> (forall e, preserves I (h e)) -> preserves I f ->
  exists r w', try_finally (try_catch (bind m k) h) f w = (r, w') /\ I w'.
Proof.
  intros Hm HI Hk Hh Hf.
  destruct (try_finally (try_catch (bind m k) h) f w) as [r w'] eqn:Hrun.
  exists r, w'. split; [reflexivity|].
  revert Hrun. unfold try_finally, try_catch, bind. rewrite Hm.
  destruct r1 as [a|e].
  - destruct (k a w1) as [[b|e] w2] eqn:Hk1.
    + destruct (f w2) as [[u|e] w3] eqn:Hf1; intros [= <- <-];
        (eapply Hf; [eapply Hk; eassumption | eassumption]).
    + destruct (h e w2) as [r2 w3] eqn:Hh1.
      destruct (f w3) as [[u|e'] w4] eqn:Hf1; intros [= <- <-];
        (eapply Hf; [eapply Hh; [eapply Hk; eassumption | eassumption] | eassumption]).
  - destruct (h e w1) as [r2 w3] eqn:Hh1.
    destruct (f w3) as [[u|e'] w4] eqn:Hf1; intros [= <- <-];
      (eapply Hf; [eapply Hh; eassumption | eassumption]).
Qed.

(** ** The cache along [loadPosts] *)

Section CacheFrame.

Variable env : Env.
Variable P : list Post -> Prop.
Variable c : nat.
Variable sc : option (list Post).
Hypothesis P_sorted : forall l, P l -> P (stable_sort env l).

Abbreviation I := (cache_inv P c sc).

Lemma cache_inv_same w w' :
  I w ->
  cachedPosts w' = cachedPosts w -> next_loc w <= next_loc w' ->
  array_at c w' = array_at c w -> stored_cached w' = stored_cached w ->
  I w'.
Proof.
  unfold cache_inv. intros (Hc & Hlt & HP & Hs) -> Hn -> ->.
  repeat split; try assumption. lia.
Qed.

Ltac same :=
  let HI := fresh "HI" in
  intros ? HI; apply (cache_inv_same _ _ HI); reflexivity.

Lemma preserves_tick : preserves I tick.
Proof. apply preserves_modify. same. Qed.

Lemma preserves_await {A} (m : M World A) : preserves I m -> preserves I (await m).
Proof.
  intros Hm. unfold await. apply preserves_bind; [exact Hm|]. intros a.
  apply preserves_bind; [apply preserves_tick|]. intros _. apply preserves_ret.
Qed.

Lemma preserves_alloc posts : preserves I (alloc posts).
Proof.
  intros w r w' HI [= <- <-].
  assert (Hlt : c < next_loc w) by apply HI.
  apply (cache_inv_same _ _ HI); [reflexivity | cbn; lia | | reflexivity].
  unfold array_at. cbn. rewrite lookup_insert_ne by lia. reflexivity.
Qed.

Lemma preserves_sortByDate l : preserves I (sortByDate env l).
Proof.
  intros w r w' HI Hrun.
  destruct (sortByDate_effect env l w r w' Hrun) as (_ & Hsame & _ & Hother & (h & ->)).
  destruct HI as (Hc & Hlt & HP & Hs).
  repeat split; try assumption.
  destruct (decide (c = l)) as [->|Hne].
  - destruct Hsame as [-> | ->]; [exact HP | apply P_sorted, HP].
  - rewrite Hother by exact Hne. exact HP.
Qed.

Lemma preserves_fetchPosts cowUrl : preserves I (fetchPosts env cowUrl).
Proof.
  unfold fetchPosts. apply preserves_bind; [apply preserves_gets|]. intros dflt.
  apply preserves_try_catch; [|intros; apply preserves_ret].
  apply preserves_bind; [apply preserves_gets|]. intros t.
  apply preserves_bind; [apply preserves_modify; same|]. intros _.
  destruct (fetch_outbox env t _) as [| |[|] [[|items]|]]; cbn [negb];
    try apply preserves_throw.
  apply preserves_js_map. intros post.
  destruct (JSON_parse env (e_data post)); [apply preserves_ret | apply preserves_throw].
Qed.

Lemma preserves_Promise_all {A} (ps : list (M World A)) :
  Forall (preserves I) ps -> preserves I (Promise_all ps).
Proof.
  intros Hps. unfold Promise_all.
  apply preserves_bind.
  - induction Hps as [|m ps Hm _ IH]; cbn [js_map]; [apply preserves_ret|].
    apply preserves_bind; [apply preserves_settle, Hm|]. intros y.
    apply preserves_bind; [exact IH|]. intros ys. apply preserves_ret.
  - intros results. apply preserves_js_map.
    intros [a|e]; [apply preserves_ret | apply preserves_throw].
Qed.

Lemma preserves_download : preserves I (loadPosts_download env).
Proof.
  unfold loadPosts_download.
  apply preserves_bind; [apply preserves_await, preserves_fetchPosts|]. intros posts.
  apply preserves_bind; [apply preserves_gets|]. intros discovered.
  destruct (Nat.ltb 0 (length discovered)); [|apply preserves_ret].
  apply preserves_bind; [|intros; apply preserves_ret].
  apply preserves_await, preserves_Promise_all.
  apply Forall_forall. intros m Hm. apply list_elem_of_In, in_map_iff in Hm as (cow & <- & _).
  apply preserves_fetchPosts.
Qed.

Lemma preserves_getRootPosts posts : preserves I (getRootPosts posts).
Proof.
  unfold getRootPosts. apply preserves_js_filter. intros post.
  destruct (parsedData post); [apply preserves_throw | apply preserves_ret].
Qed.

Lemma preserves_getReplies postId posts : preserves I (getReplies postId posts).
Proof.
  unfold getReplies. apply preserves_settle, preserves_js_filter. intros post.
  destruct (parsedData post); [apply preserves_throw | apply preserves_ret].
Qed.

Lemma preserves_renderPost posts post : preserves I (renderPost posts post).
Proof.
  unfold renderPost. destruct (parsedData post) as [|data]; [apply preserves_throw|].
  apply preserves_bind; [apply preserves_getReplies|]. intros replies.
  destruct (pd_id data); try apply preserves_throw.
  apply preserves_bind; [apply preserves_gets|]. intros located.
  destruct located; [apply preserves_ret|].
  destruct (pd_latitude data), (pd_longitude data);
    first [apply preserves_ret | apply preserves_throw].
Qed.

Lemma preserves_renderPosts : preserves I renderPosts.
Proof.
  unfold renderPosts.
  apply preserves_bind; [apply preserves_gets|]. intros l.
  apply preserves_bind; [apply preserves_gets|]. intros posts.
  destruct (Nat.eqb (length posts) 0); [apply preserves_modify; same|].
  apply preserves_bind; [apply preserves_getRootPosts|]. intros rootPosts.
  apply preserves_bind; [apply preserves_js_forEach; intros; apply preserves_renderPost|].
  intros _. apply preserves_modify. same.
Qed.

Lemma preserves_from_cache : preserves I (loadPosts_from_cache env).
Proof.
  unfold loadPosts_from_cache.
  apply preserves_bind; [apply preserves_gets|]. intros cached.
  apply preserves_bind; [apply preserves_sortByDate|]. intros sorted.
  apply preserves_modify. same.
Qed.

Lemma preserves_pending : preserves I (loadPosts_pending env).
Proof.
  unfold loadPosts_pending.
  apply preserves_bind; [apply preserves_gets|]. intros pending.
  destruct (Nat.ltb 0 (length pending)); [|apply preserves_ret].
  apply preserves_bind.
  { apply preserves_js_map. intros p. unfold pendingPostForDisplay.
    destruct (JSON_parse env _); [apply preserves_ret | apply preserves_throw]. }
  intros display.
  apply preserves_bind; [apply preserves_gets|]. intros current.
  apply preserves_bind; [apply preserves_alloc|]. intros combined.
  apply preserves_bind; [apply preserves_sortByDate|]. intros sorted.
  apply preserves_modify. same.
Qed.

Lemma preserves_catch : preserves I (loadPosts_catch env).
Proof.
  unfold loadPosts_catch.
  apply preserves_bind; [apply preserves_from_cache|]. intros _.
  apply preserves_bind; [apply preserves_renderPosts|]. intros _.
  unfold showError. apply preserves_modify. same.
Qed.

(** What follows [loadPosts_fetch] inside the [try]. *)
Lemma preserves_rest :
  preserves I (loadPosts_pending env ;; renderPosts ;; updateSyncStatus).
Proof.
  apply preserves_bind; [apply preserves_pending|]. intros _.
  apply preserves_bind; [apply preserves_renderPosts|]. intros _.
  apply preserves_ret.
Qed.

Lemma preserves_set_loading b : preserves I (modify (set_loading b)).
Proof. apply preserves_modify. same. Qed.

(** Once [loadPosts_fetch] has left the cache in a state [I], that is how
    [loadPosts] leaves it. *)
Lemma loadPosts_after_fetch w r1 w1 :
  loading w = false ->
  loadPosts_fetch env (set_loading true w) = (r1, w1) -> I w1 ->
  exists r w', loadPosts env w = (r, w') /\ I w'.
Proof.
  intros Hl Hfetch HI. unfold loadPosts.
  unfold bind at 1, gets at 1. rewrite Hl.
  unfold bind at 1, modify at 1.
  eapply try_finally_catch_after; [exact Hfetch | exact HI | | |].
  - intros _. apply preserves_rest.
  - intros _. apply preserves_catch.
  - apply preserves_set_loading.
Qed.

End CacheFrame.

(** ** Downloading *)

Section Download.

Variable env : Env.

Lemma parse_batch_run {S} items (s : S) :
  js_map
    (fun post =>
       match JSON_parse env (e_data post) with
       | Some d => ret {| post_envelope := post; parsedData := d; isPending := false |}
       | None => throw SyntaxError
       end) items s =
  match parse_batch env items with
  | Some posts => (Normal posts, s)
  | None => (Throw SyntaxError, s)
  end.
Proof.
  induction items as [|post items IH]; [reflexivity|].
  cbn [js_map parse_batch]. unfold bind at 1.
  destruct (JSON_parse env (e_data post)) as [d|]; [|reflexivity].
  unfold ret at 1. unfold bind at 1. rewrite IH.
  destruct (parse_batch env items); reflexivity.
Qed.

(** [fetchPosts] never throws: any failure, a malformed envelope in the
    batch included, makes it return the empty array. *)
Lemma fetchPosts_run cowUrl w :
  fetchPosts env cowUrl w =
    (Normal (fetched env (clock w) (or_defaultCow cowUrl (defaultCow w))),
     set_requests (requests w ++ [ReqGet (or_defaultCow cowUrl (defaultCow w))]) w).
Proof.
  unfold fetchPosts, fetched, try_catch. unfold bind at 1, gets at 1.
  unfold bind at 1, gets at 1. unfold bind at 1, modify at 1.
  cbn [clock set_requests].
  destruct (fetch_outbox env (clock w) _) as [| |[|] [[|items]|]]; try reflexivity.
  cbn [negb]. rewrite parse_batch_run.
  destruct (parse_batch env items); reflexivity.
Qed.

Lemma Promise_all_fetch_run w0 cows : forall w,
  clock w = clock w0 -> defaultCow w = defaultCow w0 ->
  js_map settle (map (fun cow => fetchPosts env (Some cow)) cows) w =
    (Normal (map (fun cow => Fulfilled (fetched env (clock w0) (url_of w0 cow))) cows),
     set_requests (requests w ++ map (fun cow => ReqGet (url_of w0 cow)) cows) w).
Proof.
  induction cows as [|cow cows IH]; intros w Hc Hd.
  - cbn. unfold ret. rewrite app_nil_r. destruct w; reflexivity.
  - cbn [map js_map].
    rewrite (bind_normal _ _ _ _ _ (settle_normal _ _ _ _ (fetchPosts_run (Some cow) w))).
    rewrite (bind_normal _ _ _ _ _
      (IH (set_requests (requests w ++ [ReqGet (or_defaultCow (Some cow) (defaultCow w))]) w)
          Hc Hd)).
    unfold ret, url_of. rewrite Hc, Hd. cbn.
    rewrite <- app_assoc. reflexivity.
Qed.

Lemma unwrap_fulfilled {S A} (l : list A) (s : S) :
  js_map (fun r => match r with Fulfilled a => ret a | Rejected e => throw e end)
    (map Fulfilled l) s = (Normal l, s).
Proof.
  induction l as [|a l IH]; [reflexivity|].
  cbn [map js_map]. unfold bind at 1, ret at 1. unfold bind at 1. rewrite IH. reflexivity.
Qed.

Lemma Promise_all_run w cows :
  Promise_all (map (fun cow => fetchPosts env (Some cow)) cows) w =
    (Normal (map (fun cow => fetched env (clock w) (url_of w cow)) cows),
     set_requests (requests w ++ map (fun cow => ReqGet (url_of w cow)) cows) w).
Proof.
  unfold Promise_all.
  rewrite (bind_normal _ _ _ _ _ (Promise_all_fetch_run w cows w eq_refl eq_refl)).
  rewrite <- (map_map (fun cow => fetched env (clock w) (url_of w cow)) Fulfilled).
  apply unwrap_fulfilled.
Qed.

Lemma download_run w :
  loadPosts_download env w = (Normal (fetched_all env w), after_download w).
Proof.
  unfold loadPosts_download, fetched_all, after_download, await.
  rewrite (bind_normal _ _ _ _ _ (bind_normal _ _ _ _ _ (fetchPosts_run None w))).
  unfold bind at 1, tick, modify. unfold ret at 1.
  unfold bind at 1, gets at 1. cbn [discoveredCows set_clock set_requests or_defaultCow].
  destruct (Nat.ltb 0 (length (discoveredCows w))) eqn:Hd.
  - rewrite (bind_normal _ _ _ _ _ (Promise_all_run _ (discoveredCows w))).
    unfold bind, ret. cbn. rewrite <- app_assoc. reflexivity.
  - destruct (discoveredCows w); [|discriminate]. cbn. rewrite app_nil_r. reflexivity.
Qed.

Lemma saveCachedPosts_run posts w :
  saveCachedPosts env posts w =
    (Normal tt,
     let allocated :=
       set_next_loc (S (next_loc w))
         (set_heap (<[next_loc w := take 100 (array_at posts w)]> (heap w)) w) in
     if setItem_throws env (clock w) then allocated
     else
       set_cachedPosts (next_loc w)
         (set_stored_cached (Some (take 100 (array_at posts w))) allocated)).
Proof.
  unfold saveCachedPosts, try_catch, bind, gets, alloc, setItem_cached, modify, ret.
  cbn. destruct (setItem_throws env (clock w)); reflexivity.
Qed.

End Download.

(** ** Sorting in place, and the cache *)

Section InPlace.

Variable env : Env.

Lemma sortByDate_dated l w :
  Forall (dated env) (array_at l w) ->
  exists w',
    sortByDate env l w = (Normal l, w') /\
    array_at l w' = stable_sort env (array_at l w) /\
    (forall l', l' <> l -> array_at l' w' = array_at l' w) /\
    (exists h, w' = set_heap h w).
Proof.
  intros Hd.
  destruct (sortByDate env l w) as [r w'] eqn:Hrun.
  assert (Hr : r = Normal l).
  { rewrite sortByDate_run, (dated_not_null env _ Hd) in Hrun.
    destruct (Nat.ltb _ 2); congruence. }
  subst r. exists w'. split; [reflexivity|].
  destruct (sortByDate_effect env l w _ w' Hrun) as (_ & _ & Hs & Ho & Hh).
  auto.
Qed.

Lemma from_cache_sorts w :
  Forall (dated env) (array_at (cachedPosts w) w) ->
  cachedPosts w < next_loc w ->
  exists w1,
    loadPosts_from_cache env w = (Normal tt, w1) /\
    cache_inv (fun l => l = stable_sort env (array_at (cachedPosts w) w))
      (cachedPosts w) (stored_cached w) w1.
Proof.
  intros Hd Hlt.
  destruct (sortByDate_dated (cachedPosts w) w Hd) as (w' & Hrun & Hs & _ & (h & ->)).
  eexists. split.
  - unfold loadPosts_from_cache. unfold bind at 1, gets at 1.
    rewrite (bind_normal _ _ _ _ _ Hrun). reflexivity.
  - repeat split; try assumption.
Qed.

End InPlace.

(** C10 (openherd.js:330-336, app.js:174-179).  On posts with valid dates,
    [sortByDate] returns the very array object it was given: the object now
    holds the same posts, newest first, no array is created and no other
    array changes.  So when [loadPosts] falls back to the cache (offline, or
    online with nothing fetched), [this.cachedPosts] is still the same
    object and its contents have been reordered by date. *)
Theorem sortByDate_sorts_in_place (env : Env) (posts : nat) (w : World) :
  Forall (dated env) (array_at posts w) ->
  (exists w',
     sortByDate env posts w = (Normal posts, w') /\
     array_at posts w' ≡ₚ array_at posts w /\
     StronglySorted (newest_first env) (array_at posts w') /\
     next_loc w' = next_loc w /\
     (forall l, l <> posts -> array_at l w' = array_at l w)) /\
  (Forall (dated env) (array_at (cachedPosts w) w) ->
   cachedPosts w < next_loc w ->
   loading w = false ->
   navigator_onLine env (clock w) && Nat.ltb 0 (length (uniquePosts (fetched_all env w))) = false ->
   exists r w',
     loadPosts env w = (r, w') /\
     cachedPosts w' = cachedPosts w /\
     array_at (cachedPosts w) w' = stable_sort env (array_at (cachedPosts w) w) /\
     array_at (cachedPosts w) w' ≡ₚ array_at (cachedPosts w) w /\
     StronglySorted (newest_first env) (array_at (cachedPosts w) w')).
Proof.
  intros Hd. split.
  - destruct (sortByDate_dated env posts w Hd) as (w' & Hrun & Hs & Ho & (h & ->)).
    eexists. split; [exact Hrun|]. rewrite Hs.
    split; [apply stable_sort_perm|]. split; [apply stable_sort_sorted, Hd|].
    split; [reflexivity | exact Ho].
  - clear Hd. intros Hd Hlt Hl Hfall.
    set (arr := array_at (cachedPosts w) w) in *.
    set (I := cache_inv (fun l => l = stable_sort env arr) (cachedPosts w) (stored_cached w)).
    assert (Hfetch : exists r1 w1, loadPosts_fetch env (set_loading true w) = (r1, w1) /\ I w1).
    { unfold loadPosts_fetch, isOnline. unfold bind at 1, gets at 1.
      cbn [clock set_loading].
      destruct (navigator_onLine env (clock w)) eqn:Hon.
      - cbn [andb] in Hfall.
        rewrite (bind_normal _ _ _ _ _ (download_run env (set_loading true w))).
        change (fetched_all env (set_loading true w)) with (fetched_all env w).
        unfold bind at 1, alloc at 1. rewrite Hfall.
        match goal with |- context [loadPosts_from_cache env ?w2] =>
          destruct (from_cache_sorts env w2) as (w1 & Hrun & HI) end.
        + unfold array_at. cbn.
          rewrite lookup_insert_ne by lia. exact Hd.
        + cbn. lia.
        + exists (Normal tt), w1. split; [exact Hrun|].
          revert HI. unfold I, arr, array_at. cbn.
          rewrite lookup_insert_ne by lia. trivial.
      - destruct (from_cache_sorts env (set_loading true w) Hd Hlt) as (w1 & Hrun & HI).
        exists (Normal tt), w1. split; [exact Hrun | exact HI]. }
    destruct Hfetch as (r1 & w1 & Hfetch & HI).
    assert (Hclosed : forall l, l = stable_sort env arr ->
                        stable_sort env l = stable_sort env arr)
      by (intros l ->; apply stable_sort_idem, Hd).
    destruct (loadPosts_after_fetch env (fun l => l = stable_sort env arr)
                (cachedPosts w) (stored_cached w) Hclosed w r1 w1 Hl Hfetch HI)
      as (r & w' & Hrun & (Hc & _ & HP & _)).
    exists r, w'. split; [exact Hrun|]. split; [exact Hc|].
    split; [exact HP|]. rewrite HP.
    split; [apply stable_sort_perm | apply stable_sort_sorted, Hd].
Qed.

(** ** The cached snapshot *)

Section Snapshot.

Variable env : Env.

Lemma perm_sorted (arr : list Post) l : l ≡ₚ arr -> stable_sort env l ≡ₚ arr.
Proof. intros H. rewrite stable_sort_perm. exact H. Qed.

(** How [loadPosts_fetch] leaves the cache. *)
Lemma loadPosts_fetch_cache w0 :
  cachedPosts w0 < next_loc w0 ->
  let U := uniquePosts (fetched_all env w0) in
  exists r1 w1,
    loadPosts_fetch env w0 = (r1, w1) /\
    if navigator_onLine env (clock w0) && Nat.ltb 0 (length U) &&
       negb (setItem_throws env (clock (after_download w0)))
    then cache_inv (fun l => l ≡ₚ take 100 U) (S (next_loc w0)) (Some (take 100 U)) w1
    else cache_inv (fun l => l ≡ₚ array_at (cachedPosts w0) w0)
           (cachedPosts w0) (stored_cached w0) w1.
Proof.
  intros Hlt U.
  set (I := cache_inv (fun l => l ≡ₚ array_at (cachedPosts w0) w0)
              (cachedPosts w0) (stored_cached w0)).
  assert (HI0 : I w0) by (repeat split; [exact Hlt | reflexivity]).
  destruct (loadPosts_fetch env w0) as [r1 w1] eqn:Hrun.
  exists r1, w1. split; [reflexivity|].
  revert Hrun. unfold loadPosts_fetch, isOnline. unfold bind at 1, gets at 1.
  destruct (navigator_onLine env (clock w0)) eqn:Hon; cbn [andb].
  2: { intros Hrun. eapply preserves_from_cache; [apply perm_sorted | exact HI0 | exact Hrun]. }
  rewrite (bind_normal _ _ _ _ _ (download_run env w0)).
  unfold bind at 1, alloc at 1. fold U.
  set (w2 := set_next_loc _ _).
  assert (HI2 : I w2).
  { apply (cache_inv_same _ _ _ _ _ HI0); [reflexivity | cbn; lia | | reflexivity].
    unfold array_at. cbn. rewrite lookup_insert_ne by lia. reflexivity. }
  destruct (Nat.ltb 0 (length U)) eqn:HU; cbn [andb].
  2: { intros Hrun. eapply preserves_from_cache; [apply perm_sorted | exact HI2 | exact Hrun]. }
  rewrite (bind_normal _ _ _ _ _ (saveCachedPosts_run env _ w2)).
  cbn zeta.
  change (clock w2) with (clock (after_download w0)).
  change (next_loc w2) with (S (next_loc w0)).
  assert (Hsrc : array_at (next_loc (after_download w0)) w2 = U)
    by (unfold array_at; cbn; rewrite lookup_insert_eq; reflexivity).
  rewrite Hsrc.
  destruct (setItem_throws env (clock (after_download w0))); cbn [negb].
  - intros Hrun.
    apply (preserves_bind I _ _ (preserves_sortByDate env _ _ _ (perm_sorted _) _)
             (fun sorted => preserves_modify I (set_app_posts sorted)
                (fun w HI => cache_inv_same _ _ _ _ _ HI eq_refl (le_n _) eq_refl eq_refl))
             _ _ _) in Hrun; [exact Hrun|].
    apply (cache_inv_same _ _ _ _ _ HI2); [reflexivity | cbn; lia | | reflexivity].
    unfold array_at. cbn. rewrite lookup_insert_ne by lia. reflexivity.
  - intros Hrun.
    set (I' := cache_inv (fun l => l ≡ₚ take 100 U) (S (next_loc w0)) (Some (take 100 U))).
    apply (preserves_bind I' _ _ (preserves_sortByDate env _ _ _ (perm_sorted _) _)
             (fun sorted => preserves_modify I' (set_app_posts sorted)
                (fun w HI => cache_inv_same _ _ _ _ _ HI eq_refl (le_n _) eq_refl eq_refl))
             _ _ _) in Hrun; [exact Hrun|].
    repeat split; cbn; [lia|].
    unfold array_at. cbn. rewrite lookup_insert_eq. reflexivity.
Qed.

End Snapshot.


(** ** Loading the feed *)

Section LoadFeed.

Variable env : Env.

Lemma displayable_not_null l :
  Forall displayable l ->
  existsb (fun p => bool_decide (parsedData p = DNull)) l = false.
Proof.
  induction 1 as [|p l Hp _ IH]; [reflexivity|].
  cbn. rewrite IH. unfold displayable in Hp.
  destruct (parsedData p); [destruct Hp | reflexivity].
Qed.

Lemma sortByDate_ok l w :
  Forall displayable (array_at l w) ->
  exists h,
    sortByDate env l w = (Normal l, set_heap h w) /\
    array_at l (set_heap h w) = stable_sort env (array_at l w) /\
    (forall l', l' <> l -> array_at l' (set_heap h w) = array_at l' w).
Proof.
  intros Hd.
  destruct (sortByDate env l w) as [r w'] eqn:Hrun.
  assert (Hr : r = Normal l).
  { rewrite sortByDate_run, (displayable_not_null _ Hd) in Hrun.
    destruct (Nat.ltb _ 2); congruence. }
  subst r.
  destruct (sortByDate_effect env l w _ w' Hrun) as (_ & _ & Hs & Ho & (h & ->)).
  exists h. auto.
Qed.

Lemma from_cache_ok w :
  Forall displayable (array_at (cachedPosts w) w) ->
  exists h,
    loadPosts_from_cache env w = (Normal tt, set_app_posts (cachedPosts w) (set_heap h w)) /\
    array_at (cachedPosts w) (set_heap h w) = stable_sort env (array_at (cachedPosts w) w) /\
    (forall l', l' <> cachedPosts w -> array_at l' (set_heap h w) = array_at l' w).
Proof.
  intros Hd. destruct (sortByDate_ok _ w Hd) as (h & Hrun & Hs & Ho).
  exists h. split; [|auto].
  unfold loadPosts_from_cache. unfold bind at 1, gets at 1.
  rewrite (bind_normal _ _ _ _ _ Hrun). reflexivity.
Qed.

Lemma getReplies_pure {S} postId posts (s : S) :
  exists r, getReplies postId posts s = (Normal r, s).
Proof.
  unfold getReplies, settle.
  assert (H : forall l, exists r, js_filter
             (fun post => match parsedData post with
                          | DNull => throw TypeError
                          | DObject data => ret (strict_eq (pd_parent data) postId)
                          end) l s = (r, s)).
  { induction l as [|p l [r IH]]; [eexists; reflexivity|].
    cbn [js_filter]. unfold bind at 1.
    destruct (parsedData p); [eexists; reflexivity|].
    unfold ret at 1. unfold bind at 1. rewrite IH.
    destruct r; eexists; reflexivity. }
  destruct (H posts) as [[l|e] ->]; eexists; reflexivity.
Qed.

Lemma renderPost_ok posts post w :
  displayable post -> renderPost posts post w = (Normal tt, w).
Proof.
  unfold displayable, renderPost. destruct (parsedData post) as [|data]; [intros []|].
  intros ((i & Hi) & (lat & Hlat) & (lon & Hlon)).
  destruct (getReplies_pure (pd_id data) posts w) as [r Hr].
  rewrite (bind_normal _ _ _ _ _ Hr), Hi, Hlat, Hlon.
  unfold bind, gets, ret. destruct (hasLocation w); reflexivity.
Qed.

Lemma render_each_ok posts roots w :
  Forall displayable roots -> js_forEach (renderPost posts) roots w = (Normal tt, w).
Proof.
  induction 1 as [|p roots Hp _ IH]; [reflexivity|].
  cbn [js_forEach]. rewrite (bind_normal _ _ _ _ _ (renderPost_ok posts p w Hp)). exact IH.
Qed.

Lemma getRootPosts_ok {S} posts (s : S) :
  Forall displayable posts ->
  exists roots, getRootPosts posts s = (Normal roots, s) /\ Forall displayable roots.
Proof.
  unfold getRootPosts.
  induction 1 as [|p posts Hp _ (roots & IH & Hroots)]; [exists []; split; [reflexivity | constructor]|].
  cbn [js_filter]. unfold bind at 1.
  pose proof Hp as Hp'. unfold displayable in Hp'.
  destruct (parsedData p) as [|data]; [destruct Hp'|].
  unfold ret at 1. unfold bind at 1. rewrite IH. unfold ret.
  eexists. split; [reflexivity|].
  destruct (negb _ || _); [constructor|]; assumption.
Qed.

Lemma renderPosts_ok w :
  Forall displayable (array_at (app_posts w) w) ->
  exists roots, renderPosts w = (Normal tt, set_rendered (rendered w ++ [roots]) w).
Proof.
  intros Hd. unfold renderPosts. unfold bind at 1, gets at 1. unfold bind at 1, gets at 1.
  destruct (Nat.eqb (length (array_at (app_posts w) w)) 0); [eexists; reflexivity|].
  destruct (getRootPosts_ok (array_at (app_posts w) w) w Hd) as (roots & Hrun & Hroots).
  rewrite (bind_normal _ _ _ _ _ Hrun).
  rewrite (bind_normal _ _ _ _ _ (render_each_ok _ roots w Hroots)).
  exists roots. reflexivity.
Qed.

Lemma parse_pending_run pending (w : World) :
  js_map (pendingPostForDisplay env) pending w =
  match parse_pending env pending with
  | Some display => (Normal display, w)
  | None => (Throw SyntaxError, w)
  end.
Proof.
  induction pending as [|p pending IH]; [reflexivity|].
  cbn [js_map parse_pending]. unfold bind at 1, pendingPostForDisplay at 1.
  destruct (JSON_parse env (e_data (envelope p))) as [d|]; [|reflexivity].
  unfold ret at 1. unfold bind at 1. rewrite IH.
  destruct (parse_pending env pending); reflexivity.
Qed.

Hypothesis parse_typed : parses_to_post_data env.

Lemma parse_batch_displayable items posts :
  parse_batch env items = Some posts -> Forall displayable posts.
Proof.
  revert posts. induction items as [|post items IH]; intros posts; cbn [parse_batch].
  - intros [= <-]. constructor.
  - destruct (JSON_parse env (e_data post)) as [d|] eqn:Hd; [|discriminate].
    destruct (parse_batch env items) as [ps|]; [|discriminate].
    intros [= <-]. constructor; [|apply IH; reflexivity].
    unfold displayable. cbn. eapply parse_typed, Hd.
Qed.

Lemma parse_pending_displayable pending display :
  parse_pending env pending = Some display -> Forall displayable display.
Proof.
  revert display. induction pending as [|p pending IH]; intros display; cbn [parse_pending].
  - intros [= <-]. constructor.
  - destruct (JSON_parse env (e_data (envelope p))) as [d|] eqn:Hd; [|discriminate].
    destruct (parse_pending env pending) as [ps|]; [|discriminate].
    intros [= <-]. constructor; [|apply IH; reflexivity].
    unfold displayable. cbn. eapply parse_typed, Hd.
Qed.

Lemma fetched_displayable t url : Forall displayable (fetched env t url).
Proof.
  unfold fetched.
  destruct (fetch_outbox env t url) as [| |[|] [[|items]|]]; try constructor.
  destruct (parse_batch env items) as [posts|] eqn:Hp; [|constructor].
  apply (parse_batch_displayable _ _ Hp).
Qed.

Lemma fetched_all_displayable w : Forall displayable (fetched_all env w).
Proof.
  unfold fetched_all. apply Forall_app. split; [apply fetched_displayable|].
  apply Forall_concat, Forall_map, Forall_forall. intros cow _. apply fetched_displayable.
Qed.

Lemma uniquePosts_displayable posts :
  Forall displayable posts -> Forall displayable (uniquePosts posts).
Proof.
  intros H. apply List.Forall_forall. intros p Hp.
  apply uniquePosts_entries in Hp. rewrite List.Forall_forall in H. auto.
Qed.

Lemma stable_sort_displayable l :
  Forall displayable l -> Forall displayable (stable_sort env l).
Proof.
  intros H. eapply Permutation_Forall; [symmetry; apply stable_sort_perm | exact H].
Qed.

End LoadFeed.

Section LoadFeedRun.

Variable env : Env.
Hypothesis parse_typed : parses_to_post_data env.

(** A target that does not serve its feed contributes nothing. *)
Lemma fetched_error t url :
  ~ serves_feed env (fetch_outbox env t url) -> fetched env t url = [].
Proof.
  unfold serves_feed, fetched. intros H.
  destruct (fetch_outbox env t url) as [| |[|] [[|items]|]]; try reflexivity.
  destruct (parse_batch env items) as [posts|] eqn:Hp; [|reflexivity].
  exfalso. apply H. eauto.
Qed.

Lemma fetch_block_ok w0 :
  navigator_onLine env (clock w0) = true ->
  cachedPosts w0 < next_loc w0 ->
  Forall displayable (array_at (cachedPosts w0) w0) ->
  exists w1,
    loadPosts_fetch env w0 = (Normal tt, w1) /\
    array_at (app_posts w1) w1 = feed_base env w0 /\
    array_at (cachedPosts w1) w1 = cache_after_fetch env w0 /\
    toasts w1 = toasts w0 /\
    pendingPosts w1 = pendingPosts w0 /\
    hasLocation w1 = hasLocation w0.
Proof.
  intros Hon Hlt Hcache.
  unfold loadPosts_fetch, isOnline, feed_base, cache_after_fetch.
  unfold bind at 1, gets at 1. rewrite Hon.
  rewrite (bind_normal _ _ _ _ _ (download_run env w0)).
  unfold bind at 1, alloc at 1.
  set (U := uniquePosts (fetched_all env w0)).
  assert (HU : Forall displayable U)
    by apply uniquePosts_displayable, fetched_all_displayable, parse_typed.
  set (w2 := set_next_loc _ _).
  destruct (Nat.ltb 0 (length U)) eqn:Hne.
  - rewrite (bind_normal _ _ _ _ _ (saveCachedPosts_run env _ w2)). cbn zeta.
    change (clock w2) with (clock (after_download w0)).
    assert (Hsrc : array_at (next_loc (after_download w0)) w2 = U)
      by (unfold array_at; cbn; rewrite lookup_insert_eq; reflexivity).
    rewrite Hsrc.
    destruct (setItem_throws env (clock (after_download w0))) eqn:Hth.
    + set (w3 := set_next_loc _ _).
      destruct (sortByDate_ok env (next_loc (after_download w0)) w3) as (h & Hrun & Hs & Ho).
      { unfold array_at. cbn. rewrite lookup_insert_ne by lia.
        rewrite lookup_insert_eq. exact HU. }
      rewrite (bind_normal _ _ _ _ _ Hrun). unfold modify.
      eexists. split; [reflexivity|].
      cbn [app_posts set_app_posts cachedPosts toasts pendingPosts hasLocation set_heap].
      change (array_at ?l (set_app_posts _ ?w)) with (array_at l w).
      rewrite Hs, Ho by (cbn; lia).
      unfold array_at. cbn.
      rewrite lookup_insert_ne by lia. rewrite lookup_insert_eq.
      rewrite !lookup_insert_ne by lia. repeat split; reflexivity.
    + set (w3 := set_cachedPosts _ _).
      destruct (sortByDate_ok env (next_loc (after_download w0)) w3) as (h & Hrun & Hs & Ho).
      { unfold array_at. cbn. rewrite lookup_insert_ne by lia.
        rewrite lookup_insert_eq. exact HU. }
      rewrite (bind_normal _ _ _ _ _ Hrun). unfold modify.
      eexists. split; [reflexivity|].
      cbn [app_posts set_app_posts cachedPosts toasts pendingPosts hasLocation set_heap].
      change (array_at ?l (set_app_posts _ ?w)) with (array_at l w).
      rewrite Hs, Ho by (cbn; lia).
      unfold array_at. cbn.
      rewrite lookup_insert_ne by lia. rewrite !lookup_insert_eq.
      repeat split; reflexivity.
  - destruct (from_cache_ok env w2) as (h & Hrun & Hs & Ho).
    { unfold array_at. cbn. rewrite lookup_insert_ne by lia. exact Hcache. }
    rewrite Hrun. eexists. split; [reflexivity|].
    cbn [app_posts set_app_posts cachedPosts toasts pendingPosts hasLocation set_heap].
    change (array_at ?l (set_app_posts _ ?w)) with (array_at l w).
    rewrite Hs. unfold array_at. cbn. rewrite lookup_insert_ne by lia.
    repeat split; reflexivity.
Qed.

Lemma cache_after_fetch_displayable w :
  Forall displayable (array_at (cachedPosts w) w) ->
  Forall displayable (cache_after_fetch env w).
Proof.
  intros Hc. unfold cache_after_fetch.
  destruct (Nat.ltb 0 _); [|apply stable_sort_displayable, Hc].
  destruct (setItem_throws env _); [exact Hc|].
  apply Forall_take, uniquePosts_displayable, fetched_all_displayable, parse_typed.
Qed.

Lemma feed_base_displayable w :
  Forall displayable (array_at (cachedPosts w) w) ->
  Forall displayable (feed_base env w).
Proof.
  intros Hc. unfold feed_base.
  destruct (Nat.ltb 0 _); apply stable_sort_displayable; [|exact Hc].
  apply uniquePosts_displayable, fetched_all_displayable, parse_typed.
Qed.

Lemma pending_block_ok w1 display :
  parse_pending env (pendingPosts w1) = Some display ->
  Forall displayable (array_at (app_posts w1) w1) ->
  exists w2,
    loadPosts_pending env w1 = (Normal tt, w2) /\
    array_at (app_posts w2) w2 =
      (if Nat.ltb 0 (length (pendingPosts w1))
       then stable_sort env (display ++ array_at (app_posts w1) w1)
       else array_at (app_posts w1) w1) /\
    toasts w2 = toasts w1 /\ hasLocation w2 = hasLocation w1 /\
    rendered w2 = rendered w1.
Proof.
  intros Hparse Hcur. unfold loadPosts_pending. unfold bind at 1, gets at 1.
  destruct (Nat.ltb 0 (length (pendingPosts w1))).
  2: { exists w1. repeat split; reflexivity. }
  unfold bind at 1. rewrite parse_pending_run, Hparse.
  unfold bind at 1, gets at 1. unfold bind at 1, alloc at 1.
  set (w3 := set_next_loc _ _).
  destruct (sortByDate_ok env (next_loc w1) w3) as (h & Hrun & Hs & Ho).
  { unfold array_at at 1. cbn. rewrite lookup_insert_eq. cbn.
    apply Forall_app. split; [|exact Hcur].
    apply (parse_pending_displayable env parse_typed _ _ Hparse). }
  rewrite (bind_normal _ _ _ _ _ Hrun). unfold modify.
  eexists. split; [reflexivity|].
  cbn [app_posts set_app_posts toasts hasLocation rendered set_heap].
  change (array_at ?l (set_app_posts _ ?w)) with (array_at l w).
  rewrite Hs. unfold array_at at 1. cbn. rewrite lookup_insert_eq.
  repeat split; reflexivity.
Qed.

Lemma pending_block_throws w1 :
  parse_pending env (pendingPosts w1) = None ->
  loadPosts_pending env w1 = (Throw SyntaxError, w1).
Proof.
  intros Hparse. unfold loadPosts_pending. unfold bind at 1, gets at 1.
  destruct (pendingPosts w1) as [|p q] eqn:Hq; [discriminate|].
  cbn [length Nat.ltb Nat.leb]. unfold bind at 1.
  rewrite parse_pending_run, Hparse. reflexivity.
Qed.

Lemma catch_block_ok w :
  Forall displayable (array_at (cachedPosts w) w) ->
  exists w3,
    loadPosts_catch env w = (Normal tt, w3) /\
    array_at (app_posts w3) w3 = stable_sort env (array_at (cachedPosts w) w) /\
    toasts w3 = toasts w ++ [ToastError "Failed to load posts. Showing cached content."].
Proof.
  intros Hc. unfold loadPosts_catch.
  destruct (from_cache_ok env w Hc) as (h & Hrun & Hs & _).
  rewrite (bind_normal _ _ _ _ _ Hrun).
  destruct (renderPosts_ok (set_app_posts (cachedPosts w) (set_heap h w))) as (roots & Hr).
  { cbn [app_posts set_app_posts].
    change (array_at ?l (set_app_posts _ ?w)) with (array_at l w).
    rewrite Hs. apply stable_sort_displayable, Hc. }
  rewrite (bind_normal _ _ _ _ _ Hr). unfold showError, modify.
  eexists. split; [reflexivity|]. cbn [app_posts set_toasts toasts set_rendered set_app_posts].
  split; [|reflexivity]. exact Hs.
Qed.

End LoadFeedRun.

Lemma feed_base_source env w : feed_base env w ≡ₚ feed_source env w.
Proof.
  unfold feed_base, feed_source. destruct (Nat.ltb 0 _); apply stable_sort_perm.
Qed.

Lemma cache_after_fetch_source env w : cache_after_fetch env w ≡ₚ cache_source env w.
Proof.
  unfold cache_after_fetch, cache_source.
  destruct (Nat.ltb 0 _); [reflexivity | apply stable_sort_perm].
Qed.

(** A sorted array whose dates are all valid is in order. *)
Lemma sorted_when_dated env l :
  Forall (dated env) (stable_sort env l) ->
  StronglySorted (newest_first env) (stable_sort env l).
Proof.
  intros Hd. apply stable_sort_sorted.
  eapply Permutation_Forall; [apply stable_sort_perm | exact Hd].
Qed.

Lemma feed_base_sorted env w :
  Forall (dated env) (feed_base env w) ->
  StronglySorted (newest_first env) (feed_base env w).
Proof. unfold feed_base. destruct (Nat.ltb 0 _); apply sorted_when_dated. Qed.


(* ================================================================== *)
(** * The statements on the scenarios *)

Lemma barn_env_parses online : parses_to_post_data (barn_env online).
Proof.
  intros s d. cbn.
  destruct (String.eqb s "b2"); [intros [= <-]; cbn; repeat split; eexists; reflexivity|].
  destruct (String.eqb s "c3"); [intros [= <-]; cbn; repeat split; eexists; reflexivity|].
  discriminate.
Qed.

Lemma cached_feed_displayable : Forall displayable cached_feed.
Proof. repeat constructor; eexists; reflexivity. Qed.

Lemma cached_feed_dated online : Forall (dated (barn_env online)) cached_feed.
Proof. repeat constructor; eexists; reflexivity. Qed.

Lemma cached_feed_parents : Forall parent_typed cached_feed.
Proof.
  constructor; [split; [discriminate | left; reflexivity]|].
  constructor; [|constructor].
  split; [discriminate|]. right. right. exists "a1". split; [reflexivity | discriminate].
Qed.

Lemma barn_answers_typed e :
  forall cow, In cow (targets (barn_world [])) ->
    ok_is_boolean (inbox_outcome (barn_env true) e (barn_world []) cow).
Proof.
  intros cow [<-|[<-|[]]]; cbn; eauto.
Qed.

(** C1 on the queue [three_pending]: each envelope goes to both targets,
    and the pass leaves a queue in which every entry has attempts left. *)
Lemma syncPendingPosts_bounded_retry_witness :
  exists w',
    syncPendingPosts (barn_env true) (barn_world three_pending) =
      (Normal {| success := 1; failed := 2 |}, w') /\
    requests w' =
      concat (map (fun p => fanout_requests (envelope p) (barn_world three_pending))
                three_pending) /\
    pendingPosts w' = [pending_entry "y7" 1] /\
    Forall (fun p => attempts p < 5) (pendingPosts w').
Proof.
  destruct (syncPendingPosts_bounded_retry (barn_env true) (barn_world three_pending))
    as (w' & Hrun & Hreq & _ & Hq & Hbudget & _).
  - discriminate.
  - reflexivity.
  - exists w'. split; [exact Hrun|]. split; [exact Hreq|].
    split; [exact Hq | exact Hbudget].
Defined.

(** C2 on the barn scenario. *)
Lemma broadcastPost_counts_ok_true_witness :
  exists n w',
    broadcastPost (barn_env true) (mk_envelope "b2") false (barn_world []) = (Normal n, w') /\
    n = length (List.filter
                  (fun cow => returned_ok_true
                     (inbox_outcome (barn_env true) (mk_envelope "b2") (barn_world []) cow))
                  (targets (barn_world []))).
Proof.
  destruct (broadcastPost_counts_ok_true (barn_env true) (mk_envelope "b2") false (barn_world []))
    as (n & w' & Hrun & Hn & _).
  - reflexivity.
  - apply barn_answers_typed.
  - exists n, w'. split; [exact Hrun | exact Hn].
Defined.

(** C3 on the barn scenario, offline. *)
Lemma broadcastPost_offline_enqueues_witness :
  exists w',
    broadcastPost (barn_env false) (mk_envelope "x9") true (barn_world []) = (Normal 0, w') /\
    requests w' = [] /\
    length (pendingPosts w') = 1.
Proof.
  destruct (broadcastPost_offline_enqueues (barn_env false) (mk_envelope "x9") (barn_world []))
    as (w' & Hrun & Hreq & _ & Hlen & _).
  - reflexivity.
  - exists w'. split; [exact Hrun|]. split; [exact Hreq | exact Hlen].
Defined.


(** C7 on the queue [three_pending], offline. *)
Lemma syncPendingPosts_offline_untouched_witness :
  syncPendingPosts (barn_env false) (barn_world three_pending) =
    (Normal {| success := 0; failed := 3 |}, barn_world three_pending).
Proof.
  apply (syncPendingPosts_offline_untouched (barn_env false) (barn_world three_pending)).
  - discriminate.
  - reflexivity.
Defined.

(** C8 on the cached feed: [a1] is the root, [c3] its reply. *)
Lemma roots_and_replies_exact_witness :
  getRootPosts cached_feed tt = (Normal [mk_post "a1" 100 JUndefined], tt) /\
  getReplies (JStr "a1") cached_feed tt =
    (Normal (Fulfilled [mk_post "c3" 300 (JStr "a1")]), tt).
Proof.
  exact (roots_and_replies_exact cached_feed "a1" tt cached_feed_parents).
Defined.


(** C10 on the cached feed, offline. *)
Lemma sortByDate_sorts_in_place_witness :
  (exists w',
     sortByDate (barn_env false) 0 (barn_world []) = (Normal 0, w') /\
     StronglySorted (newest_first (barn_env false)) (array_at 0 w')) /\
  (exists r w',
     loadPosts (barn_env false) (barn_world []) = (r, w') /\
     cachedPosts w' = 0 /\
     array_at 0 w' = stable_sort (barn_env false) cached_feed).
Proof.
  destruct (sortByDate_sorts_in_place (barn_env false) 0 (barn_world []))
    as ((w' & Hrun & _ & Hsorted & _) & Hload).
  - exact (cached_feed_dated false).
  - split; [exists w'; split; [exact Hrun | exact Hsorted]|].
    destruct Hload as (r & w2 & Hrun2 & Hc & Hs & _).
    + exact (cached_feed_dated false).
    + cbn. lia.
    + reflexivity.
    + reflexivity.
    + exists r, w2. split; [exact Hrun2|]. split; [exact Hc | exact Hs].
Defined.

(** C1, read for every state of the queue, fails: an entry that is in the
    queue with [attempts = 5] is retried once more, its envelope goes to
    both targets. *)
Lemma exhausted_entry_is_retried_once_more : ~ exhausted_entries_are_not_retried.
Proof.
  intros H.
  destruct (syncPendingPosts (barn_env true) (barn_world [pending_entry "z5" 5]))
    as [r w'] eqn:Hrun.
  apply (H (barn_env true) (barn_world [pending_entry "z5" 5]) r w' (pending_entry "z5" 5) Hrun).
  - left. reflexivity.
  - cbn. lia.
  - vm_compute in Hrun. injection Hrun as _ <-. left. reflexivity.
Qed.

(** C4, read for every scan that completes, fails: a scan that finds no
    service returns the empty list while the cow known before stays known
    and the subscriber hears nothing. *)
Lemma discover_empty_scan_keeps_known_cows : ~ discover_always_replaces_and_notifies.
Proof.
  intros H.
  destruct (H [] subscribed (Normal []) (Discovery.set_isDiscovering false subscribed) eq_refl)
    as (_ & Hcows & _).
  discriminate Hcows.
Qed.


(* ================================================================== *)
(** * Worked examples *)

(** A pass over [three_pending]: [b2] is delivered, [x9] fails its fifth
    attempt and is dropped, [y7] fails its first and stays. *)
Example sync_three_pending :
  let '(r, w') := syncPendingPosts (barn_env true) (barn_world three_pending) in
  r = Normal {| success := 1; failed := 2 |} /\
  pendingPosts w' = [pending_entry "y7" 1] /\
  stored_pending w' = Some [pending_entry "y7" 1] /\
  length (requests w') = 6.
Proof. vm_compute. repeat split; reflexivity. Qed.

(** Offline, two broadcasts with the enqueue flag leave two entries, each
    with [attempts = 0]. *)
Example offline_broadcast_twice :
  let '(_, w1) := broadcastPost (barn_env false) (mk_envelope "x9") true (barn_world []) in
  let '(r, w2) := broadcastPost (barn_env false) (mk_envelope "y7") true w1 in
  r = Normal 0 /\ map attempts (pendingPosts w2) = [0; 0] /\ requests w2 = [].
Proof. vm_compute. repeat split; reflexivity. Qed.

(** A queue of one deliverable entry is emptied. *)
Example sync_delivers :
  let '(r, w') := syncPendingPosts (barn_env true) (barn_world [pending_entry "b2" 0]) in
  r = Normal {| success := 1; failed := 0 |} /\ pendingPosts w' = [].
Proof. vm_compute. split; reflexivity. Qed.

(** The primary serves one post, a discovered peer the same post and a new
    one: two posts remain. *)
Example merge_two_feeds :
  uniquePosts ([mk_post "a1" 100 JNull] ++ [mk_post "a1" 100 JNull; mk_post "c3" 300 JNull]) =
    [mk_post "a1" 100 JNull; mk_post "c3" 300 JNull].
Proof. reflexivity. Qed.

(** Online, the feed of the barn scenario is what the barn served; the
    array that became the cache is another object than the feed. *)
Example load_barn_feed :
  let '(r, w') := loadPosts (barn_env true) (barn_world []) in
  r = Normal tt /\
  array_at (app_posts w') w' = [mk_post "b2" 200 JNull] /\
  array_at (cachedPosts w') w' = [mk_post "b2" 200 JNull] /\
  app_posts w' <> cachedPosts w' /\
  toasts w' = [] /\
  requests w' = [ReqGet primary_url; ReqGet barn_url].
Proof. vm_compute. repeat split; try reflexivity. discriminate. Qed.

(** Offline, the feed is the cache itself, reordered. *)
Example load_offline_sorts_cache :
  let '(r, w') := loadPosts (barn_env false) (barn_world []) in
  r = Normal tt /\
  app_posts w' = cachedPosts w' /\
  array_at (cachedPosts w') w' = [mk_post "c3" 300 (JStr "a1"); mk_post "a1" 100 JUndefined] /\
  stored_cached w' = Some cached_feed.
Proof. vm_compute. repeat split; reflexivity. Qed.

(** A pending entry whose [data] does not parse: the sorted cache is shown
    together with the error message. *)
Example load_unparsable_pending :
  let '(r, w') := loadPosts (barn_env true) (barn_world [pending_entry "x9" 0]) in
  r = Normal tt /\
  array_at (app_posts w') w' = [mk_post "b2" 200 JNull] /\
  toasts w' = [ToastError "Failed to load posts. Showing cached content."].
Proof. vm_compute. repeat split; reflexivity. Qed.

(** Outside the data model: an envelope whose [data] is [null] is kept by
    the merge and stored in the cache; sorting then throws, in the [try] and
    again in the [catch] clause, and [loadPosts] throws. *)
Example load_null_data_throws :
  let '(r, w') := loadPosts null_data_env (barn_world []) in
  r = Throw TypeError /\
  map post_id (array_at (cachedPosts w') w') = ["n0"; "b2"] /\
  loading w' = false /\ toasts w' = [].
Proof. vm_compute. repeat split; reflexivity. Qed.

(** Outside the data model: a falsy [parent] that is neither absent nor
    null, such as the empty string, makes a root post as well. *)
Example empty_parent_is_root :
  getRootPosts [mk_post "a1" 100 (JStr ""); mk_post "c3" 300 (JStr "a1")] tt =
    (Normal [mk_post "a1" 100 (JStr "")], tt).
Proof. reflexivity. Qed.

(** Outside the wire protocol: a truthy [ok] that is not [true] counts. *)
Example truthy_ok_counts :
  fulfilled_and_truthy (Fulfilled (submission_value
    (HttpResponse true (Some (ReplyObject (JNum 1)))))) = true.
Proof. reflexivity. Qed.

(** A scan that finds the shed replaces the known cows and tells the
    subscriber. *)
Example discover_finds_shed :
  let '(r, st') :=
    Discovery.discover true (Discovery.ScanResult false (Some [shed_service])) subscribed in
  r = Normal (Discovery.discoveredCows st') /\
  map Discovery.url (Discovery.discoveredCows st') = ["http://192.168.1.7:3000"] /\
  Discovery.notifications st' = [(1, Discovery.discoveredCows st')].
Proof. vm_compute. repeat split; reflexivity. Qed.

(** A scan that is rejected leaves everything as it was. *)
Example discover_rejected :
  Discovery.discover true Discovery.ScanRejected subscribed = (Normal [], subscribed).
Proof. reflexivity. Qed.

(** The pending entries are put in front of the deduplicated feed as they
    are: an envelope that waits in the queue and is also served by a peer
    shows twice, once flagged as pending. *)
Example pending_shown_next_to_fetched :
  let '(r, w') := loadPosts (barn_env true) (barn_world [pending_entry "b2" 0]) in
  r = Normal tt /\
  map post_id (array_at (app_posts w') w') = ["b2"; "b2"] /\
  map isPending (array_at (app_posts w') w') = [true; false].
Proof. vm_compute. repeat split; reflexivity. Qed.

(* ================================================================== *)
(** * Further properties *)

(** ** Broadcasting *)


(** X2 (openherd.js:261-283).  Without the enqueue flag, a broadcast never
    throws and touches nothing but the network: the state afterwards is the
    state before, up to the request log and the time that has passed.
    Offline it sends nothing and returns 0 at once; online it submits the
    envelope once to every target, the primary first, and returns the number
    of targets that accepted it. *)
Theorem broadcastPost_without_flag_only_sends (env : Env) (e : Envelope) (w : World) :
  exists n t sent,
    broadcastPost env e false w =
      (Normal n, set_clock t (set_requests (requests w ++ sent) w)) /\
    if navigator_onLine env (clock w)
    then sent = fanout_requests e w /\ n = accepted_count env e w /\ t = S (clock w)
    else sent = [] /\ n = 0 /\ t = clock w.
Proof.
  destruct (navigator_onLine env (clock w)) eqn:Hon.
  - exists (accepted_count env e w), (S (clock w)), (fanout_requests e w).
    split; [|repeat split].
    rewrite (broadcastPost_online_run env e false w Hon), andb_false_r. reflexivity.
  - exists 0, (clock w), []. split; [|repeat split].
    rewrite (broadcastPost_offline_run env e false w Hon), app_nil_r.
    destruct w; reflexivity.
Qed.

(** ** Reconciling *)

Lemma survivors_length queue : forall rounds,
  length (survivors queue rounds) <=
  length (List.filter (fun r : nat * list Request => Nat.eqb (fst r) 0) rounds).
Proof.
  induction queue as [|p queue IH]; intros [|r rounds]; try (cbn; lia).
  rewrite survivors_cons, length_app. cbn [List.filter].
  specialize (IH rounds). unfold kept. cbn [fst snd].
  destruct (Nat.eqb (fst r) 0); cbn [andb length]; [|lia].
  destruct (Nat.ltb _ 5); cbn [length]; lia.
Qed.

Lemma rounds_split (rounds : list (nat * list Request)) :
  length (List.filter (fun r => Nat.ltb 0 (fst r)) rounds) +
  length (List.filter (fun r => Nat.eqb (fst r) 0) rounds) = length rounds.
Proof.
  induction rounds as [|r rounds IH]; [reflexivity|].
  cbn [List.filter]. destruct (fst r); cbn in *; lia.
Qed.

Lemma idle_rounds_counts (queue : list PendingEntry) :
  let rounds := map (fun _ => (0, @nil Request)) queue in
  length (List.filter (fun r : nat * list Request => Nat.ltb 0 (fst r)) rounds) = 0 /\
  length (List.filter (fun r : nat * list Request => Nat.eqb (fst r) 0) rounds) = length queue /\
  concat (map snd rounds) = [] /\
  Forall (fun r => fst r = 0) rounds /\
  forall w, Forall2 (retry_round w) queue rounds.
Proof.
  induction queue as [|p queue (IH1 & IH2 & IH3 & IH4 & IH5)].
  - repeat split; constructor.
  - cbn in *. split; [exact IH1|]. split; [f_equal; exact IH2|].
    split; [exact IH3|]. split; [constructor; [reflexivity | exact IH4]|].
    intros w. constructor; [left; split; reflexivity | apply IH5].
Qed.

(** The result of [syncPendingPosts], what it sends and the queue it
    leaves, whatever the connectivity. *)
Lemma syncPendingPosts_run env w :
  exists rounds w',
    syncPendingPosts env w =
      (Normal {| success := length (List.filter (fun r => Nat.ltb 0 (fst r)) rounds);
                 failed := length (List.filter (fun r => Nat.eqb (fst r) 0) rounds) |},
       w') /\
    length rounds = length (pendingPosts w) /\
    (pendingPosts w' = pendingPosts w /\ stored_pending w' = stored_pending w /\
       Forall (fun r => fst r = 0) rounds \/
     pendingPosts w' = survivors (pendingPosts w) rounds /\
       stored_pending w' =
         (if setItem_throws env (clock w') then stored_pending w
          else Some (pendingPosts w'))) /\
    Forall2 (retry_round w) (pendingPosts w) rounds /\
    requests w' = requests w ++ concat (map snd rounds).
Proof.
  unfold syncPendingPosts, isOnline.
  unfold bind at 1, gets at 1.
  destruct (Nat.eqb (length (pendingPosts w)) 0) eqn:Hlen.
  { exists [], w. apply Nat.eqb_eq in Hlen. rewrite Hlen.
    split; [reflexivity|]. split; [reflexivity|].
    split; [left; repeat constructor|].
    destruct (pendingPosts w); [|discriminate].
    split; [constructor | cbn; rewrite app_nil_r; reflexivity]. }
  unfold bind at 1, gets at 1.
  destruct (navigator_onLine env (clock w)); cbn [negb].
  2: { destruct (idle_rounds_counts (pendingPosts w)) as (H1 & H2 & H3 & H4 & H5).
       cbn zeta in *.
       exists (map (fun _ => (0, [])) (pendingPosts w)), w.
       rewrite H1, H2, H3, app_nil_r.
       split; [reflexivity|]. split; [apply length_map|].
       split; [left; repeat split; exact H4|]. split; [apply H5 | reflexivity]. }
  destruct (sync_loop_run env (pendingPosts w) 0 [] [] w)
    as (rounds & w1 & Hloop & Hall & Hreq & _ & _ & Hs).
  rewrite (bind_normal _ _ _ _ _ Hloop). cbn [fst snd app].
  unfold bind at 1, modify at 1. unfold bind at 1, gets at 1.
  rewrite (bind_normal _ _ _ _ _ (savePendingPosts_run env _ _)).
  unfold ret. rewrite outcomes_success, outcomes_failed.
  exists rounds. eexists. split; [reflexivity|].
  split; [symmetry; apply (Forall2_length _ _ _ Hall)|].
  split; [|split; [exact Hall | exact Hreq]].
  right. cbn. rewrite Tauto.if_same. split; [reflexivity|].
  unfold stored_pending_after. cbn. rewrite Hs. reflexivity.
Qed.

(** X3 (openherd.js:286-322).  [syncPendingPosts] never throws and accounts
    for every entry of the queue: the two counts it returns add up to the
    length of the queue it found.  The queue it leaves is never longer than
    the number it reports as failed; it can be shorter, since an entry that
    has used up its attempts is reported as failed and dropped. *)
Theorem syncPendingPosts_accounts_for_every_entry (env : Env) (w : World) :
  exists r w',
    syncPendingPosts env w = (Normal r, w') /\
    success r + failed r = length (pendingPosts w) /\
    length (pendingPosts w') <= failed r.
Proof.
  destruct (syncPendingPosts_run env w) as (rounds & w' & Hrun & Hlen & Hq & _).
  eexists. exists w'. split; [exact Hrun|]. cbn [success failed].
  split; [rewrite rounds_split; exact Hlen|].
  destruct Hq as [(-> & _ & Hzero) | (-> & _)].
  - rewrite <- Hlen. clear -Hzero.
    induction Hzero as [|r rounds Hr _ IH]; cbn [List.filter length]; [lia|].
    rewrite Hr. cbn [Nat.eqb length]. lia.
  - apply survivors_length.
Qed.

(** *** Who is reached during a pass *)

Section ReconcileCounts.

Variable env : Env.

(** One [await this.broadcastPost(pending.envelope, false)], with the count
    it gives. *)
Lemma retry_count e w :
  exists w',
    await (broadcastPost env e false) w = (Normal (reached env e (clock w) w), w') /\
    clock w <= clock w' /\
    defaultCow w' = defaultCow w /\
    discoveredCows w' = discoveredCows w.
Proof.
  unfold await, reached.
  destruct (navigator_onLine env (clock w)) eqn:Hon.
  - eexists. split.
    + rewrite (bind_normal _ _ _ _ _ (broadcastPost_online_run env e false w Hon)).
      rewrite andb_false_r. reflexivity.
    + cbn. repeat split; lia.
  - eexists. split.
    + rewrite (bind_normal _ _ _ _ _ (broadcastPost_offline_run env e false w Hon)).
      reflexivity.
    + cbn. repeat split; lia.
Qed.

Lemma sync_loop_counts queue : forall i results failedPosts w,
  exists rounds w',
    sync_loop env i queue results failedPosts w =
      (Normal (results ++ map outcome_of rounds, failedPosts ++ survivors queue rounds), w') /\
    Forall2 (fun p r => exists t, clock w <= t /\ fst r = reached env (envelope p) t w)
      queue rounds.
Proof.
  induction queue as [|p0 rest IH]; intros i results failedPosts w.
  - exists [], w. cbn. unfold ret, survivors. cbn. rewrite !app_nil_r.
    split; constructor.
  - cbn [sync_loop].
    set (w1 := set_pendingPosts (<[i:=bump p0]> (pendingPosts w)) w).
    destruct (retry_count (envelope p0) w1) as (w2 & Hrun & Ht & Hd & Hc).
    unfold bind at 1, modify at 1. fold w1.
    change (envelope (bump p0)) with (envelope p0).
    rewrite (bind_normal _ _ _ _ _ Hrun).
    change (attempts (bump p0)) with (S (attempts p0)).
    change (reached env (envelope p0) (clock w1) w1)
      with (reached env (envelope p0) (clock w) w) in *.
    set (count := reached env (envelope p0) (clock w) w) in *.
    assert (Hweaken : forall rounds,
      Forall2 (fun p r => exists t, clock w2 <= t /\ fst r = reached env (envelope p) t w2)
        rest rounds ->
      Forall2 (fun p r => exists t, clock w <= t /\ fst r = reached env (envelope p) t w)
        (p0 :: rest) ((count, @nil Request) :: rounds)).
    { intros rounds Hall. constructor.
      - exists (clock w). split; [lia | reflexivity].
      - eapply Forall2_impl; [exact Hall|].
        intros p r (t & Hle & ->). exists t. split; [cbn in Ht; lia|].
        unfold reached. rewrite (accepted_at_ext env _ _ w2 w); [reflexivity | |].
        + rewrite Hd. reflexivity.
        + rewrite Hc. reflexivity. }
    destruct (Nat.ltb 0 count) eqn:Hpos.
    + destruct (IH (S i) (results ++ [{| o_success := true; o_count := Some count |}])
                  failedPosts w2) as (rounds & w' & Hloop & Hall).
      exists ((count, []) :: rounds), w'. split; [|apply Hweaken, Hall].
      rewrite Hloop, survivors_cons. cbn [map]. unfold kept, outcome_of at 2.
      cbn [fst snd]. rewrite Hpos.
      apply Nat.ltb_lt in Hpos. destruct count as [|c]; [lia|].
      cbn [Nat.eqb andb app]. rewrite <- app_assoc. reflexivity.
    + destruct (IH (S i) (results ++ [{| o_success := false; o_count := None |}])
                  (if Nat.ltb (S (attempts p0)) 5 then failedPosts ++ [bump p0] else failedPosts)
                  w2) as (rounds & w' & Hloop & Hall).
      exists ((count, []) :: rounds), w'. split; [|apply Hweaken, Hall].
      rewrite Hloop, survivors_cons. cbn [map]. unfold kept, outcome_of at 2.
      cbn [fst snd]. rewrite Hpos.
      apply Nat.ltb_ge in Hpos. assert (count = 0) as -> by lia.
      cbn [Nat.eqb andb].
      destruct (Nat.ltb (S (attempts p0)) 5); rewrite <- !app_assoc; reflexivity.
Qed.

(** A pass that starts online on a queue that is not empty. *)
Lemma sync_pass_counts w :
  pendingPosts w <> [] ->
  navigator_onLine env (clock w) = true ->
  exists rounds w',
    syncPendingPosts env w =
      (Normal {| success := length (List.filter (fun r => Nat.ltb 0 (fst r)) rounds);
                 failed := length (List.filter (fun r => Nat.eqb (fst r) 0) rounds) |},
       w') /\
    Forall2 (fun p r => exists t, clock w <= t /\ fst r = reached env (envelope p) t w)
      (pendingPosts w) rounds /\
    pendingPosts w' = survivors (pendingPosts w) rounds.
Proof.
  intros Hne Hon.
  destruct (sync_loop_counts (pendingPosts w) 0 [] [] w) as (rounds & w1 & Hloop & Hall).
  exists rounds. eexists. split; [|split; [exact Hall|]].
  - assert (Hlen : Nat.eqb (length (pendingPosts w)) 0 = false)
      by (destruct (pendingPosts w); [congruence | reflexivity]).
    unfold syncPendingPosts, isOnline.
    unfold bind at 1, gets at 1. rewrite Hlen.
    rewrite (bind_normal _ _ w true w) by (unfold gets; rewrite Hon; reflexivity).
    cbn [negb].
    rewrite (bind_normal _ _ _ _ _ Hloop). cbn [fst snd app].
    unfold bind at 1, modify at 1. unfold bind at 1, gets at 1.
    rewrite (bind_normal _ _ _ _ _ (savePendingPosts_run env _ _)).
    unfold ret. rewrite outcomes_success, outcomes_failed. reflexivity.
  - cbn. rewrite Tauto.if_same. reflexivity.
Qed.

End ReconcileCounts.

Lemma survivors_none_reached queue : forall rounds,
  Forall2 (fun (p : PendingEntry) (r : nat * list Request) => fst r = 0) queue rounds ->
  survivors queue rounds =
    map bump (List.filter (fun p => Nat.ltb (S (attempts p)) 5) queue).
Proof.
  induction queue as [|p queue IH]; intros rounds Hall; inversion Hall; subst.
  - reflexivity.
  - rewrite survivors_cons, (IH _ H3). unfold kept. cbn [fst snd List.filter].
    rewrite H1. cbn [Nat.eqb andb].
    destruct (Nat.ltb (S (attempts p)) 5); reflexivity.
Qed.

Lemma nobody_accepts_reached env e t w :
  nobody_accepts env -> reached env e t w = 0.
Proof.
  intros Hno. unfold reached, accepted_at, accepted_count.
  destruct (navigator_onLine env t); [|reflexivity].
  induction (targets (set_clock t w)) as [|cow cows IH]; [reflexivity|].
  cbn [List.filter]. unfold inbox_outcome at 1. rewrite Hno. exact IH.
Qed.

(** One pass while nobody accepts anything. *)
Lemma sync_pass_nobody env w :
  always_online env -> nobody_accepts env ->
  pendingPosts (snd (syncPendingPosts env w)) =
    map bump (List.filter (fun p => Nat.ltb (S (attempts p)) 5) (pendingPosts w)).
Proof.
  intros Hon Hno.
  destruct (pendingPosts w) as [|p q] eqn:Hq.
  - unfold syncPendingPosts, bind, gets. rewrite Hq. cbn. exact Hq.
  - destruct (sync_pass_counts env w) as (rounds & w' & -> & Hall & Hs);
      [rewrite Hq; discriminate | apply Hon|].
    cbn [snd]. rewrite Hs, Hq. rewrite Hq in Hall. apply survivors_none_reached.
    eapply Forall2_impl; [exact Hall|].
    intros p' r (t & _ & ->). apply nobody_accepts_reached, Hno.
Qed.

Lemma bump_by_bump k p : bump_by k (bump p) = bump_by (S k) p.
Proof. unfold bump_by, bump. cbn. f_equal. lia. Qed.

Lemma bump_by_1 p : bump_by 1 p = bump p.
Proof. unfold bump_by, bump. f_equal. lia. Qed.

Lemma passes_fuse k (queue : list PendingEntry) :
  map (bump_by k)
    (List.filter (fun p => Nat.ltb (attempts p + k) 5)
       (map bump (List.filter (fun p => Nat.ltb (S (attempts p)) 5) queue))) =
  map (bump_by (S k)) (List.filter (fun p => Nat.ltb (attempts p + S k) 5) queue).
Proof.
  induction queue as [|p queue IH]; [reflexivity|].
  cbn [List.filter].
  destruct (Nat.ltb (S (attempts p)) 5) eqn:H1.
  - cbn [map List.filter]. change (attempts (bump p)) with (S (attempts p)).
    replace (attempts p + S k) with (S (attempts p) + k) by lia.
    destruct (Nat.ltb (S (attempts p) + k) 5); cbn [map]; rewrite IH;
      [rewrite bump_by_bump|]; reflexivity.
  - rewrite IH. apply Nat.ltb_ge in H1.
    assert (Nat.ltb (attempts p + S k) 5 = false) as -> by (apply Nat.ltb_ge; lia).
    reflexivity.
Qed.

(** X4 (openherd.js:286-322, 299-312).  As long as the device is online and no
    target accepts anything, every pass costs every entry one attempt: after
    [k >= 1] passes the queue holds the entries that started with fewer than
    [5 - k] attempts, in their order, each with [k] attempts more.  So five
    passes in a row empty the queue, whatever it held: an envelope nobody
    accepts is given up for good, and silently. *)
Theorem sync_passes_exhaust_queue (env : Env) (w : World) (k : nat) :
  always_online env ->
  nobody_accepts env ->
  pendingPosts (sync_passes env (S k) w) =
    map (bump_by (S k)) (List.filter (fun p => Nat.ltb (attempts p + S k) 5) (pendingPosts w)) /\
  (4 <= k -> pendingPosts (sync_passes env (S k) w) = []).
Proof.
  intros Hon Hno.
  assert (Hform : forall k w,
    pendingPosts (sync_passes env (S k) w) =
      map (bump_by (S k))
        (List.filter (fun p => Nat.ltb (attempts p + S k) 5) (pendingPosts w))).
  { clear w k. intros k. induction k as [|k IH]; intros w.
    - cbn [sync_passes]. rewrite (sync_pass_nobody env w Hon Hno).
      induction (pendingPosts w) as [|p q IHq]; [reflexivity|].
      cbn [List.filter]. replace (attempts p + 1) with (S (attempts p)) by lia.
      destruct (Nat.ltb (S (attempts p)) 5); cbn [map]; rewrite IHq;
        [rewrite bump_by_1|]; reflexivity.
    - change (sync_passes env (S (S k)) w)
        with (sync_passes env (S k) (snd (syncPendingPosts env w))).
      rewrite IH, (sync_pass_nobody env w Hon Hno). apply passes_fuse. }
  split; [apply Hform|].
  intros Hk. rewrite Hform.
  induction (pendingPosts w) as [|p q IHq]; [reflexivity|].
  cbn [List.filter].
  assert (Nat.ltb (attempts p + S k) 5 = false) as -> by (apply Nat.ltb_ge; lia).
  exact IHq.
Qed.

Lemma sync_passes_exhaust_queue_witness :
  pendingPosts (sync_passes deaf_env 5 (barn_world three_pending)) = [].
Proof.
  apply (sync_passes_exhaust_queue deaf_env (barn_world three_pending) 4).
  - intros t. reflexivity.
  - intros t url e. reflexivity.
  - lia.
Defined.

Lemma survivors_without_reached (e : Envelope) queue : forall rounds,
  Forall2 (fun (p : PendingEntry) (r : nat * list Request) => envelope p = e -> 0 < fst r)
    queue rounds ->
  Forall (fun p => envelope p <> e) (survivors queue rounds) /\
  length (List.filter (fun p => bool_decide (envelope p = e)) queue) <=
    length (List.filter (fun r : nat * list Request => Nat.ltb 0 (fst r)) rounds).
Proof.
  induction queue as [|p queue IH]; intros rounds Hall; inversion Hall; subst.
  - split; [constructor | cbn; lia].
  - destruct (IH _ H3) as [IH1 IH2].
    rewrite survivors_cons. cbn [List.filter]. unfold kept. cbn [fst snd].
    destruct (decide (envelope p = e)) as [He|He].
    + specialize (H1 He). rewrite bool_decide_eq_true_2 by exact He.
      destruct (fst y) as [|c] eqn:Hy; [lia|]. cbn [Nat.eqb andb app].
      change (Nat.ltb 0 (S c)) with true. cbn [length].
      split; [exact IH1 | lia].
    + rewrite bool_decide_eq_false_2 by exact He. split.
      * apply Forall_app. split; [|exact IH1].
        destruct (_ && _); repeat constructor. exact He.
      * destruct (Nat.ltb 0 (fst y)); cbn [length]; lia.
Qed.



(** *** Losing the connection during a pass *)

Lemma sync_loop_offline env queue : forall i results failedPosts w,
  (forall t, clock w <= t -> navigator_onLine env t = false) ->
  exists w',
    sync_loop env i queue results failedPosts w =
      (Normal
         (results ++ map (fun _ => {| o_success := false; o_count := None |}) queue,
          failedPosts ++
            map bump (List.filter (fun q => Nat.ltb (S (attempts q)) 5) queue)),
       w') /\
    requests w' = requests w.
Proof.
  induction queue as [|p queue IH]; intros i results failedPosts w Hoff.
  - exists w. cbn. unfold ret. rewrite !app_nil_r. split; reflexivity.
  - cbn [sync_loop map List.filter].
    unfold bind at 1, modify at 1.
    set (w1 := set_pendingPosts (<[i:=bump p]> (pendingPosts w)) w).
    rewrite (bind_normal _ _ _ _ _
      (await_run _ _ _ _
         (broadcastPost_offline_run env (envelope (bump p)) false w1 (Hoff _ (le_n _))))).
    change (Nat.ltb 0 0) with false. cbv iota.
    change (attempts (bump p)) with (S (attempts p)).
    match goal with |- context [sync_loop env (S i) queue ?rs ?fs ?w2] =>
      destruct (IH (S i) rs fs w2) as (w' & Hloop & Hreq) end.
    { intros t Ht. apply Hoff. cbn in Ht. lia. }
    exists w'. rewrite Hloop. split; [|exact Hreq].
    destruct (Nat.ltb (S (attempts p)) 5); cbn [map app]; rewrite <- !app_assoc; reflexivity.
Qed.

(** X6 (openherd.js:286-312, 261-267).  Retries are spent without sending:
    when the connection is lost during a pass, after the first entry has been
    submitted, every other entry of the queue still has its [attempts]
    incremented and is reported as failed, although nothing is sent for it;
    those that were at their last attempt are dropped without having been
    submitted in this pass. *)
Theorem connection_lost_mid_pass_spends_attempts (env : Env) (w : World)
    (p : PendingEntry) (rest : list PendingEntry) :
  pendingPosts w = p :: rest ->
  navigator_onLine env (clock w) = true ->
  offline_after env (clock w) ->
  exists r w',
    syncPendingPosts env w = (Normal r, w') /\
    requests w' = requests w ++ fanout_requests (envelope p) w /\
    length rest <= failed r /\
    pendingPosts w' =
      (if Nat.eqb (accepted_count env (envelope p) w) 0 && Nat.ltb (S (attempts p)) 5
       then [bump p] else []) ++
      map bump (List.filter (fun q => Nat.ltb (S (attempts q)) 5) rest).
Proof.
  intros Hq Hon Hoff.
  unfold syncPendingPosts, isOnline.
  unfold bind at 1, gets at 1. rewrite Hq. cbn [length Nat.eqb].
  rewrite (bind_normal _ _ w true w) by (unfold gets; rewrite Hon; reflexivity).
  cbn [negb sync_loop].
  set (w1 := set_pendingPosts (<[0:=bump p]> (pendingPosts w)) w).
  assert (Hon1 : navigator_onLine env (clock w1) = true) by exact Hon.
  pose proof (await_run _ _ _ _
    (broadcastPost_online_run env (envelope (bump p)) false w1 Hon1)) as Hretry.
  rewrite andb_false_r in Hretry.
  change (envelope (bump p)) with (envelope p) in *.
  change (accepted_count env (envelope p) w1) with (accepted_count env (envelope p) w) in Hretry.
  change (attempts (bump p)) with (S (attempts p)).
  set (n := accepted_count env (envelope p) w) in *.
  set (w2 := set_clock _ (after_fanout (envelope p) w1)) in Hretry.
  assert (Hoff2 : forall t, clock w2 <= t -> navigator_onLine env t = false).
  { intros t Ht. apply Hoff. cbn in Ht. lia. }
  assert (Hreq2 : requests w2 = requests w ++ fanout_requests (envelope p) w) by reflexivity.
  assert (Hfailed : forall l : list SyncOutcome,
            length rest <=
            length (List.filter (fun r => negb (o_success r))
                      (l ++ map (fun _ => {| o_success := false; o_count := None |}) rest))).
  { intros l. rewrite List.filter_app, length_app.
    clear. induction rest as [|q rest IH]; cbn in *; lia. }
  assert (Hstep : forall (rs : list SyncOutcome) (fs : list PendingEntry),
    exists r w',
      (let! looped := sync_loop env 1 rest rs fs in
       modify (set_pendingPosts (snd looped)) ;;
       let! q := gets pendingPosts in
       savePendingPosts env q ;;
       ret {| success := length (List.filter (fun r => o_success r) (fst looped));
              failed := length (List.filter (fun r => negb (o_success r)) (fst looped)) |})
        w2 = (Normal r, w') /\
      requests w' = requests w ++ fanout_requests (envelope p) w /\
      length rest <= failed r /\
      pendingPosts w' =
        fs ++ map bump (List.filter (fun q => Nat.ltb (S (attempts q)) 5) rest)).
  { intros rs fs.
    destruct (sync_loop_offline env rest 1 rs fs w2 Hoff2) as (w3 & Hloop & Hreq3).
    rewrite (bind_normal _ _ _ _ _ Hloop). cbn [fst snd].
    unfold bind at 1, modify at 1. unfold bind at 1, gets at 1.
    rewrite (bind_normal _ _ _ _ _ (savePendingPosts_run env _ _)).
    eexists. eexists. split; [reflexivity|]. cbn [failed].
    split; [cbn; rewrite Hreq3; exact Hreq2|].
    split; [apply Hfailed|].
    cbn. rewrite Tauto.if_same. reflexivity. }
  unfold bind at 1. unfold bind at 1, modify at 1. fold w1.
  rewrite (bind_normal _ _ _ _ _ Hretry).
  destruct (Nat.ltb 0 n) eqn:Hpos.
  - destruct (Hstep ([] ++ [{| o_success := true; o_count := Some n |}]) [])
      as (r & w' & Hrun & Hreq & Hf & Hp).
    exists r, w'. split; [exact Hrun|]. split; [exact Hreq|]. split; [exact Hf|].
    rewrite Hp. apply Nat.ltb_lt in Hpos. destruct n; [lia | reflexivity].
  - destruct (Hstep ([] ++ [{| o_success := false; o_count := None |}])
                (if Nat.ltb (S (attempts p)) 5 then [] ++ [bump p] else []))
      as (r & w' & Hrun & Hreq & Hf & Hp).
    exists r, w'. split; [exact Hrun|]. split; [exact Hreq|]. split; [exact Hf|].
    rewrite Hp. apply Nat.ltb_ge in Hpos. assert (n = 0) as -> by lia.
    cbn [Nat.eqb andb]. destruct (Nat.ltb (S (attempts p)) 5); reflexivity.
Qed.

Lemma connection_lost_mid_pass_spends_attempts_witness :
  exists r w',
    syncPendingPosts tunnel_env (barn_world three_pending) = (Normal r, w') /\
    requests w' =
      requests (barn_world three_pending) ++
        fanout_requests (mk_envelope "b2") (barn_world three_pending) /\
    2 <= failed r /\
    pendingPosts w' = [pending_entry "y7" 1].
Proof.
  apply (connection_lost_mid_pass_spends_attempts tunnel_env (barn_world three_pending)
           (pending_entry "b2" 1) [pending_entry "x9" 4; pending_entry "y7" 0]).
  - reflexivity.
  - reflexivity.
  - intros t Ht. cbn in *. destruct t; [lia | reflexivity].
Defined.

(** ** What a computation leaves alone *)

(** A property of the state that no assignment to the fields below can
    break is kept by every operation that assigns to nothing else. *)
Section Frame.

Variable env : Env.
Variable I : World -> Prop.
Hypothesis I_clock : forall v w, I w -> I (set_clock v w).
Hypothesis I_heap : forall v w, I w -> I (set_heap v w).
Hypothesis I_next_loc : forall v w, I w -> I (set_next_loc v w).
Hypothesis I_cachedPosts : forall v w, I w -> I (set_cachedPosts v w).
Hypothesis I_stored_cached : forall v w, I w -> I (set_stored_cached v w).
Hypothesis I_app_posts : forall v w, I w -> I (set_app_posts v w).
Hypothesis I_rendered : forall v w, I w -> I (set_rendered v w).
Hypothesis I_toasts : forall v w, I w -> I (set_toasts v w).
Hypothesis I_requests : forall v w, I w -> I (set_requests v w).
Hypothesis I_loading : forall v w, I w -> I (set_loading v w).

Lemma frame_await {A} (m : M World A) : preserves I m -> preserves I (await m).
Proof.
  intros Hm. unfold await. apply preserves_bind; [exact Hm|]. intros a.
  apply preserves_bind; [|intros; apply preserves_ret].
  apply preserves_modify. intros w. apply I_clock.
Qed.

Lemma frame_alloc posts : preserves I (alloc posts).
Proof. intros w r w' HI [= <- <-]. apply I_next_loc, I_heap, HI. Qed.

Lemma frame_sortByDate l : preserves I (sortByDate env l).
Proof.
  unfold sortByDate. apply preserves_bind; [apply preserves_gets|]. intros arr.
  destruct (Nat.ltb (length arr) 2); [apply preserves_ret|].
  destruct (existsb _ arr); [apply preserves_throw|].
  apply preserves_bind; [|intros; apply preserves_ret].
  apply preserves_modify. intros w. apply I_heap.
Qed.

Lemma frame_saveCachedPosts posts : preserves I (saveCachedPosts env posts).
Proof.
  unfold saveCachedPosts. apply preserves_try_catch; [|intros; apply preserves_ret].
  apply preserves_bind; [apply preserves_gets|]. intros src.
  apply preserves_bind; [apply frame_alloc|]. intros postsToCache.
  apply preserves_bind.
  - intros w r w' HI. unfold setItem_cached.
    destruct (setItem_throws env (clock w)); intros [= <- <-];
      [exact HI | apply I_stored_cached, HI].
  - intros _. apply preserves_modify. intros w. apply I_cachedPosts.
Qed.

Lemma frame_getRootPosts posts : preserves I (getRootPosts posts).
Proof.
  unfold getRootPosts. apply preserves_js_filter. intros post.
  destruct (parsedData post); [apply preserves_throw | apply preserves_ret].
Qed.

Lemma frame_renderPost posts post : preserves I (renderPost posts post).
Proof.
  unfold renderPost. destruct (parsedData post) as [|data]; [apply preserves_throw|].
  apply preserves_bind.
  { unfold getReplies. apply preserves_settle, preserves_js_filter. intros q.
    destruct (parsedData q); [apply preserves_throw | apply preserves_ret]. }
  intros replies.
  destruct (pd_id data); try apply preserves_throw.
  apply preserves_bind; [apply preserves_gets|]. intros located.
  destruct located; [apply preserves_ret|].
  destruct (pd_latitude data), (pd_longitude data);
    first [apply preserves_ret | apply preserves_throw].
Qed.

Lemma frame_renderPosts : preserves I renderPosts.
Proof.
  unfold renderPosts.
  apply preserves_bind; [apply preserves_gets|]. intros l.
  apply preserves_bind; [apply preserves_gets|]. intros posts.
  destruct (Nat.eqb (length posts) 0); [apply preserves_modify; intros w; apply I_rendered|].
  apply preserves_bind; [apply frame_getRootPosts|]. intros rootPosts.
  apply preserves_bind; [apply preserves_js_forEach; intros; apply frame_renderPost|].
  intros _. apply preserves_modify. intros w. apply I_rendered.
Qed.

Lemma frame_from_cache : preserves I (loadPosts_from_cache env).
Proof.
  unfold loadPosts_from_cache.
  apply preserves_bind; [apply preserves_gets|]. intros cached.
  apply preserves_bind; [apply frame_sortByDate|]. intros sorted.
  apply preserves_modify. intros w. apply I_app_posts.
Qed.

Lemma frame_pending : preserves I (loadPosts_pending env).
Proof.
  unfold loadPosts_pending.
  apply preserves_bind; [apply preserves_gets|]. intros pending.
  destruct (Nat.ltb 0 (length pending)); [|apply preserves_ret].
  apply preserves_bind.
  { apply preserves_js_map. intros p. unfold pendingPostForDisplay.
    destruct (JSON_parse env _); [apply preserves_ret | apply preserves_throw]. }
  intros display.
  apply preserves_bind; [apply preserves_gets|]. intros current.
  apply preserves_bind; [apply frame_alloc|]. intros combined.
  apply preserves_bind; [apply frame_sortByDate|]. intros sorted.
  apply preserves_modify. intros w. apply I_app_posts.
Qed.

Lemma frame_catch : preserves I (loadPosts_catch env).
Proof.
  unfold loadPosts_catch.
  apply preserves_bind; [apply frame_from_cache|]. intros _.
  apply preserves_bind; [apply frame_renderPosts|]. intros _.
  unfold showError. apply preserves_modify. intros w. apply I_toasts.
Qed.

(** What [loadPosts_fetch] does with a download. *)
Lemma frame_keep_download posts :
  preserves I
    (let! unique := alloc (uniquePosts posts) in
     if Nat.ltb 0 (length (uniquePosts posts)) then
       saveCachedPosts env unique ;;
       let! sorted := sortByDate env unique in
       modify (set_app_posts sorted)
     else loadPosts_from_cache env).
Proof.
  apply preserves_bind; [apply frame_alloc|]. intros unique.
  destruct (Nat.ltb 0 (length (uniquePosts posts))); [|apply frame_from_cache].
  apply preserves_bind; [apply frame_saveCachedPosts|]. intros _.
  apply preserves_bind; [apply frame_sortByDate|]. intros sorted.
  apply preserves_modify. intros w. apply I_app_posts.
Qed.

(** What follows [loadPosts_fetch] inside the [try]. *)
Lemma frame_rest :
  preserves I (loadPosts_pending env ;; renderPosts ;; updateSyncStatus).
Proof.
  apply preserves_bind; [apply frame_pending|]. intros _.
  apply preserves_bind; [apply frame_renderPosts|]. intros _.
  apply preserves_ret.
Qed.

Lemma frame_download : preserves I (loadPosts_download env).
Proof.
  intros w r w' HI. rewrite download_run. intros [= <- <-].
  apply I_clock, I_requests, HI.
Qed.

Lemma frame_fetch : preserves I (loadPosts_fetch env).
Proof.
  unfold loadPosts_fetch.
  apply preserves_bind; [apply preserves_gets|]. intros online.
  destruct online; [|apply frame_from_cache].
  apply preserves_bind; [apply frame_download|]. intros posts.
  apply frame_keep_download.
Qed.

Lemma frame_loadPosts : preserves I (loadPosts env).
Proof.
  unfold loadPosts.
  apply preserves_bind; [apply preserves_gets|]. intros busy.
  destruct busy; [apply preserves_ret|].
  apply preserves_bind; [apply preserves_modify; intros w; apply I_loading|]. intros _.
  apply preserves_try_finally; [|apply preserves_modify; intros w; apply I_loading].
  apply preserves_try_catch; [|intros; apply frame_catch].
  apply preserves_bind; [apply frame_fetch|]. intros _.
  apply frame_rest.
Qed.

End Frame.

(** X7 (app.js:144-202).  Reloading the feed, however it ends, leaves the
    service's queue, the stored copy of the queue and the peers as they were:
    no pending post is lost or altered by looking at the feed. *)
Theorem loadPosts_leaves_queue_and_peers (env : Env) (w : World) :
  same_service w (snd (loadPosts env w)).
Proof.
  destruct (loadPosts env w) as [r w'] eqn:Hrun. cbn [snd].
  refine (frame_loadPosts env (same_service w) _ _ _ _ _ _ _ _ _ _ w r w' _ Hrun);
    try (intros v w0 H; exact H).
  repeat split.
Qed.

(** ** Invariants of the queue over any history *)

(** X8 (openherd.js:91-98, 261-283, 286-322; app.js:144-202).  The retry
    budget is kept in every state the client can reach: if no entry of the
    queue has been tried 5 times, then whatever broadcasts, passes and
    reloads follow one another, under whatever connectivity and whatever
    answers, none has afterwards. *)
Theorem queue_within_budget_always (steps : list (Env * Action)) (w : World) :
  within_budget w -> within_budget (after_actions steps w).
Proof.
  revert w. induction steps as [|[env a] steps IH]; intros w Hb; [exact Hb|].
  cbn [after_actions]. apply IH. destruct a as [e saveAsPending| |]; cbn [after_action].
  - destruct (within_budget_broadcastPost env e saveAsPending w Hb) as (n & w' & -> & Hb').
    exact Hb'.
  - destruct (within_budget_syncPendingPosts env w Hb) as (r & w' & -> & Hb').
    exact Hb'.
  - destruct (loadPosts env w) as [r w'] eqn:Hrun. cbn [snd].
    refine (frame_loadPosts env within_budget _ _ _ _ _ _ _ _ _ _ w r w' Hb Hrun);
      intros v w0 H; exact H.
Qed.

Lemma queue_within_budget_always_witness :
  within_budget
    (after_actions
       [(barn_env false, DoBroadcast (mk_envelope "c3") true);
        (deaf_env, DoSync);
        (barn_env true, DoLoad);
        (barn_env true, DoSync)]
       (barn_world three_pending)).
Proof.
  apply (queue_within_budget_always _ (barn_world three_pending)).
  unfold within_budget. cbn. repeat constructor.
Defined.

Lemma queue_persisted_iff w :
  queue_persisted w <-> default [] (stored_pending w) = pendingPosts w.
Proof.
  unfold queue_persisted, loadPendingPosts, try_catch, bind, gets, ret.
  destruct (stored_pending w); cbn; split; congruence.
Qed.

Lemma queue_persisted_enqueue env e w :
  setItem_throws env (clock w) = false -> queue_persisted (after_enqueue env e w).
Proof.
  intros Hs. apply queue_persisted_iff.
  unfold after_enqueue, stored_pending_after. cbn. rewrite Hs. reflexivity.
Qed.

(** X9 (openherd.js:67-98, 261-283, 286-322; app.js:144-202).  As long as
    [localStorage] takes what is written to it, the queue is durable: after
    any sequence of broadcasts, passes and reloads, a restart of the service
    would read back from [localStorage] exactly the queue that is in memory. *)
Theorem queue_survives_restart (steps : list (Env * Action)) (w : World) :
  Forall (fun step => storage_accepts (fst step)) steps ->
  queue_persisted w ->
  queue_persisted (after_actions steps w).
Proof.
  intros Hsteps. revert w.
  induction Hsteps as [|[env a] steps Hst _ IH]; intros w Hp; [exact Hp|].
  cbn [after_actions]. apply IH. cbn [fst] in Hst.
  apply queue_persisted_iff. apply queue_persisted_iff in Hp.
  destruct a as [e saveAsPending| |]; cbn [after_action].
  - destruct (navigator_onLine env (clock w)) eqn:Hon.
    + rewrite (broadcastPost_online_run env e saveAsPending w Hon). cbn [snd].
      destruct (_ && _); [apply queue_persisted_iff, queue_persisted_enqueue, Hst | exact Hp].
    + rewrite (broadcastPost_offline_run env e saveAsPending w Hon). cbn [snd].
      destruct saveAsPending;
        [apply queue_persisted_iff, queue_persisted_enqueue, Hst | exact Hp].
  - destruct (syncPendingPosts_run env w) as (rounds & w' & -> & _ & Hq & _). cbn [snd].
    destruct Hq as [(-> & -> & _) | (_ & ->)]; [exact Hp|].
    rewrite Hst. reflexivity.
  - destruct (loadPosts env w) as [r w'] eqn:Hrun. cbn [snd].
    refine (frame_loadPosts env (fun w => default [] (stored_pending w) = pendingPosts w)
              _ _ _ _ _ _ _ _ _ _ w r w' Hp Hrun);
      intros v w0 H; exact H.
Qed.

Lemma queue_survives_restart_witness :
  queue_persisted
    (after_actions
       [(barn_env false, DoBroadcast (mk_envelope "c3") true);
        (deaf_env, DoSync);
        (barn_env true, DoLoad);
        (barn_env true, DoSync)]
       (barn_world three_pending)).
Proof.
  apply (queue_survives_restart _ (barn_world three_pending)).
  - repeat constructor.
  - reflexivity.
Defined.

(** ** The feed and the network *)

(** The requests of a reload are those of its download. *)
Lemma loadPosts_requests env w :
  requests (snd (loadPosts env w)) =
    if negb (loading w) && navigator_onLine env (clock w)
    then requests (after_download w) else requests w.
Proof.
  set (R := if negb (loading w) && navigator_onLine env (clock w)
            then requests (after_download w) else requests w).
  set (I := fun w' : World => requests w' = R).
  assert (Hset : forall (A : Type) (f : A -> World -> World),
            (forall v w0, requests (f v w0) = requests w0) ->
            forall v w0, I w0 -> I (f v w0)).
  { intros A f Hf v w0 H. unfold I. rewrite Hf. exact H. }
  destruct (loading w) eqn:Hl.
  { unfold loadPosts, bind, gets, ret. rewrite Hl. reflexivity. }
  destruct (loadPosts_fetch env (set_loading true w)) as [r1 w1] eqn:Hfetch.
  assert (HI1 : I w1).
  { revert Hfetch. unfold loadPosts_fetch, isOnline. unfold bind at 1, gets at 1.
    cbn [clock set_loading]. subst R. cbn [negb andb].
    destruct (navigator_onLine env (clock w)) eqn:Hon.
    - rewrite (bind_normal _ _ _ _ _ (download_run env (set_loading true w))).
      apply (frame_keep_download env (fun w' => requests w' = _));
        try (intros v w0 H; exact H).
      reflexivity.
    - apply (frame_from_cache env (fun w' => requests w' = _));
        try (intros v w0 H; exact H).
      reflexivity. }
  assert (Hrest : exists r w', loadPosts env w = (r, w') /\ I w').
  { unfold loadPosts. unfold bind at 1, gets at 1. rewrite Hl.
    unfold bind at 1, modify at 1.
    eapply try_finally_catch_after; [exact Hfetch | exact HI1 | | |].
    - intros _. apply frame_rest; apply Hset; reflexivity.
    - intros _. apply frame_catch; apply Hset; reflexivity.
    - apply preserves_modify. intros w0. apply (Hset _ set_loading). reflexivity. }
  destruct Hrest as (r & w' & -> & HI). exact HI.
Qed.

(** X10 (app.js:144-202; openherd.js:206-233).  A reload only reads.  When it
    is not already running and the device is online, it asks the primary for
    its outbox and then every discovered cow for its own, each exactly once
    and in that order, whatever they answer and however the reload ends;
    otherwise it sends nothing.  It never submits anything: pending posts are
    not re-sent by looking at the feed. *)
Theorem loadPosts_asks_each_peer_once (env : Env) (w : World) :
  requests (snd (loadPosts env w)) =
    requests w ++
      (if negb (loading w) && navigator_onLine env (clock w)
       then ReqGet (defaultCow w) ::
              map (fun cow => ReqGet (url_of w cow)) (discoveredCows w)
       else []).
Proof.
  rewrite loadPosts_requests.
  destruct (negb (loading w) && navigator_onLine env (clock w));
    [reflexivity | rewrite app_nil_r; reflexivity].
Qed.

(** X11 (app.js:144-202).  The guard against overlapping reloads: a reload
    asked for while one is running does nothing at all, and a reload that runs
    releases the guard when it ends, also when it ends by throwing. *)
Theorem loadPosts_releases_guard (env : Env) (w : World) :
  if loading w
  then loadPosts env w = (Normal tt, w)
  else loading (snd (loadPosts env w)) = false.
Proof.
  destruct (loading w) eqn:Hl; unfold loadPosts; unfold bind at 1, gets at 1; rewrite Hl.
  - reflexivity.
  - unfold bind at 1, modify at 1. unfold try_finally.
    destruct (try_catch _ _ _) as [r w1]. reflexivity.
Qed.

(** ** What is sent *)

Lemma submitted_app a b : submitted (a ++ b) = submitted a ++ submitted b.
Proof. unfold submitted. apply flat_map_app. Qed.

Lemma submitted_fanout e w cows :
  Forall (fun e' => e' = e) (submitted (map (fun cow => ReqPost (url_of w cow) e) cows)).
Proof. induction cows as [|c cows IH]; cbn; repeat constructor. exact IH. Qed.

Lemma submitted_gets {A} (f : A -> string) (l : list A) :
  submitted (map (fun x => ReqGet (f x)) l) = [].
Proof. induction l as [|x l IH]; [reflexivity | exact IH]. Qed.

Lemma survivors_envelopes queue rounds :
  incl (map envelope (survivors queue rounds)) (map envelope queue).
Proof.
  intros e He. unfold survivors in He. rewrite map_map in He.
  apply in_map_iff in He as ([p r] & <- & Hin).
  apply List.filter_In in Hin as [Hin _].
  apply in_map_iff. exists p. split; [reflexivity|].
  apply list_elem_of_In. eapply elem_of_zip_l. apply list_elem_of_In. exact Hin.
Qed.

Lemma rounds_envelopes w queue rounds :
  Forall2 (retry_round w) queue rounds ->
  incl (submitted (concat (map snd rounds))) (map envelope queue).
Proof.
  induction 1 as [|p r queue rounds Hr _ IH]; [intros e []|].
  cbn [map concat]. rewrite submitted_app. intros e He.
  apply in_app_or in He as [He|He]; [|right; apply IH, He].
  left. destruct Hr as [[_ Hnil] | [Hsent _]].
  - rewrite Hnil in He. destruct He.
  - rewrite Hsent in He.
    pose proof (submitted_fanout (envelope p) w (targets w)) as Hall.
    rewrite List.Forall_forall in Hall. symmetry. apply Hall, He.
Qed.

(** One operation sends and queues nothing but what it was handed or found
    in the queue. *)
Lemma in_transit_step env a w :
  incl (in_transit (after_action env a w)) (in_transit w ++ broadcast_in [(env, a)]).
Proof.
  unfold in_transit.
  destruct a as [e saveAsPending| |]; cbn [after_action broadcast_in flat_map snd app].
  - assert (Hfan : incl (submitted (requests (after_fanout e w)))
                     (submitted (requests w) ++ [e])).
    { unfold after_fanout, fanout_requests. cbn [requests set_clock set_requests].
      rewrite submitted_app. apply incl_app; [apply incl_appl, incl_refl|].
      intros e' He'. apply in_or_app. right. left.
      pose proof (submitted_fanout e w (targets w)) as Hall.
      rewrite List.Forall_forall in Hall. symmetry. apply Hall, He'. }
    assert (Henq : forall w0,
              incl (submitted (requests w0)) (submitted (requests w) ++ [e]) ->
              pendingPosts w0 = pendingPosts w ->
              incl (submitted (requests (after_enqueue env e w0)) ++
                    map envelope (pendingPosts (after_enqueue env e w0)))
                   ((submitted (requests w) ++ map envelope (pendingPosts w)) ++ [e])).
    { intros w0 Hreq Hq. unfold after_enqueue. cbn [requests pendingPosts set_pendingPosts
        set_stored_pending]. rewrite Hq, map_app. cbn [map new_entry envelope].
      intros e' He'. rewrite !in_app_iff in *. cbn [In] in *.
      destruct He' as [He'|[He'|He']]; [|tauto..].
      apply Hreq, in_app_or in He'. cbn [In] in He'. tauto. }
    assert (Hkeep : forall w0,
              incl (submitted (requests w0)) (submitted (requests w) ++ [e]) ->
              pendingPosts w0 = pendingPosts w ->
              incl (submitted (requests w0) ++ map envelope (pendingPosts w0))
                   ((submitted (requests w) ++ map envelope (pendingPosts w)) ++ [e])).
    { intros w0 Hreq Hq. rewrite Hq. intros e' He'. rewrite !in_app_iff in *.
      destruct He' as [He'|He']; [|tauto].
      apply Hreq, in_app_or in He'. tauto. }
    destruct (navigator_onLine env (clock w)) eqn:Hon.
    + rewrite (broadcastPost_online_run env e saveAsPending w Hon). cbn [snd].
      destruct (_ && _); [apply Henq | apply Hkeep]; first [exact Hfan | reflexivity].
    + rewrite (broadcastPost_offline_run env e saveAsPending w Hon). cbn [snd].
      destruct saveAsPending; [apply Henq | apply Hkeep];
        first [apply incl_appl, incl_refl | reflexivity].
  - rewrite app_nil_r.
    destruct (syncPendingPosts_run env w) as (rounds & w' & -> & _ & Hq & Hall & Hreq).
    cbn [snd]. rewrite Hreq, submitted_app.
    pose proof (rounds_envelopes w _ _ Hall) as Hsent.
    assert (Hkept : incl (map envelope (pendingPosts w')) (map envelope (pendingPosts w))).
    { destruct Hq as [(-> & _) | (-> & _)]; [apply incl_refl | apply survivors_envelopes]. }
    intros e He. rewrite !in_app_iff in *.
    destruct He as [[He|He]|He]; [tauto | right; apply Hsent, He | right; apply Hkept, He].
  - rewrite app_nil_r, loadPosts_requests.
    assert (Hq : pendingPosts (snd (loadPosts env w)) = pendingPosts w).
    { destruct (loadPosts env w) as [r w'] eqn:Hrun. cbn [snd].
      refine (frame_loadPosts env (fun w' => pendingPosts w' = pendingPosts w)
                _ _ _ _ _ _ _ _ _ _ w r w' eq_refl Hrun);
        intros v w0 H; exact H. }
    rewrite Hq.
    destruct (negb (loading w) && navigator_onLine env (clock w)); [|apply incl_refl].
    unfold after_download. cbn [requests set_clock set_requests].
    rewrite submitted_app.
    change (submitted (ReqGet (defaultCow w) ::
                       map (fun cow => ReqGet (url_of w cow)) (discoveredCows w)))
      with (submitted (map (fun cow => ReqGet (url_of w cow)) (discoveredCows w))).
    rewrite submitted_gets, app_nil_r. apply incl_refl.
Qed.

(** X12 (openherd.js:91-98, 236-322; app.js:144-202).  The client transports
    envelopes as they are and invents none: after any sequence of
    broadcasts, passes and reloads, every envelope it has submitted to a cow
    or holds in its queue was handed to [broadcastPost] along the way, or
    was already submitted or queued at the start. *)
Theorem only_handed_envelopes_are_sent (steps : list (Env * Action)) (w : World) :
  incl (in_transit (after_actions steps w)) (in_transit w ++ broadcast_in steps).
Proof.
  revert w. induction steps as [|[env a] steps IH]; intros w.
  - cbn. rewrite app_nil_r. apply incl_refl.
  - cbn [after_actions]. intros e He.
    apply IH, in_app_or in He as [He|He].
    + apply in_transit_step, in_app_or in He as [He|He].
      * apply in_or_app. left. exact He.
      * apply in_or_app. right. unfold broadcast_in in *. cbn [flat_map] in *.
        apply in_or_app. left. rewrite app_nil_r in He. exact He.
    + apply in_or_app. right. unfold broadcast_in in *. cbn [flat_map].
      apply in_or_app. right. exact He.
Qed.

(** ** Ages *)

Lemma floor_below (x k : Z) :
  ((x / 1000 <? k) = (x <? 1000 * k))%Z.
Proof.
  destruct (Z.ltb_spec (x / 1000) k), (Z.ltb_spec x (1000 * k)); try reflexivity;
    Z.div_mod_to_equations; lia.
Qed.

(** X13 (app.js:269-276).  The age of a post is counted in whole units of the
    time elapsed in milliseconds: less than a minute, a date in the future
    included, reads [just now]; then whole minutes up to the hour, whole hours
    up to the day, whole days beyond.  Rounding down to seconds first loses
    nothing. *)
Theorem getTimeAgo_counts_whole_units (now d : Z) :
  let elapsed := (now - d)%Z in
  getTimeAgo now (Some d) =
    if (elapsed <? 60000)%Z then "just now"
    else if (elapsed <? 3600000)%Z then pretty (elapsed / 60000)%Z +:+ "m ago"
    else if (elapsed <? 86400000)%Z then pretty (elapsed / 3600000)%Z +:+ "h ago"
    else pretty (elapsed / 86400000)%Z +:+ "d ago".
Proof.
  cbn zeta. unfold getTimeAgo. rewrite !floor_below.
  rewrite !Z.div_div by lia.
  reflexivity.
Qed.

(** ** Subscribers and scans *)

Lemma discover_fields native scan st :
  let st' := snd (Discovery.discover native scan st) in
  Discovery.listeners st' = Discovery.listeners st /\
  Discovery.discoveredCows st' =
    match scan_found native scan with
    | [] => Discovery.discoveredCows st
    | svcs => map Discovery.cow_of_service svcs
    end /\
  Discovery.notifications st' =
    Discovery.notifications st ++
      match scan_found native scan with
      | [] => []
      | svcs =>
          map (fun l => (Discovery.l_id l, map Discovery.cow_of_service svcs))
            (notified (map Discovery.cow_of_service svcs) (Discovery.listeners st))
      end.
Proof.
  unfold Discovery.discover, scan_found.
  destruct native; cbn [negb].
  2: { cbn. rewrite app_nil_r. repeat split. }
  unfold try_finally, try_catch, bind, modify, throw, ret, gets, Discovery.notifyListeners.
  destruct scan as [|[|] [[|svc svcs]|]]; cbn; rewrite ?app_nil_r; try (repeat split; fail).
  rewrite notifyListeners_run. cbn.
  destruct (existsb _ (Discovery.listeners st)); cbn; repeat split.
Qed.

Lemma notified_incl cows ls l : In l (notified cows ls) -> In l ls.
Proof.
  induction ls as [|l0 ls IH]; [intros []|].
  cbn [notified]. intros [<-|H]; [left; reflexivity|].
  destruct (Discovery.l_throws l0 cows); [destruct H|]. right. apply IH, H.
Qed.

Lemma scans_call_subscribers_only (P : nat -> Prop) scans : forall st,
  Forall (fun l => P (Discovery.l_id l)) (Discovery.listeners st) ->
  exists calls,
    Discovery.notifications (after_scans scans st) = Discovery.notifications st ++ calls /\
    Forall (fun call => P (fst call)) calls.
Proof.
  induction scans as [|[native scan] scans IH]; intros st HP.
  - exists []. rewrite app_nil_r. split; [reflexivity | constructor].
  - cbn [after_scans].
    destruct (discover_fields native scan st) as (Hl & _ & Hn). cbn zeta in *.
    destruct (IH (snd (Discovery.discover native scan st))) as (calls & Hcalls & Hall).
    { rewrite Hl. exact HP. }
    rewrite Hcalls, Hn, <- app_assoc. eexists. split; [reflexivity|].
    apply Forall_app. split; [|exact Hall].
    destruct (scan_found native scan) as [|svc svcs]; [constructor|].
    apply Forall_map, Forall_forall. intros l Hin. cbn [fst].
    apply list_elem_of_In, notified_incl in Hin.
    rewrite List.Forall_forall in HP. apply HP, Hin.
Qed.

(** X14 (app.js:555-562, 494-542).  Unsubscribing works: once a callback has
    been removed, however many times it had been registered, no scan that
    follows calls it again. *)
Theorem removed_listener_is_never_called (callback : Discovery.Listener)
    (scans : list (bool * Discovery.MdnsOutcome)) (st : Discovery.State) :
  let st1 := snd (removeListener callback st) in
  Forall (fun call => fst call <> Discovery.l_id callback)
    (calls_since st1 (after_scans scans st1)).
Proof.
  cbn zeta. set (st1 := snd (removeListener callback st)).
  destruct (scans_call_subscribers_only (fun i => i <> Discovery.l_id callback) scans st1)
    as (calls & Hcalls & Hall).
  - subst st1. cbn. apply List.Forall_forall. intros l Hin.
    apply List.filter_In in Hin as [_ Hne].
    apply negb_true_iff, Nat.eqb_neq in Hne. exact Hne.
  - unfold calls_since. rewrite Hcalls, drop_app_length. exact Hall.
Qed.

Lemma last_found_nonempty scans : forall known,
  known <> [] -> last_found scans known <> [].
Proof.
  unfold last_found.
  induction scans as [|[native scan] scans IH]; intros known Hne; [exact Hne|].
  cbn [foldl fst snd]. apply IH.
  destruct (scan_found native scan); [exact Hne | discriminate].
Qed.

(** X15 (app.js:494-542).  Over any series of scans the known cows are those
    of the last scan that found any.  A scan that finds nothing, or fails,
    changes nothing: once a cow is known the list never becomes empty again,
    so a cow that has left the network stays known until another is found. *)
Theorem known_cows_are_last_found (scans : list (bool * Discovery.MdnsOutcome))
    (st : Discovery.State) :
  Discovery.discoveredCows (after_scans scans st) =
    last_found scans (Discovery.discoveredCows st) /\
  (Discovery.discoveredCows st = [] \/
   Discovery.discoveredCows (after_scans scans st) <> []).
Proof.
  assert (Hform : forall st, Discovery.discoveredCows (after_scans scans st) =
                               last_found scans (Discovery.discoveredCows st)).
  { clear st. induction scans as [|[native scan] scans IH]; intros st; [reflexivity|].
    cbn [after_scans]. rewrite IH.
    destruct (discover_fields native scan st) as (_ & -> & _). reflexivity. }
  split; [apply Hform|].
  destruct (Discovery.discoveredCows st) as [|cow cows] eqn:Hknown; [left; reflexivity|].
  right. rewrite Hform, Hknown. apply last_found_nonempty. discriminate.
Qed.

(** ** Periodic discovery *)

Lemma discover_detached_run native scan s :
  Periodic.discover_detached native scan s =
    (Normal tt,
     Periodic.set_service (snd (Discovery.discover native scan (Periodic.service s))) s).
Proof.
  unfold Periodic.discover_detached, Periodic.on_service, bind, settle, ret.
  destruct (Discovery.discover native scan (Periodic.service s)) as [[r|e] d]; reflexivity.
Qed.

Lemma one_timer_interval s :
  Periodic.one_timer s ->
  Periodic.interval_set (Periodic.discoveryInterval s) = Periodic.discoveryInterval s /\
  (forall id, Periodic.discoveryInterval s = Some id ->
     List.filter (fun t => negb (Nat.eqb t id)) (Periodic.timers s) = []).
Proof.
  intros (Hn & Ht & Hall). rewrite Ht in *.
  destruct (Periodic.discoveryInterval s) as [id|]; [|split; [reflexivity | discriminate]].
  apply Forall_cons in Hall as [Hid _]. split.
  - cbn. destruct id; [lia | reflexivity].
  - intros id' [= <-]. cbn. rewrite Nat.eqb_refl. reflexivity.
Qed.

Lemma startPeriodicDiscovery_run native scan s :
  Periodic.one_timer s ->
  Periodic.startPeriodicDiscovery native scan s =
    (Normal tt,
     {| Periodic.service := snd (Discovery.discover native scan (Periodic.service s));
        Periodic.discoveryInterval := Some (Periodic.next_timer s);
        Periodic.timers := [Periodic.next_timer s];
        Periodic.next_timer := S (Periodic.next_timer s) |}).
Proof.
  intros Hone. destruct (one_timer_interval s Hone) as [Hset Hclear].
  destruct Hone as (Hn & Ht & Hall).
  unfold Periodic.startPeriodicDiscovery. unfold bind at 1, gets at 1. rewrite Hset.
  destruct (Periodic.discoveryInterval s) as [id|] eqn:Hi.
  - unfold bind at 1, Periodic.clearInterval, modify. rewrite (Hclear id eq_refl).
    unfold bind at 1. rewrite discover_detached_run. reflexivity.
  - unfold bind at 1, ret at 1. unfold bind at 1. rewrite discover_detached_run.
    cbn. rewrite Ht. reflexivity.
Qed.

Lemma stopPeriodicDiscovery_run s :
  Periodic.one_timer s ->
  Periodic.stopPeriodicDiscovery s =
    (Normal tt,
     {| Periodic.service := Periodic.service s;
        Periodic.discoveryInterval := None;
        Periodic.timers := [];
        Periodic.next_timer := Periodic.next_timer s |}).
Proof.
  intros Hone. destruct (one_timer_interval s Hone) as [Hset Hclear].
  destruct Hone as (Hn & Ht & Hall).
  unfold Periodic.stopPeriodicDiscovery. unfold bind at 1, gets at 1. rewrite Hset.
  destruct (Periodic.discoveryInterval s) as [id|] eqn:Hi.
  - unfold bind, Periodic.clearInterval, modify. rewrite (Hclear id eq_refl). reflexivity.
  - unfold ret. destruct s; cbn in *. subst. reflexivity.
Qed.

Lemma timer_fires_run native scan id s :
  Periodic.timer_fires native scan id s =
    (Normal tt,
     if existsb (Nat.eqb id) (Periodic.timers s)
     then Periodic.set_service
            (snd (Discovery.discover native scan (Periodic.service s))) s
     else s).
Proof.
  unfold Periodic.timer_fires. unfold bind at 1, gets at 1.
  destruct (existsb (Nat.eqb id) (Periodic.timers s)); [apply discover_detached_run | reflexivity].
Qed.

(** X16 (app.js:565-585).  However often periodic discovery is started and
    stopped, and whatever the scans bring, the service never has more than one
    interval timer set, and [discoveryInterval] names it: starting again
    clears the timer of the previous start, so timers do not pile up. *)
Theorem periodic_discovery_keeps_one_timer (evs : list Periodic.Event) (s : Periodic.State) :
  Periodic.one_timer s ->
  Periodic.one_timer (Periodic.after_events evs s) /\
  length (Periodic.timers (Periodic.after_events evs s)) <= 1.
Proof.
  intros Hone.
  assert (Hinv : Periodic.one_timer (Periodic.after_events evs s)).
  { revert s Hone. induction evs as [|ev evs IH]; intros s Hone; [exact Hone|].
    cbn [Periodic.after_events]. apply IH.
    destruct ev as [native scan| |id native scan]; cbn [Periodic.after_event].
    - rewrite (startPeriodicDiscovery_run native scan s Hone). cbn [snd].
      destruct Hone as (Hn & _). repeat split; cbn; [lia|].
      repeat constructor; lia.
    - rewrite (stopPeriodicDiscovery_run s Hone). cbn [snd].
      destruct Hone as (Hn & _). repeat split; cbn; [exact Hn | constructor].
    - rewrite timer_fires_run. cbn [snd].
      destruct (existsb _ _); exact Hone. }
  split; [exact Hinv|].
  destruct Hinv as (_ & -> & _).
  destruct (Periodic.discoveryInterval _); cbn; lia.
Qed.

Lemma periodic_discovery_keeps_one_timer_witness :
  Periodic.one_timer
    (Periodic.after_events
       [Periodic.Start true (Discovery.ScanResult false (Some [shed_service]));
        Periodic.Start true Discovery.ScanRejected;
        Periodic.Fires 2 true (Discovery.ScanResult false None);
        Periodic.Start false Discovery.ScanRejected]
       (Periodic.fresh subscribed)) /\
  length
    (Periodic.timers
       (Periodic.after_events
          [Periodic.Start true (Discovery.ScanResult false (Some [shed_service]));
           Periodic.Start true Discovery.ScanRejected;
           Periodic.Fires 2 true (Discovery.ScanResult false None);
           Periodic.Start false Discovery.ScanRejected]
          (Periodic.fresh subscribed))) <= 1.
Proof.
  apply (periodic_discovery_keeps_one_timer _ (Periodic.fresh subscribed)).
  unfold Periodic.one_timer. cbn. repeat split; [lia | constructor].
Defined.

(** X17 (app.js:580-585, 573-576).  Stopping stops: after
    [stopPeriodicDiscovery] the service has no timer left, so whichever timer
    comes due afterwards, no scan is started and the service stays as it
    is. *)
Theorem stopPeriodicDiscovery_stops_scans (fires : list Periodic.Event) (s : Periodic.State) :
  Periodic.one_timer s ->
  Forall Periodic.is_fire fires ->
  Periodic.timers (Periodic.after_event Periodic.Stop s) = [] /\
  Periodic.service (Periodic.after_events fires (Periodic.after_event Periodic.Stop s)) =
    Periodic.service s.
Proof.
  intros Hone Hfires. cbn [Periodic.after_event].
  rewrite (stopPeriodicDiscovery_run s Hone). cbn [snd].
  split; [reflexivity|].
  set (s1 := {| Periodic.service := Periodic.service s |}).
  assert (Hstay : Periodic.after_events fires s1 = s1).
  { assert (Ht : Periodic.timers s1 = []) by reflexivity.
    clearbody s1. induction Hfires as [|ev fires Hev _ IH]; [reflexivity|].
    cbn [Periodic.after_events].
    destruct ev as [| |id native scan]; try destruct Hev.
    cbn [Periodic.after_event]. rewrite timer_fires_run, Ht. cbn. exact IH. }
  rewrite Hstay. reflexivity.
Qed.

Lemma stopPeriodicDiscovery_stops_scans_witness :
  Periodic.timers
    (Periodic.after_event Periodic.Stop
       (Periodic.after_event (Periodic.Start true Discovery.ScanRejected)
          (Periodic.fresh subscribed))) = [] /\
  Periodic.service
    (Periodic.after_events
       [Periodic.Fires 1 true (Discovery.ScanResult false (Some [shed_service]))]
       (Periodic.after_event Periodic.Stop
          (Periodic.after_event (Periodic.Start true Discovery.ScanRejected)
             (Periodic.fresh subscribed)))) =
    Periodic.service
      (Periodic.after_event (Periodic.Start true Discovery.ScanRejected)
         (Periodic.fresh subscribed)).
Proof.
  apply (stopPeriodicDiscovery_stops_scans
           [Periodic.Fires 1 true (Discovery.ScanResult false (Some [shed_service]))]
           (Periodic.after_event (Periodic.Start true Discovery.ScanRejected)
              (Periodic.fresh subscribed))).
  - unfold Periodic.one_timer. cbn. repeat split; [lia | repeat constructor; lia].
  - repeat constructor.
Defined.

(** ** From discovery to the fan-out *)

Lemma address_not_empty svc : String.eqb (address svc) "" = false.
Proof. reflexivity. Qed.

Lemma url_of_address w svc : url_of w (address svc) = address svc.
Proof. unfold url_of, or_defaultCow. rewrite address_not_empty. reflexivity. Qed.

Lemma url_of_primary w : url_of w (defaultCow w) = defaultCow w.
Proof. unfold url_of, or_defaultCow. destruct (String.eqb _ _); reflexivity. Qed.

(** X18 (app.js:24-27, 518-531; openherd.js:261-283, 236-258).  The cows a
    scan has found are the peers of the next broadcast: once the application's
    subscriber has been called with them, an online broadcast submits the
    envelope to the primary and then to every service found, each at its own
    [http://host:port] address and in the order of the scan; the peers known
    before are not contacted any more. *)
Theorem found_cows_are_broadcast_to (env : Env) (e : Envelope)
    (svcs : list Discovery.MdnsService) (w : World) :
  navigator_onLine env (clock w) = true ->
  let w1 := snd (app_listener (map Discovery.cow_of_service svcs) w) in
  requests (snd (broadcastPost env e false w1)) =
    requests w ++ ReqPost (defaultCow w) e :: map (fun svc => ReqPost (address svc) e) svcs.
Proof.
  intros Hon. cbn zeta.
  set (w1 := snd (app_listener (map Discovery.cow_of_service svcs) w)).
  assert (Hon1 : navigator_onLine env (clock w1) = true) by exact Hon.
  rewrite (broadcastPost_online_run env e false w1 Hon1), andb_false_r. cbn [snd].
  unfold after_fanout, fanout_requests, targets. cbn [requests set_clock set_requests].
  change (requests w1) with (requests w). f_equal.
  change (defaultCow w1) with (defaultCow w).
  change (discoveredCows w1) with (map Discovery.url (map Discovery.cow_of_service svcs)).
  cbn [map]. f_equal.
  - f_equal. apply (url_of_primary w1).
  - rewrite !map_map. apply map_ext. intros svc.
    fold (address svc). rewrite (url_of_address w1 svc). reflexivity.
Qed.

Lemma found_cows_are_broadcast_to_witness :
  requests
    (snd (broadcastPost (barn_env true) (mk_envelope "b2") false
            (snd (app_listener (map Discovery.cow_of_service [shed_service])
                    (barn_world []))))) =
    [ReqPost primary_url (mk_envelope "b2");
     ReqPost "http://192.168.1.7:3000" (mk_envelope "b2")].
Proof.
  apply (found_cows_are_broadcast_to (barn_env true) (mk_envelope "b2") [shed_service]
           (barn_world [])).
  reflexivity.
Defined.

(** ** Which copy deduplication keeps *)

Lemma first_seen_In k ids : In k (first_seen ids) <-> In k ids.
Proof.
  induction ids as [|i ids IH]; [reflexivity|].
  cbn [first_seen]. cbn [In]. rewrite List.filter_In, IH, negb_true_iff.
  destruct (String.eqb_spec k i) as [->|Hne]; [tauto|].
  split; [tauto|]. intros [H|H]; [left; exact H | right; split; [exact H | reflexivity]].
Qed.

Lemma first_seen_snoc k ids :
  first_seen (ids ++ [k]) =
    if bool_decide (k ∈ ids) then first_seen ids else first_seen ids ++ [k].
Proof.
  induction ids as [|i ids IH].
  - reflexivity.
  - cbn [app first_seen]. rewrite IH.
    destruct (String.eqb_spec k i) as [->|Hne].
    + rewrite (bool_decide_eq_true_2 (i ∈ i :: ids)) by left.
      destruct (bool_decide (i ∈ ids)); [reflexivity|].
      rewrite List.filter_app. cbn. rewrite String.eqb_refl. cbn.
      rewrite app_nil_r. reflexivity.
    + destruct (bool_decide (k ∈ ids)) eqn:Hin.
      * apply bool_decide_eq_true_1 in Hin.
        rewrite bool_decide_eq_true_2 by (right; exact Hin). reflexivity.
      * apply bool_decide_eq_false_1 in Hin.
        rewrite bool_decide_eq_false_2
          by (intros H; apply elem_of_cons in H as [?|?]; congruence).
        rewrite List.filter_app. cbn.
        destruct (String.eqb_spec k i); [congruence | reflexivity].
Qed.

Lemma Map_new_snoc entries k v :
  Map_new (entries ++ [(k, v)]) = Map_set k v (Map_new entries).
Proof. unfold Map_new. rewrite foldl_app. reflexivity. Qed.

Lemma Map_new_NoDup entries : List.NoDup (map fst (Map_new entries)).
Proof.
  destruct (Map_new_spec entries []) as (Hnd & _). apply Hnd. constructor.
Qed.

Lemma Map_new_keys posts :
  map fst (Map_new (map (fun post => (post_id post, post)) posts)) =
    first_seen (map post_id posts).
Proof.
  induction posts as [|q posts IH] using rev_ind; [reflexivity|].
  rewrite !map_app. cbn [map]. rewrite Map_new_snoc, Map_set_keys, first_seen_snoc, IH.
  apply (f_equal (fun b : bool => if b then _ else _)).
  apply bool_decide_ext. rewrite !list_elem_of_In. apply first_seen_In.
Qed.

(** Setting a key leaves the entries under the other keys, and them only. *)
Lemma Map_set_others k v m kp :
  List.NoDup (map fst m) ->
  In kp (Map_set k v m) -> kp = (k, v) \/ (In kp m /\ fst kp <> k).
Proof.
  induction m as [|[k' v'] m IH]; cbn [Map_set map fst]; intros Hnd.
  - intros [<-|[]]. left; reflexivity.
  - apply List.NoDup_cons_iff in Hnd as [Hk' Hnd].
    destruct (String.eqb_spec k' k) as [->|Hne].
    + intros [<-|H]; [left; reflexivity|]. right. split; [right; exact H|].
      intros <-. apply Hk', in_map, H.
    + intros [<-|H]; [right; split; [left; reflexivity | exact Hne]|].
      destruct (IH Hnd H) as [->|[H1 H2]]; [left; reflexivity|].
      right. split; [right; exact H1 | exact H2].
Qed.

Lemma last_with_snoc i posts q :
  last_with i (posts ++ [q]) =
    if String.eqb (post_id q) i then Some q else last_with i posts.
Proof. unfold last_with. rewrite rev_app_distr. reflexivity. Qed.

Lemma Map_new_last posts k v :
  In (k, v) (Map_new (map (fun post => (post_id post, post)) posts)) ->
  last_with k posts = Some v.
Proof.
  revert k v. induction posts as [|q posts IH] using rev_ind; intros k v; [intros []|].
  rewrite map_app. cbn [map]. rewrite Map_new_snoc, last_with_snoc. intros Hin.
  apply Map_set_others in Hin as [[= -> ->] | [Hin Hne]]; [| |apply Map_new_NoDup].
  - rewrite String.eqb_refl. reflexivity.
  - cbn [fst] in Hne. destruct (String.eqb_spec (post_id q) k); [congruence|].
    apply IH, Hin.
Qed.

(** X19 (app.js:155-168).  When several sources serve a post under the same
    [id], the feed keeps the copy that was fetched last, at the place where
    the [id] was first seen: the copy of a discovered cow replaces the copy of
    the primary, and among discovered cows the last one asked wins. *)
Theorem uniquePosts_keeps_last_copy (posts : list Post) :
  map post_id (uniquePosts posts) = first_seen (map post_id posts) /\
  Forall (fun p => last_with (post_id p) posts = Some p) (uniquePosts posts).
Proof.
  split.
  - rewrite uniquePosts_ids. apply Map_new_keys.
  - apply List.Forall_forall. intros p Hp.
    unfold uniquePosts, Map_values in Hp.
    apply in_map_iff in Hp as ([k v] & Hv & Hin). cbn [snd] in Hv. subst v.
    pose proof (Map_new_last posts k p Hin) as Hlast.
    destruct (List.find_some _ _ Hlast) as [_ Hk].
    apply String.eqb_eq in Hk. rewrite Hk. exact Hlast.
Qed.

(** ** What sending leaves alone *)

Section ServiceFrame.

Variable env : Env.
Variable I : World -> Prop.
Hypothesis I_clock : forall v w, I w -> I (set_clock v w).
Hypothesis I_requests : forall v w, I w -> I (set_requests v w).
Hypothesis I_pendingPosts : forall v w, I w -> I (set_pendingPosts v w).
Hypothesis I_stored_pending : forall v w, I w -> I (set_stored_pending v w).

Lemma frame_enqueue e w : I w -> I (after_enqueue env e w).
Proof. intros HI. unfold after_enqueue. apply I_pendingPosts, I_stored_pending, HI. Qed.

Lemma frame_broadcastPost e saveAsPending : preserves I (broadcastPost env e saveAsPending).
Proof.
  intros w r w' HI.
  assert (Hfan : I (after_fanout e w)) by (unfold after_fanout; apply I_clock, I_requests, HI).
  destruct (navigator_onLine env (clock w)) eqn:Hon.
  - rewrite (broadcastPost_online_run env e saveAsPending w Hon). intros [= <- <-].
    destruct (_ && _); [apply frame_enqueue, Hfan | exact Hfan].
  - rewrite (broadcastPost_offline_run env e saveAsPending w Hon). intros [= <- <-].
    destruct saveAsPending; [apply frame_enqueue, HI | exact HI].
Qed.

Lemma frame_savePendingPosts q : preserves I (savePendingPosts env q).
Proof.
  intros w r w' HI. rewrite savePendingPosts_run. intros [= <- <-].
  apply I_pendingPosts, I_stored_pending, HI.
Qed.

Lemma frame_sync_loop queue : forall i results failedPosts,
  preserves I (sync_loop env i queue results failedPosts).
Proof.
  induction queue as [|p queue IH]; intros i results failedPosts; cbn [sync_loop].
  - apply preserves_ret.
  - apply preserves_bind; [apply preserves_modify; intros w; apply I_pendingPosts|].
    intros _. apply preserves_bind.
    + apply (frame_await I I_clock), frame_broadcastPost.
    + intros count. destruct (Nat.ltb 0 count); apply IH.
Qed.

Lemma frame_syncPendingPosts : preserves I (syncPendingPosts env).
Proof.
  unfold syncPendingPosts.
  apply preserves_bind; [apply preserves_gets|]. intros queue.
  destruct (Nat.eqb (length queue) 0); [apply preserves_ret|].
  apply preserves_bind; [apply preserves_gets|]. intros online.
  destruct (negb online); [apply preserves_ret|].
  apply preserves_bind; [apply frame_sync_loop|]. intros looped.
  apply preserves_bind; [apply preserves_modify; intros w; apply I_pendingPosts|]. intros _.
  apply preserves_bind; [apply preserves_gets|]. intros q.
  apply preserves_bind; [apply frame_savePendingPosts|]. intros _.
  apply preserves_ret.
Qed.

End ServiceFrame.

(** X20 (openherd.js:81-98, 236-322).  Sending is separate from reading: a
    broadcast or a reconciliation pass, whatever happens on the network and in
    [localStorage], changes neither the feed, nor the cache and its stored
    copy, nor what is on the page, nor the peers. *)
Theorem sending_leaves_feed_and_cache (env : Env) (e : Envelope) (saveAsPending : bool)
    (w : World) :
  same_feed w (snd (broadcastPost env e saveAsPending w)) /\
  same_feed w (snd (syncPendingPosts env w)).
Proof.
  split.
  - destruct (broadcastPost env e saveAsPending w) as [r w'] eqn:Hrun. cbn [snd].
    refine (frame_broadcastPost env (same_feed w) _ _ _ _ e saveAsPending w r w' _ Hrun);
      try (intros v w0 H; exact H).
    repeat split.
  - destruct (syncPendingPosts env w) as [r w'] eqn:Hrun. cbn [snd].
    refine (frame_syncPendingPosts env (same_feed w) _ _ _ _ w r w' _ Hrun);
      try (intros v w0 H; exact H).
    repeat split.
Qed.

(** ** The cache over any history *)

Lemma cache_coherent_iff w :
  cache_coherent w <->
  cachedPosts w < next_loc w /\
  array_at (cachedPosts w) w ≡ₚ default [] (stored_cached w).
Proof.
  unfold cache_coherent, loadCachedPosts, try_catch, bind, gets, ret.
  destruct (stored_cached w) as [sc|]; cbn; split.
  - intros (Hlt & snapshot & [= <-] & Hp). auto.
  - intros (Hlt & Hp). eauto.
  - intros (Hlt & snapshot & [= <-] & Hp). auto.
  - intros (Hlt & Hp). eauto.
Qed.

Lemma cache_coherent_same w w' :
  heap w' = heap w -> next_loc w' = next_loc w ->
  cachedPosts w' = cachedPosts w -> stored_cached w' = stored_cached w ->
  cache_coherent w -> cache_coherent w'.
Proof.
  intros Hh Hn Hc Hs. rewrite !cache_coherent_iff. unfold array_at.
  rewrite Hh, Hn, Hc, Hs. tauto.
Qed.

Lemma cache_coherent_loadPosts env w :
  cache_coherent w -> cache_coherent (snd (loadPosts env w)).
Proof.
  intros Hco. apply cache_coherent_iff in Hco as [Hlt Hp]. apply cache_coherent_iff.
  destruct (loading w) eqn:Hl.
  { unfold loadPosts, bind, gets, ret. rewrite Hl. cbn [snd]. auto. }
  destruct (loadPosts_fetch_cache env (set_loading true w) Hlt) as (r1 & w1 & Hfetch & HI).
  cbn zeta in HI.
  change (fetched_all env (set_loading true w)) with (fetched_all env w) in HI.
  change (clock (set_loading true w)) with (clock w) in HI.
  change (clock (after_download (set_loading true w))) with (clock (after_download w)) in HI.
  set (U := uniquePosts (fetched_all env w)) in *.
  destruct (navigator_onLine env (clock w) && Nat.ltb 0 (length U) &&
            negb (setItem_throws env (clock (after_download w)))).
  - destruct (loadPosts_after_fetch env _ _ _ (perm_sorted env (take 100 U)) w r1 w1 Hl Hfetch HI)
      as (r & w' & -> & (Hc & Hn & HP & Hs)).
    cbn [snd]. rewrite Hs, Hc. cbn. split; [exact Hn | exact HP].
  - destruct (loadPosts_after_fetch env _ _ _
                (perm_sorted env (array_at (cachedPosts w) w)) w r1 w1 Hl Hfetch HI)
      as (r & w' & -> & (Hc & Hn & HP & Hs)).
    cbn [snd]. cbn in Hc, Hn, HP, Hs. rewrite Hs, Hc.
    split; [exact Hn | rewrite HP; exact Hp].
Qed.

(** X21 (openherd.js:41-64, 330-336; app.js:171-179).  The cache in memory and
    its copy in [localStorage] hold the same posts in every state the client
    can reach, whether [localStorage] takes the writes or refuses them: after
    any sequence of broadcasts, passes and reloads, a restart would read back
    the posts the cache holds now.  Only their order can differ, since showing
    the cache sorts it in memory. *)
Theorem cache_matches_its_snapshot (steps : list (Env * Action)) (w : World) :
  cache_coherent w -> cache_coherent (after_actions steps w).
Proof.
  revert w. induction steps as [|[env a] steps IH]; intros w Hco; [exact Hco|].
  cbn [after_actions]. apply IH. destruct a as [e saveAsPending| |]; cbn [after_action].
  - destruct (broadcastPost env e saveAsPending w) as [r w'] eqn:Hrun. cbn [snd].
    refine (frame_broadcastPost env cache_coherent _ _ _ _ e saveAsPending w r w' Hco Hrun);
      intros v w0; apply cache_coherent_same; reflexivity.
  - destruct (syncPendingPosts env w) as [r w'] eqn:Hrun. cbn [snd].
    refine (frame_syncPendingPosts env cache_coherent _ _ _ _ w r w' Hco Hrun);
      intros v w0; apply cache_coherent_same; reflexivity.
  - apply cache_coherent_loadPosts, Hco.
Qed.

Lemma cache_matches_its_snapshot_witness :
  cache_coherent
    (after_actions
       [(barn_env true, DoLoad);
        (barn_env false, DoBroadcast (mk_envelope "c3") true);
        (barn_env false, DoLoad);
        (barn_env true, DoSync)]
       (barn_world [])).
Proof.
  apply (cache_matches_its_snapshot _ (barn_world [])).
  apply cache_coherent_iff. split; [cbn; lia | reflexivity].
Defined.

(** ** Pending posts in the feed *)

Lemma parse_pending_flags env pending display :
  parse_pending env pending = Some display ->
  map post_envelope display = map envelope pending /\
  Forall (fun p => isPending p = true) display.
Proof.
  revert display. induction pending as [|p pending IH]; intros display.
  - intros [= <-]. split; [reflexivity | constructor].
  - cbn [parse_pending].
    destruct (JSON_parse env (e_data (envelope p))) as [d|]; [|discriminate].
    destruct (parse_pending env pending) as [posts|]; [|discriminate].
    intros [= <-]. destruct (IH posts eq_refl) as [IH1 IH2].
    split; [cbn; rewrite IH1; reflexivity | constructor; [reflexivity | exact IH2]].
Qed.


